(** * Recovery techniques for unstructured LR B-splines (ASMu2Drecovery.C)

    A shallow embedding of the recovery/projection routines of the patch
    class [ASMu2D]: [getGrevilleParameters], [expandTensorGrid],
    [globalL2projection], [evalMonomials], [scRecovery] and
    [regularInterpolation].

    Conventions of the embedding.
    - [double] is an abstract carrier with uninterpreted operations (class
      [RealOps]); no algebraic law is assumed, so every statement proved here
      holds for any arithmetic, IEEE included.  The instance at [Q] is used to
      run the definitions on concrete inputs.
    - [int] is carried as [Z] (signed overflow is undefined in C++ and is not
      modelled); [size_t] indices that count containers are [nat]; the
      conversion of a signed [int] to [size_t] is written out modulo 2^64.
    - an output parameter becomes a returned value; a [bool] result with an
      output parameter becomes a pair; a pointer result becomes an [option].
    - the LR-spline library, the quadrature table, the linear solvers and the
      field evaluator are collaborators that are not part of this file of the
      program: they are fields of the records [LRSplineSurface], [ASMu2D] and
      [Services].  The copy of a mesh with new control values, which the
      library builds, is modelled from the spec ([set_basis]).
    - dereferencing a null [lrspline] handle is the outcome [NullDeref]. *)

From Stdlib Require Import ZArith QArith Lia Bool.
From stdpp Require Import base list gmap option.

Set Default Proof Using "Type".
Local Open Scope nat_scope.

(** ** Scalars *)

Class RealOps (Real : Type) := {
  r0   : Real;                     (* 0.0 *)
  r1   : Real;                     (* 1.0 *)
  r025 : Real;                     (* 0.25 *)
  radd : Real -> Real -> Real;
  rsub : Real -> Real -> Real;
  rmul : Real -> Real -> Real;
  req  : Real -> Real -> bool;     (* operator== *)
  rlt  : Real -> Real -> bool      (* operator<  *)
}.

#[export] Instance Q_RealOps : RealOps Q := {
  r0 := 0%Q; r1 := 1%Q; r025 := (1 # 4)%Q;
  radd := Qplus; rsub := Qminus; rmul := Qmult;
  req := Qeq_bool;
  rlt := fun a b => negb (Qle_bool b a)
}.

(** ** Counted loops *)

(** [for (i = 0; i < n; i++) s = body i s] *)
Definition forRange {S : Type} (n : nat) (body : nat -> S -> S) (s : S) : S :=
  foldl (fun s i => body i s) s (seq 0 n).

(** [for (a : l) ...] with a body that may [return] out of the function:
    [inl e] is the early return, [inr s] the state carried on. *)
Fixpoint forEachM {E S A : Type} (body : A -> S -> E + S) (l : list A) (s : S)
  : E + S :=
  match l with
  | [] => inr s
  | a :: l' =>
      match body a s with
      | inl e => inl e
      | inr s' => forEachM body l' s'
      end
  end.

(** ** Arrays and expandTensorGrid *)

(** [RealArray] is [std::vector<Real>]. *)
Abbreviation RealArray Real := (list Real) (only parsing).

Section Arrays.
Context {Real : Type} `{RealOps Real}.

(** [a[i]] on a [std::vector]; a read past the end (undefined in the source)
    yields [0.0] here. *)
Definition at_ (a : RealArray Real) (i : nat) : Real := default r0 (a !! i).

(** State of the two nested loops of [expandTensorGrid]: the two output
    arrays and the running index [ip]. *)
Definition expandTensorGrid (in0 in1 : RealArray Real)
  (out0 out1 : RealArray Real) : RealArray Real * RealArray Real :=
  let out0 := resize (length in0 * length in1) r0 out0 in
  let out1 := resize (length in0 * length in1) r0 out1 in
  let '(o0, o1, _) :=
    forRange (length in1) (fun j st =>
      forRange (length in0) (fun i '(o0, o1, ip) =>
        (<[ip := at_ in0 i]> o0, <[ip := at_ in1 j]> o1, Datatypes.S ip)) st)
      (out0, out1, 0) in
  (o0, o1).

End Arrays.

(** ** Matrices and vectors (utl::matrix, utl::vector, SparseMatrix) *)

(** [utl::matrix<Real>]: dimensions and the elements stored column by column;
    [M(r,c)] is 1-based. *)
Record Matrix (Real : Type) := mkMatrix {
  rows : nat;
  cols : nat;
  elem : list Real
}.
Arguments mkMatrix {Real} _ _ _.
Arguments rows {Real} _.
Arguments cols {Real} _.
Arguments elem {Real} _.

(** [SparseMatrix]: dimensions and the map of the stored entries. *)
Record SparseMatrix (Real : Type) := mkSparse {
  srows : nat;
  scols : nat;
  selem : gmap (nat * nat) Real
}.
Arguments mkSparse {Real} _ _ _.
Arguments srows {Real} _.
Arguments scols {Real} _.
Arguments selem {Real} _.

Section Matrices.
Context {Real : Type} `{RealOps Real}.

(** [Matrix M(r,c)] : all entries zero. *)
Definition mat_new (r c : nat) : Matrix Real :=
  mkMatrix r c (replicate (r * c) r0).

Definition mat_idx (M : Matrix Real) (r c : nat) : nat :=
  (r - 1) + rows M * (c - 1).

(** [M(r,c)] as an rvalue. *)
Definition mget (M : Matrix Real) (r c : nat) : Real :=
  at_ (elem M) (mat_idx M r c).

(** [M(r,c) = v]. *)
Definition mset (M : Matrix Real) (r c : nat) (v : Real) : Matrix Real :=
  mkMatrix (rows M) (cols M) (<[mat_idx M r c := v]> (elem M)).

(** [M.resize(r,c)]: every caller in this file overwrites all r*c entries
    afterwards, so only the new dimensions matter. *)
Definition mat_resize (r c : nat) (M : Matrix Real) : Matrix Real :=
  mkMatrix r c (resize (r * c) r0 (elem M)).

(** [Matrix B(M,true)] : the transposed copy. *)
Definition mat_transpose (M : Matrix Real) : Matrix Real :=
  mkMatrix (cols M) (rows M)
    (c ← seq 1 (rows M); r ← seq 1 (cols M); [mget M c r]).

(** [v(i)] and [v(i) = x] on a 1-based [utl::vector]. *)
Definition vget (v : list Real) (i : nat) : Real := at_ v (i - 1).
Definition vset (v : list Real) (i : nat) (x : Real) : list Real :=
  <[i - 1 := x]> v.

(** [A.redim(r,c)] on a fresh sparse matrix. *)
Definition sparse_new (r c : nat) : SparseMatrix Real := mkSparse r c ∅.

(** [A(i,j) += x]. *)
Definition sparse_add (A : SparseMatrix Real) (i j : nat) (x : Real)
  : SparseMatrix Real :=
  mkSparse (srows A) (scols A)
    (<[(i, j) := radd (default r0 (selem A !! (i, j))) x]> (selem A)).

(** The row of [A] and the column of [X] that meet in entry (r,c) of [A*X],
    and their inner product accumulated from left to right. *)
Definition mat_row (A : Matrix Real) (r : nat) : list Real :=
  (fun c => mget A r c) <$> seq 1 (cols A).
Definition mat_col (X : Matrix Real) (c : nat) : list Real :=
  (fun r => mget X r c) <$> seq 1 (rows X).
Definition dot (a b : list Real) : Real :=
  foldl (fun acc '(x, y) => radd acc (rmul x y)) r0 (zip a b).

End Matrices.

(** ** The LR-spline mesh, the integrand and the services *)

(** [LR::Element] *)
Record Element := mkElement {
  getId : Z;
  el_nBasisFunctions : nat
}.

(** [LR::Basisfunction] *)
Record Basisfunction (Real : Type) := mkBasisfunction {
  getGrevilleParameter : list Real;
  getExtendedSupport : list Element;
  supportedElements : list Element;   (* supportedElementBegin() .. End() *)
  cp : list Real
}.
Arguments mkBasisfunction {Real} _ _ _ _.
Arguments getGrevilleParameter {Real} _.
Arguments getExtendedSupport {Real} _.
Arguments supportedElements {Real} _.
Arguments cp {Real} _.

(** [Go::BasisDerivsSf] *)
Record BasisDerivsSf (Real : Type) := mkBasisDerivsSf {
  basisValues : list Real;
  basisDerivs_u : list Real;
  basisDerivs_v : list Real
}.
Arguments mkBasisDerivsSf {Real} _ _ _.

(** [LR::LRSplineSurface].  [getAllBasisfunctions] is the canonical
    enumeration of the basis functions, [elements] the range
    [elementBegin() .. elementEnd()]; [computeBasis u v iel] are the values
    of [Go::BasisPtsSf] (element id -1 when the call gives none). *)
Record LRSplineSurface (Real : Type) := mkLRSplineSurface {
  order : Z -> Z;
  rational : bool;
  getAllBasisfunctions : list (Basisfunction Real);
  elements : list Element;
  computeBasis : Real -> Real -> Z -> list Real;
  computeBasisDerivs : Real -> Real -> Z -> BasisDerivsSf Real;
  point : Real -> Real -> list Real
}.
Arguments mkLRSplineSurface {Real} _ _ _ _ _ _ _.
Arguments order {Real} _ _.
Arguments rational {Real} _.
Arguments getAllBasisfunctions {Real} _.
Arguments elements {Real} _.
Arguments computeBasis {Real} _ _ _ _.
Arguments computeBasisDerivs {Real} _ _ _ _.
Arguments point {Real} _ _ _.

Definition nBasisFunctions {Real : Type} (spl : LRSplineSurface Real) : nat :=
  length (getAllBasisfunctions spl).

(** [IntegrandBase]: what this file asks of the integrand. *)
Record IntegrandBase := mkIntegrand {
  getNoFields : nat;
  derivativeOrder : Z
}.

(** Free functions and solvers used by the patch: [GaussQuadrature::getCoord]
    and [getWeight] (a null pointer is [None]), [SplineUtils::extractBasis],
    [utl::Jacobian] (its determinant), [SparseMatrix::solve] and
    [DenseMatrix::solve]: [None] when they return false, otherwise the
    contents of the right-hand side after the call, which holds the solution
    in place. *)
Record Services (Real : Type) := mkServices {
  getCoord : Z -> option (list Real);
  getWeight : Z -> option (list Real);
  extractBasis : BasisDerivsSf Real -> list Real * Matrix Real;
  Jacobian : Matrix Real -> Matrix Real -> Real;
  sparseSolve : SparseMatrix Real -> list Real -> option (list Real);
  denseSolve : Matrix Real -> Matrix Real -> option (list Real)
}.
Arguments mkServices {Real} _ _ _ _ _ _.
Arguments getCoord {Real} _ _.
Arguments getWeight {Real} _ _.
Arguments extractBasis {Real} _ _.
Arguments Jacobian {Real} _ _ _.
Arguments sparseSolve {Real} _ _ _.
Arguments denseSolve {Real} _ _ _.

(** The patch [ASMu2D]: its members and the methods defined elsewhere in the
    class.  [getElementCoordinates iel] is [None] when the method returns
    false; [evalSolution sField integrand gpar] returns the success flag and
    the matrix it leaves in [sField]. *)
Record ASMu2D (Real : Type) := mkASMu2D {
  lrspline : option (LRSplineSurface Real);
  nGauss : Z;
  MNPC : list (list nat);
  getNoNodes : nat;
  getElementCoordinates : Z -> option (Matrix Real);
  getParametricArea : Z -> Real;
  getGaussPointParameters : Z -> Z -> Z -> list Real -> list Real;
  evalSolution : Matrix Real -> IntegrandBase -> list Real * list Real
                 -> bool * Matrix Real
}.
Arguments mkASMu2D {Real} _ _ _ _ _ _ _ _.
Arguments lrspline {Real} _.
Arguments nGauss {Real} _.
Arguments MNPC {Real} _.
Arguments getNoNodes {Real} _.
Arguments getElementCoordinates {Real} _ _.
Arguments getParametricArea {Real} _ _.
Arguments getGaussPointParameters {Real} _ _ _ _ _.
Arguments evalSolution {Real} _ _ _ _.

(** Result of a method that dereferences [lrspline] without a null check. *)
Inductive Outcome (A : Type) :=
  | NullDeref : Outcome A
  | Ret : A -> Outcome A.
Arguments NullDeref {A}.
Arguments Ret {A} _.
Arguments basisValues {Real} _.
Arguments basisDerivs_u {Real} _.
Arguments basisDerivs_v {Real} _.

(** [size_t n = z] for a signed [int] value [z]. *)
Definition size_t_of_int (z : Z) : nat := Z.to_nat (z mod 2 ^ 64).

(** ** The routines of ASMu2Drecovery.C *)

Section Recovery.
Context {Real : Type} `{RealOps Real}.
Variable svc : Services Real.
Variable patch : ASMu2D Real.

(** [A.solve(B)] on a dense system: [B] keeps its dimensions. *)
Definition solveDense (A B : Matrix Real) : option (Matrix Real) :=
  mkMatrix (rows B) (cols B) <$> denseSolve svc A B.

(** *** getGrevilleParameters *)

(** [prm.reserve] only sets the capacity; the array is rebuilt by
    [push_back] from the cleared state. *)
Definition getGrevilleParameters (prm : RealArray Real) (dir : Z)
  : bool * RealArray Real :=
  match lrspline patch with
  | None => (false, prm)
  | Some spl =>
      if (dir <? 0)%Z || (dir >? 1)%Z then (false, prm)
      else
        (true,
         foldl (fun prm b => prm ++ [at_ (getGrevilleParameter b) (Z.to_nat dir)])
               [] (getAllBasisfunctions spl))
  end.

(** *** regularInterpolation *)

(** [lrspline->computeBasis(upar[i],vpar[i],splineValues)] stored row by row
    in the matrix [A]. *)
Definition interpolationMatrix (spl : LRSplineSurface Real)
  (upar vpar : RealArray Real) : Matrix Real :=
  let nBasis := nBasisFunctions spl in
  forRange nBasis (fun i A =>
    let splineValues := computeBasis spl (at_ upar i) (at_ vpar i) (-1) in
    forRange nBasis (fun j A => mset A (i + 1) (j + 1) (at_ splineValues j)) A)
    (mat_new nBasis nBasis).

(** Modelled from the spec: [LRSplineSurface::copy], [rebuildDimension] and
    the [point] of the copy belong to the spline library and are not in this
    file of the program.  The terminal step "produces a new mesh object
    sharing basis/knot structure but carrying freshly computed control
    values", "cloned from the source's basis/topology, with control
    dimensionality reset to the number of field components"; a control value
    is "the scalar (per component) weight attached to a basis function
    defining the represented field".  [set_cp] is a basis function with its
    control values replaced: Greville parameters and supports are kept. *)
Definition set_cp (b : Basisfunction Real) (c : list Real) : Basisfunction Real :=
  mkBasisfunction (getGrevilleParameter b) (getExtendedSupport b)
                  (supportedElements b) c.

(** Modelled from the spec: the field represented by basis values [N] and
    control values [cps] (see [set_cp]): component j is the sum over the
    basis functions of their value times their control value number j. *)
Definition evalControl (dim : nat) (N : list Real) (cps : list (list Real))
  : list Real :=
  (fun j => dot N ((fun c => at_ c j) <$> cps)) <$> seq 0 dim.

(** Modelled from the spec: the copy of [spl] that carries the basis
    functions [bs] with [dim] control values each (see [set_cp]).  Orders,
    elements and basis evaluation are those of [spl]; [point] evaluates the
    new control values. *)
Definition set_basis (dim : nat) (spl : LRSplineSurface Real)
  (bs : list (Basisfunction Real)) : LRSplineSurface Real :=
  let cps := cp <$> bs in
  mkLRSplineSurface (order spl) (rational spl) bs (elements spl)
                    (computeBasis spl) (computeBasisDerivs spl)
                    (fun u v => evalControl dim (computeBasis spl u v (-1)) cps).

(** Modelled from the spec: [ans->rebuildDimension(dim)] on the copy (see
    [set_cp]): every basis function gets [dim] control values, all of which
    the caller overwrites. *)
Definition rebuildDimension (dim : nat) (spl : LRSplineSurface Real)
  : LRSplineSurface Real :=
  set_basis dim spl ((fun b => set_cp b (resize dim r0 (cp b)))
                       <$> getAllBasisfunctions spl).

(** The closing double loop: [b->cp()[j] = B(++i,j+1)]. *)
Definition setControlPoints (B : Matrix Real) (bs : list (Basisfunction Real))
  : list (Basisfunction Real) :=
  forRange (cols B) (fun j bs =>
    imap (fun i b => set_cp b (<[j := mget B (Datatypes.S i) (j + 1)]> (cp b))) bs)
    bs.

Definition regularInterpolation (upar vpar : RealArray Real)
  (points : Matrix Real) : Outcome (option (LRSplineSurface Real)) :=
  match lrspline patch with
  | None => NullDeref
  | Some spl =>
      Ret (
        if rational spl then None
        else
          let nBasis := nBasisFunctions spl in
          if negb (length upar =? nBasis) || negb (length vpar =? nBasis)
             || negb (cols points =? nBasis)
          then None
          else
            let A := interpolationMatrix spl upar vpar in
            let B := mat_transpose points in
            match solveDense A B with
            | None => None
            | Some B =>
                let ans := rebuildDimension (cols B) spl in
                Some (set_basis (cols B) ans
                        (setControlPoints B (getAllBasisfunctions ans)))
            end)
  end.

(** *** globalL2projection *)

(** [MNPC[iel-1][ii]] *)
Definition nodeOf (iel ii : nat) : nat :=
  default 0 (MNPC patch !! (iel - 1) ≫= (fun row => row !! ii)).

(** Basis function values (and, in continuous mode, their derivatives) at
    Gauss point (i,j) of element [iel].  Both branches overwrite [phi], so
    the [phi.resize] that precedes the integration loop leaves no trace. *)
Definition basisAt (spl : LRSplineSurface Real) (continuous : bool)
  (iel : nat) (gpar0 gpar1 : list Real) (j i : nat)
  : list Real * Matrix Real :=
  if continuous
  then extractBasis svc
         (computeBasisDerivs spl (at_ gpar0 i) (at_ gpar1 j) (Z.of_nat iel - 1))
  else (computeBasis spl (at_ gpar0 i) (at_ gpar1 j) (Z.of_nat iel - 1),
        mat_new 0 0).

(** The weight [dJw] of Gauss point (i,j). *)
Definition jacobianWeight (continuous : bool) (dA : Real) (wg : list Real)
  (Xnod dNdu : Matrix Real) (j i : nat) : Real :=
  if continuous
  then rmul (rmul (rmul dA (at_ wg i)) (at_ wg j)) (Jacobian svc dNdu Xnod)
  else r1.

(** Body of the integration loop at Gauss point (i,j) of element [iel];
    [ip] is the running point counter. *)
Definition integratePoint (spl : LRSplineSurface Real) (continuous : bool)
  (iel : nat) (dA : Real) (wg : list Real) (Xnod : Matrix Real)
  (nnod ncomp : nat) (gpar0 gpar1 : list Real) (sField : Matrix Real)
  (j i ip : nat) (AB : SparseMatrix Real * list Real)
  : SparseMatrix Real * list Real :=
  let '(phi, dNdu) := basisAt spl continuous iel gpar0 gpar1 j i in
  let dJw := jacobianWeight continuous dA wg Xnod dNdu j i in
  if continuous && req dJw r0 then AB   (* skip singular points *)
  else
    forRange (length phi) (fun ii '(A, B) =>
      let inod := nodeOf iel ii + 1 in
      let A := forRange (length phi) (fun jj A =>
                 let jnod := nodeOf iel jj + 1 in
                 sparse_add A inod jnod
                   (rmul (rmul (at_ phi ii) (at_ phi jj)) dJw)) A in
      let B := forRange ncomp (fun r B =>
                 let k := inod + r * nnod in
                 vset B k (radd (vget B k)
                   (rmul (rmul (at_ phi ii) (mget sField (r + 1) (ip + 1))) dJw)))
                 B in
      (A, B)) AB.

(** The two nested loops over the Gauss points of one element. *)
Definition integrateElement (spl : LRSplineSurface Real) (continuous : bool)
  (iel : nat) (dA : Real) (wg : list Real) (Xnod : Matrix Real)
  (nnod ncomp : nat) (ng1 ng2 : Z) (gpar0 gpar1 : list Real)
  (sField : Matrix Real) (AB : SparseMatrix Real * list Real)
  : SparseMatrix Real * list Real :=
  fst (forRange (Z.to_nat ng2) (fun j st =>
         forRange (Z.to_nat ng1) (fun i '(AB, ip) =>
           (integratePoint spl continuous iel dA wg Xnod nnod ncomp
                           gpar0 gpar1 sField j i ip AB,
            Datatypes.S ip)) st)
       (AB, 0)).

(** Continuous mode only: nodal coordinates and the scaled parametric area of
    element [iel]; [None] is either [return false]. *)
Definition elementGeometry (continuous : bool) (iel : nat)
  : option (Matrix Real * Real) :=
  if continuous then
    match getElementCoordinates patch (Z.of_nat iel) with
    | None => None
    | Some Xnod =>
        let dA := rmul r025 (getParametricArea patch (Z.of_nat iel)) in
        if rlt dA r0 then None   (* topology error *)
        else Some (Xnod, dA)
    end
  else Some (mat_new 0 0, r0).

(** The quadrature points of element [iel] as an unstructured point list. *)
Definition elementPoints (ng1 ng2 : Z) (iel : Z) (xg yg : list Real)
  : list Real * list Real * (list Real * list Real) :=
  let gpar0 := getGaussPointParameters patch 0 ng1 iel xg in
  let gpar1 := getGaussPointParameters patch 1 ng2 iel yg in
  (gpar0, gpar1, expandTensorGrid gpar0 gpar1 [] []).

(** One pass of the assembly loop.  The state is the system (A,B) and the
    sample matrix; [inl sField] is [return false] with the sample matrix as
    it stands at that moment. *)
Definition assembleElement (spl : LRSplineSurface Real)
  (integrand : IntegrandBase) (continuous : bool)
  (ng1 ng2 : Z) (xg yg wg : list Real) (nnod ncomp : nat)
  (ie : nat * Element)
  (st : SparseMatrix Real * list Real * Matrix Real)
  : Matrix Real + SparseMatrix Real * list Real * Matrix Real :=
  let '(iel, _) := ie in
  let '(AB, sField) := st in
  match elementGeometry continuous iel with
  | None => inl sField
  | Some (Xnod, dA) =>
      let '(gpar0, gpar1, unstrGpar) :=
        elementPoints ng1 ng2 (Z.of_nat iel) xg yg in
      match evalSolution patch sField integrand unstrGpar with
      | (false, sField') => inl sField'
      | (true, sField') =>
          inr (integrateElement spl continuous iel dA wg Xnod nnod ncomp
                                ng1 ng2 gpar0 gpar1 sField' AB,
               sField')
      end
  end.

(** The elements paired with the counter [iel = 1, 2, ...]. *)
Definition numbered (els : list Element) : list (nat * Element) :=
  zip (seq 1 (length els)) els.

(** [sField.resize(ncomp,nnod)] and the copy of the solution into it. *)
Definition storeControlValues (ncomp nnod : nat) (B : list Real)
  (sField : Matrix Real) : Matrix Real :=
  forRange nnod (fun i M =>
    forRange ncomp (fun j M =>
      mset M (j + 1) (i + 1) (vget B ((i + 1) + j * nnod))) M)
    (mat_resize ncomp nnod sField).

(** The assembly loop over all elements of the patch, started from the empty
    system. *)
Definition assembleSystem (spl : LRSplineSurface Real)
  (integrand : IntegrandBase) (continuous : bool)
  (ng1 ng2 : Z) (xg yg wg : list Real) (sField : Matrix Real)
  : Matrix Real + SparseMatrix Real * list Real * Matrix Real :=
  let nnod := getNoNodes patch in
  let ncomp := getNoFields integrand in
  let A := sparse_new nnod nnod in
  let B := replicate (nnod * ncomp) r0 in
  forEachM (assembleElement spl integrand continuous ng1 ng2 xg yg wg nnod ncomp)
           (numbered (elements spl)) (A, B, sField).

Definition globalL2projection (sField : Matrix Real)
  (integrand : IntegrandBase) (continuous : bool) : bool * Matrix Real :=
  match lrspline patch with
  | None => (true, sField)   (* silently ignore empty patches *)
  | Some spl =>
      let p1 := order spl 0 in
      let p2 := order spl 1 in
      let ng1 := if continuous then nGauss patch else (p1 - 1)%Z in
      let ng2 := if continuous then nGauss patch else (p2 - 1)%Z in
      let xg := getCoord svc ng1 in
      let yg := getCoord svc ng2 in
      let wg := if continuous then getWeight svc (nGauss patch) else None in
      match xg, yg with
      | Some xg, Some yg =>
          if continuous && negb (bool_decide (is_Some wg)) then (false, sField)
          else
            match assembleSystem spl integrand continuous ng1 ng2
                                 xg yg (default [] wg) sField with
            | inl sField' => (false, sField')
            | inr (A, B, sField') =>
                match sparseSolve svc A B with
                | None => (false, sField')
                | Some B =>
                    (true, storeControlValues (getNoFields integrand)
                             (getNoNodes patch) B sField')
                end
            end
      | _, _ => (false, sField)
      end
  end.

(** *** evalMonomials *)

(** Monomials in 2D up to the specified order; [P] is resized to [p1*p2] and
    filled with 1.0 before the loops. *)
Definition evalMonomials (p1 p2 : Z) (x y : Real) : list Real :=
  let P := replicate (size_t_of_int (p1 * p2)) r1 in
  fst (forRange (Z.to_nat p2) (fun j st =>
         forRange (Z.to_nat p1) (fun i '(P, ip) =>
           let P := forRange i (fun _ P => vset P ip (rmul (vget P ip) x)) P in
           let P := forRange j (fun _ P => vset P ip (rmul (vget P ip) y)) P in
           (P, Datatypes.S ip)) st)
       (P, 1)).

(** *** scRecovery *)

(** Patch size in parameter direction [dir] and the number of terms of the
    polynomial expansion. *)
Definition patchSize (spl : LRSplineSurface Real) (integrand : IntegrandBase)
  (dir : Z) : Z :=
  (order spl dir - derivativeOrder integrand + 1)%Z.

Definition nPolOf (spl : LRSplineSurface Real) (integrand : IntegrandBase) : nat :=
  size_t_of_int (patchSize spl integrand 0 * patchSize spl integrand 1).

(** The element range [elStart .. elEnd] chosen for basis function [b]. *)
Definition patchElements (b : Basisfunction Real) : list Element :=
  if true   (* if(nel*ng1*ng2 < nPol) *)
  then getExtendedSupport b
  else supportedElements b.

(** Physical coordinates of the Greville point number [ip] (0-based). *)
Definition grevillePoint (spl : LRSplineSurface Real)
  (gpar0 gpar1 : list Real) (ip : nat) : list Real :=
  point spl (at_ gpar0 ip) (at_ gpar1 ip).

(** The polynomial expansion at Gauss point (i,j), relative to [G]. *)
Definition expansionAt (spl : LRSplineSurface Real) (n1 n2 : Z) (G : list Real)
  (gaussPt0 gaussPt1 : list Real) (i j : nat) : list Real :=
  let X := point spl (at_ gaussPt0 i) (at_ gaussPt1 j) in
  evalMonomials n1 n2 (rsub (at_ X 0) (at_ G 0)) (rsub (at_ X 1) (at_ G 1)).

(** [A += P^t * P] and [B += P^t * sigma] for sample column [ig]. *)
Definition accumulate (nPol nCmp : nat) (P : list Real) (sField : Matrix Real)
  (ig : nat) (AB : Matrix Real * Matrix Real) : Matrix Real * Matrix Real :=
  forRange nPol (fun k0 '(A, B) =>
    let k := k0 + 1 in
    let A := forRange nPol (fun l0 A =>
               let l := l0 + 1 in
               mset A k l (radd (mget A k l) (rmul (vget P k) (vget P l)))) A in
    let B := forRange nCmp (fun l0 B =>
               let l := l0 + 1 in
               mset B k l (radd (mget B k l) (rmul (vget P k) (mget sField l ig))))
               B in
    (A, B)) AB.

(** One supporting element of the local fit; [inl tt] is [return nullptr]. *)
Definition fitElement (spl : LRSplineSurface Real) (integrand : IntegrandBase)
  (ng1 ng2 : Z) (xg yg : list Real) (n1 n2 : Z) (nPol nCmp : nat)
  (G : list Real) (el : Element) (AB : Matrix Real * Matrix Real)
  : unit + Matrix Real * Matrix Real :=
  let iel := (getId el + 1)%Z in
  let '(gaussPt0, gaussPt1, unstrGauss) := elementPoints ng1 ng2 iel xg yg in
  match evalSolution patch (mkMatrix 0 0 []) integrand unstrGauss with
  | (false, _) => inl tt
  | (true, sField) =>
      inr (fst (forRange (Z.to_nat ng2) (fun j st =>
                  forRange (Z.to_nat ng1) (fun i '(AB, ig) =>
                    (accumulate nPol nCmp
                       (expansionAt spl n1 n2 G gaussPt0 gaussPt1 i j)
                       sField ig AB,
                     Datatypes.S ig)) st)
                (AB, 1)))
  end.

(** The local system of basis function [b], assembled over [patchElements b]
    around the Greville point [G]. *)
Definition localSystem (spl : LRSplineSurface Real) (integrand : IntegrandBase)
  (ng1 ng2 : Z) (xg yg : list Real) (G : list Real) (b : Basisfunction Real)
  : unit + Matrix Real * Matrix Real :=
  let n1 := patchSize spl integrand 0 in
  let n2 := patchSize spl integrand 1 in
  let nCmp := getNoFields integrand in
  let nPol := nPolOf spl integrand in
  forEachM (fitElement spl integrand ng1 ng2 xg yg n1 n2 nPol nCmp G)
           (patchElements b) (mat_new nPol nPol, mat_new nPol nCmp).

(** Solution of the local system of [b]: [None] is [return nullptr]. *)
Definition localSolution (spl : LRSplineSurface Real) (integrand : IntegrandBase)
  (ng1 ng2 : Z) (xg yg : list Real) (G : list Real) (b : Basisfunction Real)
  : option (Matrix Real) :=
  match localSystem spl integrand ng1 ng2 xg yg G b with
  | inl _ => None
  | inr (A, B) => solveDense A B
  end.

(** Body of the loop over all Greville points: the state is the counter [ip]
    and the matrix [sValues]. *)
Definition recoverAt (spl : LRSplineSurface Real) (integrand : IntegrandBase)
  (ng1 ng2 : Z) (xg yg : list Real) (gpar0 gpar1 : list Real)
  (b : Basisfunction Real) (st : nat * Matrix Real)
  : unit + nat * Matrix Real :=
  let '(ip, sValues) := st in
  let G := grevillePoint spl gpar0 gpar1 ip in
  match localSolution spl integrand ng1 ng2 xg yg G b with
  | None => inl tt
  | Some B =>
      let ip := Datatypes.S ip in
      inr (ip,
           forRange (getNoFields integrand) (fun l0 sValues =>
             let l := l0 + 1 in mset sValues l ip (mget B 1 l)) sValues)
  end.

(** The values recovered at all Greville points. *)
Definition recoverAll (spl : LRSplineSurface Real) (integrand : IntegrandBase)
  (ng1 ng2 : Z) (xg yg : list Real) (gpar0 gpar1 : list Real)
  : unit + nat * Matrix Real :=
  forEachM (recoverAt spl integrand ng1 ng2 xg yg gpar0 gpar1)
           (getAllBasisfunctions spl)
           (0, mat_new (getNoFields integrand) (length gpar0)).

Definition scRecovery (integrand : IntegrandBase)
  : Outcome (option (LRSplineSurface Real)) :=
  let m := derivativeOrder integrand in
  match lrspline patch with
  | None => NullDeref   (* lrspline->order(0) *)
  | Some spl =>
      let p1 := order spl 0 in
      let p2 := order spl 1 in
      let ng1 := (p1 - m)%Z in
      let ng2 := (p2 - m)%Z in
      match getCoord svc ng1, getCoord svc ng2 with
      | Some xg, Some yg =>
          match getGrevilleParameters [] 0 with
          | (false, _) => Ret None
          | (true, gpar0) =>
              match getGrevilleParameters [] 1 with
              | (false, _) => Ret None
              | (true, gpar1) =>
                  match recoverAll spl integrand ng1 ng2 xg yg gpar0 gpar1 with
                  | inl _ => Ret None
                  | inr (_, sValues) =>
                      regularInterpolation gpar0 gpar1 sValues
                  end
              end
          end
      | _, _ => Ret None
      end
  end.

(** *** projectSolution *)

Definition projectSolution (integrand : IntegrandBase)
  : Outcome (option (LRSplineSurface Real)) :=
  match getGrevilleParameters [] 0 with
  | (false, _) => Ret None
  | (true, gpar0) =>
      match getGrevilleParameters [] 1 with
      | (false, _) => Ret None
      | (true, gpar1) =>
          match evalSolution patch (mkMatrix 0 0 []) integrand (gpar0, gpar1) with
          | (false, _) => Ret None
          | (true, sValues) => regularInterpolation gpar0 gpar1 sValues
          end
      end
  end.

(** *** evalSolution (the overload that returns a spline) *)

(** [LR::LRSpline* ASMu2D::evalSolution(const IntegrandBase&)]; the name
    [evalSolution] is taken by the overload that fills a matrix. *)
Definition evalSolutionSpline (integrand : IntegrandBase)
  : Outcome (option (LRSplineSurface Real)) :=
  projectSolution integrand.

End Recovery.

(** ** A concrete patch: biquadratic B-splines on 2 x 2 elements *)

Module Biquadratic.
Local Open Scope Q_scope.

(** A direct solver by Gauss-Jordan elimination on the rows of the augmented
    matrix, [None] when a column has no pivot. *)
Fixpoint findPivot (c : nat) (todo : list (list Q))
  : option (list Q * list (list Q)) :=
  match todo with
  | [] => None
  | row :: rest =>
      if Qeq_bool (nth c row 0) 0
      then match findPivot c rest with
           | None => None
           | Some (p, rest') => Some (p, row :: rest')
           end
      else Some (row, rest)
  end.

Definition eliminate (c : nat) (prow row : list Q) : list Q :=
  let f := nth c row 0 in
  zip_with (fun a b => Qred (a - f * b)) row prow.

Fixpoint gaussJordan (columns : list nat) (done todo : list (list Q))
  : option (list (list Q)) :=
  match columns with
  | [] => Some done
  | c :: cs =>
      match findPivot c todo with
      | None => None
      | Some (prow, rest) =>
          let p := nth c prow 0 in
          let prow := (fun x => Qred (x / p)) <$> prow in
          gaussJordan cs ((eliminate c prow <$> done) ++ [prow])
                         (eliminate c prow <$> rest)
      end
  end.

Definition denseGJ (A B : Matrix Q) : option (list Q) :=
  let n := rows A in
  let aug := (fun r => mat_row A r ++ mat_row B r) <$> seq 1 n in
  match gaussJordan (seq 0 n) [] aug with
  | None => None
  | Some sol =>
      Some (c ← seq 0 (cols B); r ← seq 0 n;
            [nth (n + c) (nth r sol []) 0])
  end.

Definition sparseGJ (A : SparseMatrix Q) (B : list Q) : option (list Q) :=
  let n := srows A in
  let ncomp := (length B / n)%nat in
  let aug := (fun i =>
                ((fun j => default 0 (selem A !! (i, j))) <$> seq 1 n)
                ++ ((fun r => vget B (i + r * n)) <$> seq 0 ncomp)) <$> seq 1 n in
  match gaussJordan (seq 0 n) [] aug with
  | None => None
  | Some sol =>
      Some (r ← seq 0 ncomp; i ← seq 0 n; [nth (n + r) (nth i sol []) 0])
  end.

(** A solver that reports failure on every system. *)
Definition noSolve {A B C : Type} (_ : A) (_ : B) : option C := None.

(** A rational stand-in for the quadrature table: orders 1 and 2 only. *)
Definition coordTable (n : Z) : option (list Q) :=
  if (n =? 1)%Z then Some [0]
  else if (n =? 2)%Z then Some [-(1 # 2); 1 # 2]
  else None.
Definition weightTable (n : Z) : option (list Q) :=
  if (n =? 1)%Z then Some [2]
  else if (n =? 2)%Z then Some [1; 1]
  else None.

Definition extractBasisQ (s : BasisDerivsSf Q) : list Q * Matrix Q :=
  (basisValues s,
   mkMatrix (length (basisValues s)) 2 (basisDerivs_u s ++ basisDerivs_v s)).

(** Determinant of the 2x2 Jacobian [Xnod * dNdu]. *)
Definition jacobianQ (dNdu Xnod : Matrix Q) : Q :=
  let J a b := dot (mat_row Xnod a) (mat_col dNdu b) in
  J 1%nat 1%nat * J 2%nat 2%nat - J 1%nat 2%nat * J 2%nat 1%nat.

Definition services (sparse : SparseMatrix Q -> list Q -> option (list Q))
  (dense : Matrix Q -> Matrix Q -> option (list Q)) : Services Q :=
  mkServices coordTable weightTable extractBasisQ jacobianQ sparse dense.

(** The four quadratic B-splines on the knot vector 0,0,0,1/2,1,1,1 and
    their derivatives. *)
Definition N1d (u : Q) : list Q :=
  if Qle_bool u (1 # 2)
  then let t := 2 * u in
       [(1 - t) * (1 - t); 2 * t - (3 # 2) * t * t; (1 # 2) * t * t; 0]
  else let s := 1 - (2 * u - 1) in
       [0; (1 # 2) * s * s; 2 * s - (3 # 2) * s * s; (1 - s) * (1 - s)].

Definition dN1d (u : Q) : list Q :=
  if Qle_bool u (1 # 2)
  then let t := 2 * u in [-4 * (1 - t); 4 - 6 * t; 2 * t; 0]
  else let s := 2 * u - 1 in [0; -2 * (1 - s); 2 - 6 * s; 4 * s].

Definition greville1d : list Q := [0; 1 # 4; 3 # 4; 1].

(** Tensor products, the first direction running fastest. *)
Definition tensor (a b : list Q) : list Q :=
  y ← b; x ← a; [x * y].

(** Element [e] = ey*2 + ex carries the functions (ex+a, ey+b), a,b = 0..2. *)
Definition localToGlobal (e : nat) : list nat :=
  b ← seq 0 3%nat; a ← seq 0 3%nat;
  [((e / 2 + b) * 4 + (e mod 2 + a))%nat].

Definition restrict (iel : Z) (dense : list Q) : list Q :=
  if (iel <? 0)%Z then dense
  else (fun g => nth g dense 0) <$> localToGlobal (Z.to_nat iel).

Definition basisQ (u v : Q) (iel : Z) : list Q :=
  restrict iel (tensor (N1d u) (N1d v)).

Definition basisDerivsQ (u v : Q) (iel : Z) : BasisDerivsSf Q :=
  mkBasisDerivsSf (basisQ u v iel)
    (restrict iel (tensor (dN1d u) (N1d v)))
    (restrict iel (tensor (N1d u) (dN1d v))).

Definition allElements : list Element := (fun e => mkElement e 9) <$> [0; 1; 2; 3]%Z.

(** The elements on which the 1-D function number [a] does not vanish. *)
Definition support1d (a : nat) : list nat :=
  match a with
  | 0%nat => [0%nat]
  | 3%nat => [1%nat]
  | _ => [0%nat; 1%nat]
  end.

Definition directSupport (a b : nat) : list Element :=
  ey ← support1d b; ex ← support1d a;
  [mkElement (Z.of_nat (ey * 2 + ex)) 9].

(** The mesh.  Every function overlaps one whose support is the whole patch,
    so the extended support is the list of all elements. *)
Definition mesh : LRSplineSurface Q :=
  mkLRSplineSurface (fun _ => 3%Z) false
    (b ← seq 0 4%nat; a ← seq 0 4%nat;
     [mkBasisfunction [nth a greville1d 0; nth b greville1d 0]
                      allElements (directSupport a b) []])
    allElements basisQ basisDerivsQ (fun u v => [u; v]).

(** The field evaluator samples [f] at the given points, one component. *)
Definition sample (f : Q -> Q -> Q) (_ : Matrix Q) (_ : IntegrandBase)
  (gpar : list Q * list Q) : bool * Matrix Q :=
  (true, mkMatrix 1 (length gpar.1)
           (zip_with (fun u v => Qred (f u v)) gpar.1 gpar.2)).

(** Nodal coordinates of element [iel]: the Greville points of its functions. *)
Definition coordinates (iel : Z) : option (Matrix Q) :=
  Some (mkMatrix 2 9
    (g ← localToGlobal (Z.to_nat (iel - 1));
     [nth (g mod 4) greville1d 0; nth (g / 4) greville1d 0])).

Definition gaussParameters (dir ng iel : Z) (xg : list Q) : list Q :=
  let e := Z.to_nat (iel - 1) in
  let lo := inject_Z (Z.of_nat (if (dir =? 0)%Z then e mod 2 else e / 2)%nat) / 2 in
  (fun xi => lo + (1 + xi) / 4) <$> xg.

Definition patchOf (spl : option (LRSplineSurface Q)) (area : Z -> Q)
  (f : Q -> Q -> Q) : ASMu2D Q :=
  mkASMu2D spl 2 (localToGlobal <$> [0; 1; 2; 3]%nat) 16
    coordinates area gaussParameters (sample f).

Definition integrand1 : IntegrandBase := mkIntegrand 1 1.

End Biquadratic.

(** ** A second patch: quadratic by linear B-splines on 2 x 2 elements *)

Module QuadraticLinear.
Local Open Scope Q_scope.

(** The three linear B-splines on the knot vector 0,0,1/2,1,1 and their
    derivatives. *)
Definition L1d (v : Q) : list Q :=
  if Qle_bool v (1 # 2)
  then let t := 2 * v in [1 - t; t; 0]
  else let s := 2 * v - 1 in [0; 1 - s; s].

Definition dL1d (v : Q) : list Q :=
  if Qle_bool v (1 # 2) then [-2; 2; 0] else [0; -2; 2].

Definition grevilleLinear : list Q := [0; 1 # 2; 1].

(** Element [e] = ey*2 + ex carries the functions (ex+a, ey+b), a = 0..2,
    b = 0..1. *)
Definition localToGlobal (e : nat) : list nat :=
  b ← seq 0 2%nat; a ← seq 0 3%nat;
  [((e / 2 + b) * 4 + (e mod 2 + a))%nat].

Definition restrict (iel : Z) (dense : list Q) : list Q :=
  if (iel <? 0)%Z then dense
  else (fun g => nth g dense 0) <$> localToGlobal (Z.to_nat iel).

Definition basisQ (u v : Q) (iel : Z) : list Q :=
  restrict iel (Biquadratic.tensor (Biquadratic.N1d u) (L1d v)).

Definition basisDerivsQ (u v : Q) (iel : Z) : BasisDerivsSf Q :=
  mkBasisDerivsSf (basisQ u v iel)
    (restrict iel (Biquadratic.tensor (Biquadratic.dN1d u) (L1d v)))
    (restrict iel (Biquadratic.tensor (Biquadratic.N1d u) (dL1d v))).

Definition allElements : list Element :=
  (fun e => mkElement e 6) <$> [0; 1; 2; 3]%Z.

Definition supportLinear (b : nat) : list nat :=
  match b with
  | 0%nat => [0%nat]
  | 2%nat => [1%nat]
  | _ => [0%nat; 1%nat]
  end.

Definition directSupport (a b : nat) : list Element :=
  ey ← supportLinear b; ex ← Biquadratic.support1d a;
  [mkElement (Z.of_nat (ey * 2 + ex)) 6].

(** The mesh: order 3 in the first direction, order 2 in the second.  Every
    function overlaps one whose support is the whole patch, so the extended
    support is the list of all elements. *)
Definition mesh : LRSplineSurface Q :=
  mkLRSplineSurface (fun d => if (d =? 0)%Z then 3%Z else 2%Z) false
    (b ← seq 0 3%nat; a ← seq 0 4%nat;
     [mkBasisfunction [nth a Biquadratic.greville1d 0; nth b grevilleLinear 0]
                      allElements (directSupport a b) []])
    allElements basisQ basisDerivsQ (fun u v => [u; v]).

Definition coordinates (iel : Z) : option (Matrix Q) :=
  Some (mkMatrix 2 6
    (g ← localToGlobal (Z.to_nat (iel - 1));
     [nth (g mod 4) Biquadratic.greville1d 0; nth (g / 4) grevilleLinear 0])).

Definition patchOf (f : Q -> Q -> Q) : ASMu2D Q :=
  mkASMu2D (Some mesh) 2 (localToGlobal <$> [0; 1; 2; 3]%nat) 12
    coordinates (fun _ => 1 # 4) Biquadratic.gaussParameters
    (Biquadratic.sample f).

End QuadraticLinear.

(** ** Predicates and functions used in the statements *)

Section Statements.
Context {Real : Type} `{RealOps Real}.

(** Well-formed storage: as many elements as the dimensions say. *)
Definition mat_wf (M : Matrix Real) : Prop :=
  length (elem M) = rows M * cols M.

(** Invariant of the loops of [expandTensorGrid] after [q] writes. *)
Definition expand_inv (in0 in1 : RealArray Real) (q : nat)
  (st : RealArray Real * RealArray Real * nat) : Prop :=
  let '(o0, o1, ip) := st in
  ip = q /\
  length o0 = length in0 * length in1 /\
  length o1 = length in0 * length in1 /\
  forall i k, k < length in0 -> i * length in0 + k < q ->
    o0 !! (i * length in0 + k) = Some (at_ in0 k) /\
    o1 !! (i * length in0 + k) = Some (at_ in1 i).

(** The sample matrix after the field evaluator has been run, in turn, on
    the quadrature points of the elements [visited]. *)
Definition samplesAfter (patch : ASMu2D Real) (integrand : IntegrandBase)
  (ng1 ng2 : Z) (xg yg : list Real) (visited : list (nat * Element))
  (sField : Matrix Real) : Matrix Real :=
  foldl (fun sF ie =>
           (evalSolution patch sF integrand
              (elementPoints patch ng1 ng2 (Z.of_nat ie.1) xg yg).2).2)
        sField visited.

(** Every element of [l] passes the geometry check and the field evaluation,
    the evaluator being run on the sample matrix as the elements before it
    left it. *)
Fixpoint allPass (patch : ASMu2D Real) (integrand : IntegrandBase)
  (continuous : bool) (ng1 ng2 : Z) (xg yg : list Real)
  (l : list (nat * Element)) (sField : Matrix Real) : bool :=
  match l with
  | [] => true
  | ie :: l' =>
      let r := evalSolution patch sField integrand
                 (elementPoints patch ng1 ng2 (Z.of_nat ie.1) xg yg).2 in
      match elementGeometry patch continuous ie.1 with
      | None => false
      | Some _ => r.1 && allPass patch integrand continuous ng1 ng2 xg yg l' r.2
      end
  end.

(** Modelled from the spec: the evaluation of the field carried by a mesh,
    which belongs to the spline library and is not in this file of the
    program.  A control value is the per-component weight attached to a basis
    function defining the represented field (glossary), so component [j] of
    the field at (u,v) is the sum over the basis functions of their value at
    (u,v) times their control value number [j]. *)
Definition evalField (spl : LRSplineSurface Real) (u v : Real) (j : nat) : Real :=
  dot (computeBasis spl u v (-1))
      ((fun b => at_ (cp b) j) <$> getAllBasisfunctions spl).

(** The samples that enter the local fit around the point [G] over the
    elements [els]: for every element, in order, and every Gauss point
    q = j*ng1 + i of it, the expansion evaluated at the physical location of
    that point relative to [G], the sample matrix that the field evaluator
    returns for the element, and the number q+1 of the column read. *)
Definition fitSamples (patch : ASMu2D Real) (spl : LRSplineSurface Real)
  (integrand : IntegrandBase) (ng1 ng2 : Z) (xg yg : list Real) (n1 n2 : Z)
  (G : list Real) (els : list Element)
  : list (list Real * Matrix Real * nat) :=
  el ← els;
  let gaussPt0 := getGaussPointParameters patch 0 ng1 (getId el + 1) xg in
  let gaussPt1 := getGaussPointParameters patch 1 ng2 (getId el + 1) yg in
  let sF := (evalSolution patch (mkMatrix 0 0 []) integrand
               (expandTensorGrid gaussPt0 gaussPt1 [] [])).2 in
  (fun q =>
     let X := point spl (at_ gaussPt0 (q mod Z.to_nat ng1))
                        (at_ gaussPt1 (q / Z.to_nat ng1)) in
     (evalMonomials n1 n2 (rsub (at_ X 0) (at_ G 0))
                          (rsub (at_ X 1) (at_ G 1)), sF, q + 1))
  <$> seq 0 (Z.to_nat ng2 * Z.to_nat ng1).

(** The monomial x^i * y^j as [evalMonomials] multiplies it out: starting
    from 1.0, i times by x and then j times by y. *)
Definition monomial (x y : Real) (i j : nat) : Real :=
  Nat.iter j (fun p => rmul p y) (Nat.iter i (fun p => rmul p x) r1).

(** State of the loops of [evalMonomials] after [q] cells. *)
Definition monomials_inv (x y : Real) (p1 len q : nat)
  (st : list Real * nat) : Prop :=
  let '(P, ip) := st in
  ip = q + 1 /\ length P = len /\
  (forall j i, i < p1 -> j * p1 + i < q ->
     P !! (j * p1 + i) = Some (monomial x y i j)) /\
  (forall c, q <= c -> c < len -> P !! c = Some r1).




Definition withEvaluator
  (ev : Matrix Real -> IntegrandBase -> list Real * list Real
        -> bool * Matrix Real)
  (patch : ASMu2D Real) : ASMu2D Real :=
  mkASMu2D (lrspline patch) (nGauss patch) (MNPC patch) (getNoNodes patch)
    (getElementCoordinates patch) (getParametricArea patch)
    (getGaussPointParameters patch) ev.

(** The result is a mesh. *)
Definition succeeded {A : Type} (o : Outcome (option A)) : bool :=
  match o with
  | Ret (Some _) => true
  | _ => false
  end.


(** The patch with other geometry data and another [nGauss]; the services
    with another weight table, basis extraction and Jacobian. *)
Definition withGeometry (nG : Z) (coords : Z -> option (Matrix Real))
  (area : Z -> Real) (patch : ASMu2D Real) : ASMu2D Real :=
  mkASMu2D (lrspline patch) nG (MNPC patch) (getNoNodes patch)
    coords area (getGaussPointParameters patch) (evalSolution patch).

Definition withContinuousServices (weights : Z -> option (list Real))
  (extract : BasisDerivsSf Real -> list Real * Matrix Real)
  (jac : Matrix Real -> Matrix Real -> Real) (svc : Services Real)
  : Services Real :=
  mkServices (getCoord svc) weights extract jac
             (sparseSolve svc) (denseSolve svc).

(** Entry (r,c) couples two nodes of one of the first [nel] elements: the
    connectivity row of that element holds both r-1 and c-1. *)
Definition coupled (patch : ASMu2D Real) (nel r c : nat) : Prop :=
  exists iel row,
    1 <= iel <= nel /\ MNPC patch !! (iel - 1) = Some row /\
    1 <= r /\ 1 <= c /\ r - 1 ∈ row /\ c - 1 ∈ row.

(** The global system keeps its dimensions, and its matrix has entries only
    where two nodes of a common element meet. *)
Definition system_inv (patch : ASMu2D Real) (nel nnod ncomp : nat)
  (AB : SparseMatrix Real * list Real) : Prop :=
  srows AB.1 = nnod /\ scols AB.1 = nnod /\
  length AB.2 = nnod * ncomp /\
  forall r c, is_Some (selem AB.1 !! (r, c)) -> coupled patch nel r c.

(** [X] satisfies the equations A*X = B within the relation [tol], entry by
    entry. *)
Definition solves_within (tol : Real -> Real -> Prop) (A B X : Matrix Real)
  : Prop :=
  forall k j, k < rows A -> j < cols B ->
    tol (dot (mat_row A (k + 1)) (mat_col X (j + 1))) (mget B (k + 1) (j + 1)).

(** The Greville parameters of all basis functions in direction [d]. *)
Definition grevilleArray (spl : LRSplineSurface Real) (d : nat) : list Real :=
  (fun b => at_ (getGrevilleParameter b) d) <$> getAllBasisfunctions spl.

(** [A(r,c)] read from a sparse matrix: 0.0 where nothing is stored. *)
Definition sparse_get (A : SparseMatrix Real) (r c : nat) : Real :=
  default r0 (selem A !! (r, c)).

Definition sparse_symmetric (A : SparseMatrix Real) : Prop :=
  forall r c, sparse_get A r c = sparse_get A c r.

(** The local system keeps its dimensions and a symmetric matrix. *)
Definition local_inv (nPol nCmp : nat) (AB : Matrix Real * Matrix Real) : Prop :=
  mat_wf AB.1 /\ rows AB.1 = nPol /\ cols AB.1 = nPol /\
  mat_wf AB.2 /\ rows AB.2 = nPol /\ cols AB.2 = nCmp /\
  forall k l, 1 <= k <= nPol -> 1 <= l <= nPol ->
    mget AB.1 k l = mget AB.1 l k.

End Statements.

(** * Proofs *)

(** ** Counted loops *)

Lemma forRange_S {S : Type} n (body : nat -> S -> S) s :
  forRange (Datatypes.S n) body s = body n (forRange n body s).
Proof.
  unfold forRange. rewrite seq_S, foldl_app. reflexivity.
Qed.

(** Loop-invariant rule for [forRange]. *)
Lemma forRange_inv {S : Type} (P : nat -> S -> Prop) n (body : nat -> S -> S) s :
  P 0 s ->
  (forall i s, i < n -> P i s -> P (Datatypes.S i) (body i s)) ->
  P n (forRange n body s).
Proof.
  intros H0 Hstep. induction n as [|n IH].
  - exact H0.
  - rewrite forRange_S. apply Hstep; [lia|]. apply IH.
    intros i s' Hi. apply Hstep. lia.
Qed.

(** A loop over a pair whose components are updated independently. *)
Lemma forRange_pair {S T : Type} (n : nat) (f : nat -> S -> S)
  (g : nat -> T -> T) (a : S) (b : T) :
  forRange n (fun i '(a, b) => (f i a, g i b)) (a, b)
  = (forRange n f a, forRange n g b).
Proof.
  induction n as [|n IH]; [done|]. by rewrite !forRange_S, IH.
Qed.

Lemma foldl_ext_in {A B : Type} (f g : A -> B -> A) (l : list B) (a : A) :
  (forall x a, x ∈ l -> f a x = g a x) -> foldl f a l = foldl g a l.
Proof.
  revert a. induction l as [|x l IH]; intros a Hext; simpl; [done|].
  rewrite Hext by apply list_elem_of_here.
  apply IH. intros y a' Hy. apply Hext. by apply list_elem_of_further.
Qed.

(** A counted loop that carries a running counter next to its state. *)
Lemma counted_loop {S : Type} (n : nat) (f : nat -> nat -> S -> S) (a : S) k :
  forRange n (fun i '(a, ip) => (f i ip a, Datatypes.S ip)) (a, k)
  = (foldl (fun a i => f i (k + i) a) a (seq 0 n), k + n).
Proof.
  induction n as [|n IH].
  - unfold forRange. simpl. f_equal. lia.
  - rewrite forRange_S, IH, seq_S, foldl_app. simpl. f_equal. lia.
Qed.

(** Two nested counted loops with one running counter visit the pairs (i,j)
    in the order q = j*n1 + i, the counter being k0 + q. *)
Lemma nested_counter {S : Type} (n1 n2 : nat)
  (f : nat -> nat -> nat -> S -> S) (a0 : S) (k0 : nat) :
  forRange n2 (fun j st =>
    forRange n1 (fun i '(a, ip) => (f j i ip a, Datatypes.S ip)) st) (a0, k0)
  = (foldl (fun a q => f (q / n1) (q mod n1) (k0 + q) a) a0 (seq 0 (n2 * n1)),
     k0 + n2 * n1).
Proof.
  induction n2 as [|n2 IH].
  - unfold forRange. simpl. f_equal. lia.
  - rewrite forRange_S, IH.
    rewrite (counted_loop n1 (f n2)).
    replace (Datatypes.S n2 * n1) with (n2 * n1 + n1) by lia.
    rewrite seq_app, foldl_app. f_equal; [|lia].
    replace (seq (0 + n2 * n1) n1) with (Nat.add (n2 * n1) <$> seq 0 n1)
      by (rewrite fmap_add_seq; f_equal; lia).
    rewrite foldl_fmap.
    apply foldl_ext_in. intros i a Hi.
    apply elem_of_seq in Hi.
    assert (n1 <> 0) by lia.
    replace ((n2 * n1 + i) / n1) with n2
      by (rewrite Nat.div_add_l, Nat.div_small by lia; lia).
    replace ((n2 * n1 + i) mod n1) with i
      by (rewrite Nat.add_comm, Nat.Div0.mod_add, Nat.mod_small by lia; lia).
    f_equal. lia.
Qed.

(** ** Properties of expandTensorGrid *)

Section ExpandProofs.
Context {Real : Type} `{RealOps Real}.

Lemma lt_block_unique (m a b k i : nat) :
  k < m -> i < m -> a * m + k = b * m + i -> a = b.
Proof.
  intros Hk Hi Heq.
  destruct (lt_eq_lt_dec a b) as [[Hlt|Heq']|Hgt]; [|exact Heq'|].
  - assert (Datatypes.S a * m <= b * m) by (apply Nat.mul_le_mono_r; lia). lia.
  - assert (Datatypes.S b * m <= a * m) by (apply Nat.mul_le_mono_r; lia). lia.
Qed.

Lemma expand_inner_step (in0 in1 : RealArray Real) j st :
  j < length in1 ->
  expand_inv in0 in1 (j * length in0) st ->
  expand_inv in0 in1 (Datatypes.S j * length in0)
    (forRange (length in0) (fun i '(o0, o1, ip) =>
        (<[ip := at_ in0 i]> o0, <[ip := at_ in1 j]> o1, Datatypes.S ip)) st).
Proof.
  intros Hj Hst.
  replace (Datatypes.S j * length in0) with (j * length in0 + length in0) by lia.
  apply (forRange_inv (fun i st => expand_inv in0 in1 (j * length in0 + i) st)).
  - rewrite Nat.add_0_r. exact Hst.
  - intros i [[o0 o1] ip] Hi (Hip & Hl0 & Hl1 & Hlk). subst ip.
    unfold expand_inv.
    rewrite !length_insert.
    split; [lia|]. split; [exact Hl0|]. split; [exact Hl1|].
    intros i' k Hk Hlt.
    destruct (decide (i' * length in0 + k = j * length in0 + i)) as [Heq|Hne].
    + assert (i' = j) as -> by (apply (lt_block_unique (length in0) _ _ k i); lia).
      assert (k = i) as -> by lia.
      rewrite !list_lookup_insert_eq by nia. done.
    + rewrite !list_lookup_insert_ne by lia. apply Hlk; [exact Hk|lia].
Qed.

Lemma expand_loops (in0 in1 out0 out1 : RealArray Real) :
  length out0 = length in0 * length in1 ->
  length out1 = length in0 * length in1 ->
  expand_inv in0 in1 (length in1 * length in0)
    (forRange (length in1) (fun j st =>
      forRange (length in0) (fun i '(o0, o1, ip) =>
        (<[ip := at_ in0 i]> o0, <[ip := at_ in1 j]> o1, Datatypes.S ip)) st)
      (out0, out1, 0)).
Proof.
  intros H0 H1.
  apply (forRange_inv (fun j st => expand_inv in0 in1 (j * length in0) st)).
  - cbn. repeat split; try done; lia.
  - intros j st Hj Hst. by apply expand_inner_step.
Qed.

(** C2 (general part): the outputs have length m*n, out0[i*m+k] = in0[k] and
    out1[i*m+k] = in1[i] for all 0 <= k < m and 0 <= i < n, whatever the
    output arrays held before the call. *)
Theorem expandTensorGrid_spec (in0 in1 out0 out1 : RealArray Real) :
  let m := length in0 in
  let n := length in1 in
  let '(o0, o1) := expandTensorGrid in0 in1 out0 out1 in
  length o0 = m * n /\ length o1 = m * n /\
  forall i k, k < m -> i < n ->
    o0 !! (i * m + k) = in0 !! k /\ o1 !! (i * m + k) = in1 !! i.
Proof.
  cbn zeta. unfold expandTensorGrid.
  pose proof (expand_loops in0 in1
    (resize (length in0 * length in1) r0 out0)
    (resize (length in0 * length in1) r0 out1)
    (length_resize _ _ _) (length_resize _ _ _)) as Hinv.
  destruct (forRange _ _ _) as [[o0 o1] ip].
  destruct Hinv as (_ & Hl0 & Hl1 & Hlk).
  split; [exact Hl0|]. split; [exact Hl1|].
  intros i k Hk Hi.
  destruct (Hlk i k Hk ltac:(nia)) as [E0 E1].
  rewrite E0, E1. unfold at_.
  destruct (lookup_lt_is_Some_2 in0 k Hk) as [x ->].
  destruct (lookup_lt_is_Some_2 in1 i Hi) as [y ->].
  done.
Qed.

End ExpandProofs.


(** C2. For inputs of lengths m and n, both outputs of [expandTensorGrid]
    have length m*n, with out0[i*m+k] = in0[k] and out1[i*m+k] = in1[i] for
    all 0 <= k < m and 0 <= i < n; in particular the inputs {0,1,2} and
    {2,3,5} give {0,1,2,0,1,2,0,1,2} and {2,2,2,3,3,3,5,5,5}. *)
Theorem C2_expandTensorGrid :
  (forall (Real : Type) (ops : RealOps Real) (in0 in1 out0 out1 : list Real),
     let '(o0, o1) := expandTensorGrid in0 in1 out0 out1 in
     length o0 = length in0 * length in1 /\
     length o1 = length in0 * length in1 /\
     forall i k, k < length in0 -> i < length in1 ->
       o0 !! (i * length in0 + k) = in0 !! k /\
       o1 !! (i * length in0 + k) = in1 !! i) /\
  expandTensorGrid [0; 1; 2]%Q [2; 3; 5]%Q [] []
  = ([0; 1; 2; 0; 1; 2; 0; 1; 2]%Q, [2; 2; 2; 3; 3; 3; 5; 5; 5]%Q).
Proof.
  split.
  - intros Real ops in0 in1 out0 out1.
    exact (expandTensorGrid_spec in0 in1 out0 out1).
  - reflexivity.
Qed.

Lemma C2_expandTensorGrid_witness :
  let '(o0, o1) := expandTensorGrid [7; 8]%Q [4; 5; 6]%Q [1; 1; 1]%Q [] in
  length o0 = 6 /\ length o1 = 6 /\
  o0 !! (2 * 2 + 1) = Some 8%Q /\ o1 !! (2 * 2 + 1) = Some 6%Q.
Proof.
  pose proof (proj1 C2_expandTensorGrid Q _ [7; 8]%Q [4; 5; 6]%Q [1; 1; 1]%Q [])
    as Hspec.
  destruct (expandTensorGrid _ _ _ _) as [o0 o1].
  destruct Hspec as (H0 & H1 & Hlk).
  split; [exact H0|]. split; [exact H1|].
  apply (Hlk 2 1); simpl; lia.
Defined.

(** ** getGrevilleParameters *)

Section GrevilleProofs.
Context {Real : Type} `{RealOps Real}.

Lemma foldl_push_back {A : Type} (f : A -> Real) (l : list A) (acc : list Real) :
  foldl (fun prm b => prm ++ [f b]) acc l = acc ++ (f <$> l).
Proof.
  revert acc. induction l as [|a l IH]; intros acc; simpl.
  - by rewrite app_nil_r.
  - rewrite IH, <- app_assoc. reflexivity.
Qed.

Lemma getGrevilleParameters_present (patch : ASMu2D Real)
  (spl : LRSplineSurface Real) prm (dir : Z) :
  lrspline patch = Some spl -> (0 <= dir <= 1)%Z ->
  getGrevilleParameters patch prm dir
  = (true, (fun b => at_ (getGrevilleParameter b) (Z.to_nat dir))
             <$> getAllBasisfunctions spl).
Proof.
  intros Hspl Hdir. unfold getGrevilleParameters. rewrite Hspl.
  destruct (Z.ltb_spec dir 0); [lia|].
  destruct (Z.gtb_spec dir 1); [lia|]. simpl.
  by rewrite foldl_push_back.
Qed.

Lemma getGrevilleParameters_fail_iff (patch : ASMu2D Real) prm (dir : Z) :
  (getGrevilleParameters patch prm dir).1 = false
  <-> lrspline patch = None \/ ~ (0 <= dir <= 1)%Z.
Proof.
  unfold getGrevilleParameters.
  destruct (lrspline patch) as [spl|]; [|naive_solver].
  destruct (Z.ltb_spec dir 0), (Z.gtb_spec dir 1); simpl;
    split; intros Hf; try done; try (right; lia);
    destruct Hf as [Hf|Hf]; try done; lia.
Qed.

(** C8. With the mesh present and [dir] 0 or 1, [getGrevilleParameters]
    succeeds and returns one coordinate per basis function, in the order of
    the mesh's enumeration of its basis functions; it fails exactly when the
    mesh is absent or [dir] is outside 0..1 (and then leaves [prm] as it
    was). *)
Theorem C8_getGrevilleParameters (patch : ASMu2D Real) (prm : list Real)
  (dir : Z) :
  (forall spl, lrspline patch = Some spl -> (0 <= dir <= 1)%Z ->
     exists out,
       getGrevilleParameters patch prm dir = (true, out) /\
       out = (fun b => at_ (getGrevilleParameter b) (Z.to_nat dir))
               <$> getAllBasisfunctions spl /\
       length out = nBasisFunctions spl) /\
  ((getGrevilleParameters patch prm dir).1 = false
     <-> lrspline patch = None \/ ~ (0 <= dir <= 1)%Z) /\
  ((getGrevilleParameters patch prm dir).1 = false ->
     (getGrevilleParameters patch prm dir).2 = prm).
Proof.
  split; [|split].
  - intros spl Hspl Hdir. eexists. split; [|split; [reflexivity|]].
    + by apply getGrevilleParameters_present.
    + by rewrite length_fmap.
  - apply getGrevilleParameters_fail_iff.
  - unfold getGrevilleParameters.
    destruct (lrspline patch); [|done].
    by destruct ((dir <? 0)%Z || (dir >? 1)%Z).
Qed.

End GrevilleProofs.

Lemma C8_getGrevilleParameters_witness :
  let patch := Biquadratic.patchOf (Some Biquadratic.mesh)
                 (fun _ => 1 # 4)%Q (fun _ _ => 3%Q) in
  exists out,
    getGrevilleParameters patch [] 1 = (true, out) /\
    out = (fun b => at_ (getGrevilleParameter b) 1)
            <$> getAllBasisfunctions Biquadratic.mesh /\
    length out = 16.
Proof.
  intros patch.
  exact (proj1 (C8_getGrevilleParameters patch [] 1)
           Biquadratic.mesh eq_refl ltac:(lia)).
Defined.

(** ** Early-return loops *)

Lemma forEachM_app {E S A : Type} (body : A -> S -> E + S) (l1 l2 : list A) s :
  forEachM body (l1 ++ l2) s
  = match forEachM body l1 s with
    | inl e => inl e
    | inr s' => forEachM body l2 s'
    end.
Proof.
  revert s. induction l1 as [|a l1 IH]; intros s; simpl; [done|].
  destruct (body a s); [done|]. apply IH.
Qed.

(** A loop that returned early did so in the body of one of its passes, the
    earlier passes having run to their end. *)
Lemma forEachM_inl {E S A : Type} (body : A -> S -> E + S) (l : list A) s e :
  forEachM body l s = inl e ->
  exists pre a post s',
    l = pre ++ a :: post /\
    forEachM body pre s = inr s' /\
    body a s' = inl e.
Proof.
  revert s. induction l as [|a l IH]; intros s; simpl; [done|].
  destruct (body a s) as [e'|s'] eqn:Hb.
  - intros [= ->]. by exists [], a, l, s.
  - intros Hl. destruct (IH _ Hl) as (pre & a' & post & s'' & -> & Hpre & Ha).
    exists (a :: pre), a', post, s''. simpl. by rewrite Hb.
Qed.

(** A pass that returns early makes the whole loop return early. *)
Lemma forEachM_stops {E S A : Type} (body : A -> S -> E + S) (l : list A) a :
  a ∈ l ->
  (forall s, exists e, body a s = inl e) ->
  forall s, exists e, forEachM body l s = inl e.
Proof.
  intros Hin Hstop. induction l as [|x l IH]; intros s.
  - by apply elem_of_nil in Hin.
  - simpl. destruct (body x s) as [e|s'] eqn:Hb; [by exists e|].
    apply elem_of_cons in Hin as [->|Hin].
    + destruct (Hstop s) as [e He]. congruence.
    + by apply IH.
Qed.

Lemma succeeded_inv {A : Type} (o : Outcome (option A)) :
  succeeded o = true -> exists a, o = Ret (Some a).
Proof. destruct o as [|[a|]]; try done. by exists a. Qed.

(** ** The absent mesh *)

Section NullMesh.
Context {Real : Type} `{RealOps Real}.
Variable svc : Services Real.
Variable patch : ASMu2D Real.

Lemma regularInterpolation_present spl upar vpar points :
  lrspline patch = Some spl ->
  exists r, regularInterpolation svc patch upar vpar points = Ret r.
Proof.
  intros Hspl. unfold regularInterpolation. rewrite Hspl. by eexists.
Qed.

Lemma scRecovery_present spl integrand :
  lrspline patch = Some spl ->
  exists r, scRecovery svc patch integrand = Ret r.
Proof.
  intros Hspl. unfold scRecovery. rewrite Hspl.
  destruct (getCoord svc _); [|by eexists].
  destruct (getCoord svc _); [|by eexists].
  destruct (getGrevilleParameters patch [] 0) as [[] gpar0]; [|by eexists].
  destruct (getGrevilleParameters patch [] 1) as [[] gpar1]; [|by eexists].
  destruct (recoverAll _ _ _ _ _ _ _ _ _ _) as [|[n sValues]]; [by eexists|].
  by eapply regularInterpolation_present.
Qed.

(** C9. With the mesh handle absent, [globalL2projection] returns true at
    once and leaves the field matrix as it was, for every field matrix,
    integrand and value of [continuous]. *)
Theorem C9_globalL2projection_empty_patch (sField : Matrix Real)
  (integrand : IntegrandBase) (continuous : bool) :
  lrspline patch = None ->
  globalL2projection svc patch sField integrand continuous = (true, sField).
Proof.
  intros Hnull. unfold globalL2projection. by rewrite Hnull.
Qed.

(** C10. [scRecovery] reads the polynomial orders through the mesh handle
    before any check: with the handle absent it ends in the null dereference
    and not in its failure value, whereas [getGrevilleParameters] and
    [globalL2projection] test the handle first and return; with the mesh
    present [scRecovery] returns normally. *)
Theorem C10_scRecovery_requires_mesh (integrand : IntegrandBase) :
  (lrspline patch = None ->
     scRecovery svc patch integrand = NullDeref /\
     scRecovery svc patch integrand <> Ret None /\
     (forall prm dir, getGrevilleParameters patch prm dir = (false, prm)) /\
     (forall sField continuous,
        globalL2projection svc patch sField integrand continuous
        = (true, sField))) /\
  (is_Some (lrspline patch) ->
     exists r, scRecovery svc patch integrand = Ret r).
Proof.
  split.
  - intros Hnull. unfold scRecovery, getGrevilleParameters, globalL2projection.
    rewrite Hnull. done.
  - intros [spl Hspl]. by eapply scRecovery_present.
Qed.

End NullMesh.

Lemma C9_globalL2projection_empty_patch_witness :
  globalL2projection (Biquadratic.services Biquadratic.noSolve Biquadratic.noSolve)
    (Biquadratic.patchOf None (fun _ => 1 # 4)%Q (fun _ _ => 3%Q))
    (mkMatrix 1 2 [5; 7]%Q) Biquadratic.integrand1 true
  = (true, mkMatrix 1 2 [5; 7]%Q).
Proof.
  apply (C9_globalL2projection_empty_patch
           (Biquadratic.services Biquadratic.noSolve Biquadratic.noSolve)
           (Biquadratic.patchOf None (fun _ => 1 # 4)%Q (fun _ _ => 3%Q))).
  reflexivity.
Defined.

Lemma C10_scRecovery_requires_mesh_witness :
  let svc := Biquadratic.services Biquadratic.sparseGJ Biquadratic.denseGJ in
  let f := (fun u v => u * u + 2 * v)%Q in
  scRecovery svc (Biquadratic.patchOf None (fun _ => 1 # 4)%Q f)
             Biquadratic.integrand1 = NullDeref /\
  exists r,
    scRecovery svc
      (Biquadratic.patchOf (Some Biquadratic.mesh) (fun _ => 1 # 4)%Q f)
      Biquadratic.integrand1 = Ret r.
Proof.
  intros svc f. split.
  - exact (proj1 (proj1 (C10_scRecovery_requires_mesh svc
             (Biquadratic.patchOf None (fun _ => 1 # 4)%Q f)
             Biquadratic.integrand1) eq_refl)).
  - exact (proj2 (C10_scRecovery_requires_mesh svc
             (Biquadratic.patchOf (Some Biquadratic.mesh) (fun _ => 1 # 4)%Q f)
             Biquadratic.integrand1) (mk_is_Some _ _ eq_refl)).
Defined.

(** ** Matrix access *)

Section MatrixFacts.
Context {Real : Type} `{RealOps Real}.

Lemma mat_idx_inj (M : Matrix Real) r c r' c' :
  1 <= r <= rows M -> 1 <= r' <= rows M -> 1 <= c -> 1 <= c' ->
  mat_idx M r c = mat_idx M r' c' -> r = r' /\ c = c'.
Proof.
  unfold mat_idx. intros Hr Hr' Hc Hc' Heq.
  assert (c - 1 = c' - 1) as Hcc.
  { apply (lt_block_unique (rows M) _ _ (r - 1) (r' - 1)); lia. }
  rewrite Hcc in Heq. lia.
Qed.

Lemma mat_idx_lt (M : Matrix Real) r c :
  1 <= r <= rows M -> 1 <= c <= cols M ->
  length (elem M) = rows M * cols M ->
  mat_idx M r c < length (elem M).
Proof.
  unfold mat_idx. intros Hr Hc ->.
  assert (rows M * (c - 1) + rows M <= rows M * cols M).
  { replace (rows M * (c - 1) + rows M) with (rows M * c) by nia.
    apply Nat.mul_le_mono_l. lia. }
  lia.
Qed.

Lemma mget_mset_eq (M : Matrix Real) r c v :
  mat_idx M r c < length (elem M) ->
  mget (mset M r c v) r c = v.
Proof.
  intros Hlt. unfold mget, mset, at_, mat_idx in *. simpl.
  by rewrite list_lookup_insert_eq.
Qed.

Lemma mget_mset_ne (M : Matrix Real) r c v r' c' :
  mat_idx M r c <> mat_idx M r' c' ->
  mget (mset M r c v) r' c' = mget M r' c'.
Proof.
  intros Hne. unfold mget, mset, at_, mat_idx in *. simpl.
  by rewrite list_lookup_insert_ne.
Qed.

Lemma mat_wf_new r c : mat_wf (mat_new (Real:=Real) r c).
Proof. unfold mat_wf, mat_new. simpl. by rewrite length_replicate. Qed.

Lemma mat_wf_mset (M : Matrix Real) r c v :
  mat_wf M -> mat_wf (mset M r c v).
Proof. unfold mat_wf, mset. simpl. by rewrite length_insert. Qed.

End MatrixFacts.

(** ** regularInterpolation: when it fails *)

Section InterpolationFailure.
Context {Real : Type} `{RealOps Real}.
Variable svc : Services Real.
Variable patch : ASMu2D Real.

Lemma setControlPoints_shape (B : Matrix Real) (bs : list (Basisfunction Real)) :
  length (setControlPoints B bs) = length bs /\
  forall n, Forall (fun b => length (cp b) = n) bs ->
            Forall (fun b => length (cp b) = n) (setControlPoints B bs).
Proof.
  unfold setControlPoints.
  apply (forRange_inv (fun _ (bs' : list (Basisfunction Real)) =>
    length bs' = length bs /\
    forall n, Forall (fun b => length (cp b) = n) bs ->
              Forall (fun b => length (cp b) = n) bs')).
  - done.
  - intros j bs' _ [Hlen Hcp]. split.
    + by rewrite length_imap.
    + intros n Hn. specialize (Hcp n Hn).
      apply Forall_lookup. intros i b Hb.
      rewrite list_lookup_imap in Hb.
      destruct (bs' !! i) as [b'|] eqn:Hb'; [|done].
      simpl in Hb. injection Hb as <-. simpl.
      rewrite length_insert.
      by apply (Forall_lookup_1 _ _ _ _ Hcp Hb').
Qed.

(** C6. With the mesh present, [regularInterpolation] returns its failure
    value exactly when the basis is rational, or the length of [upar], the
    length of [vpar] or the column count of [points] differs from the number
    of basis functions, or the dense nBasis x nBasis system is not solved; in
    every other case it returns a mesh with the same basis functions, each
    carrying one control value per row of [points]. *)
Theorem C6_regularInterpolation_failure (spl : LRSplineSurface Real)
  (upar vpar : list Real) (points : Matrix Real) :
  lrspline patch = Some spl ->
  let nBasis := nBasisFunctions spl in
  let failure :=
    rational spl = true \/ length upar <> nBasis \/ length vpar <> nBasis \/
    cols points <> nBasis \/
    denseSolve svc (interpolationMatrix spl upar vpar) (mat_transpose points)
      = None in
  (regularInterpolation svc patch upar vpar points = Ret None <-> failure) /\
  (~ failure ->
     exists ans,
       regularInterpolation svc patch upar vpar points = Ret (Some ans) /\
       nBasisFunctions ans = nBasis /\
       Forall (fun b => length (cp b) = rows points) (getAllBasisfunctions ans)).
Proof.
  intros Hspl nBasis failure. subst failure nBasis.
  unfold regularInterpolation, solveDense. rewrite Hspl.
  destruct (rational spl) eqn:Hrat.
  { split; [split; [by left|done]|]. intros Hnf. exfalso. apply Hnf. by left. }
  destruct (Nat.eqb_spec (length upar) (nBasisFunctions spl)) as [Hu|Hu]; simpl;
    [|split; [split; [by right; left|done]|];
      intros Hnf; exfalso; apply Hnf; by right; left].
  destruct (Nat.eqb_spec (length vpar) (nBasisFunctions spl)) as [Hv|Hv]; simpl;
    [|split; [split; [by right; right; left|done]|];
      intros Hnf; exfalso; apply Hnf; by right; right; left].
  destruct (Nat.eqb_spec (cols points) (nBasisFunctions spl)) as [Hp|Hp]; simpl;
    [|split; [split; [by right; right; right; left|done]|];
      intros Hnf; exfalso; apply Hnf; by right; right; right; left].
  destruct (denseSolve svc _ _) as [X|] eqn:Hsolve; simpl.
  - split.
    + split; [done|]. intros [?|[?|[?|[?|?]]]]; done.
    + intros _. eexists. split; [reflexivity|]. simpl.
      unfold nBasisFunctions. simpl.
      destruct (setControlPoints_shape
                  (mkMatrix (cols points) (rows points) X)
                  ((fun b => set_cp b (resize (rows points) r0 (cp b)))
                     <$> getAllBasisfunctions spl)) as [Hlen Hcp].
      split.
      * by rewrite Hlen, length_fmap.
      * apply Hcp. apply Forall_fmap, Forall_forall. intros b _. simpl.
        by rewrite length_resize.
  - split.
    + split; [|done]. intros _. by right; right; right; right.
    + intros Hnf. exfalso. apply Hnf. by right; right; right; right.
Qed.

End InterpolationFailure.

Lemma C6_regularInterpolation_failure_witness :
  let svc := Biquadratic.services Biquadratic.sparseGJ Biquadratic.denseGJ in
  let f := (fun u v => u * u + 2 * v)%Q in
  let patch := Biquadratic.patchOf (Some Biquadratic.mesh)
                 (fun _ => 1 # 4)%Q f in
  let gu := (getGrevilleParameters patch [] 0).2 in
  let gv := (getGrevilleParameters patch [] 1).2 in
  let points := (Biquadratic.sample f (mkMatrix 0 0 []) Biquadratic.integrand1
                   (gu, gv)).2 in
  (exists ans, regularInterpolation svc patch gu gv points = Ret (Some ans)) /\
  regularInterpolation svc patch gu [] points = Ret None.
Proof.
  intros svc f patch gu gv points.
  destruct (C6_regularInterpolation_failure svc patch Biquadratic.mesh
              gu gv points eq_refl) as [_ Hok].
  destruct (C6_regularInterpolation_failure svc patch Biquadratic.mesh
              gu [] points eq_refl) as [Hfail _].
  split.
  - destruct Hok as (ans & Hans & _).
    + intros [Hf|[Hf|[Hf|[Hf|Hf]]]]; vm_compute in Hf; congruence.
    + by exists ans.
  - apply Hfail. right; right; left. vm_compute. congruence.
Defined.

(** ** globalL2projection: failures and what they leave behind *)

Section GlobalL2Facts.
Context {Real : Type} `{RealOps Real}.
Variable svc : Services Real.
Variable patch : ASMu2D Real.

Lemma numbered_elem (els : list Element) (iel : nat) :
  1 <= iel <= length els -> exists el, (iel, el) ∈ numbered els.
Proof.
  intros Hiel.
  destruct (lookup_lt_is_Some_2 els (iel - 1) ltac:(lia)) as [el Hel].
  exists el. apply (list_elem_of_lookup_2 _ (iel - 1)).
  unfold numbered. apply lookup_zip_with_Some. exists iel, el.
  split; [done|]. split; [|done].
  rewrite lookup_seq_lt by lia. f_equal. lia.
Qed.

Lemma assembleElement_geometry_fails spl integrand continuous ng1 ng2
  xg yg wg nnod ncomp iel el st :
  elementGeometry patch continuous iel = None ->
  assembleElement svc patch spl integrand continuous ng1 ng2 xg yg wg
                  nnod ncomp (iel, el) st = inl st.2.
Proof.
  intros Hgeo. unfold assembleElement. destruct st as [AB sField].
  by rewrite Hgeo.
Qed.

(** Within an element only the geometry checks and the field evaluation can
    return; the integration loop always runs to its end. *)
Lemma assembleElement_continues spl integrand continuous ng1 ng2
  xg yg wg nnod ncomp iel el AB sField Xnod dA sField' :
  elementGeometry patch continuous iel = Some (Xnod, dA) ->
  evalSolution patch sField integrand
    (elementPoints patch ng1 ng2 (Z.of_nat iel) xg yg).2 = (true, sField') ->
  exists AB',
    assembleElement svc patch spl integrand continuous ng1 ng2 xg yg wg
                    nnod ncomp (iel, el) (AB, sField) = inr (AB', sField').
Proof.
  intros Hgeo Hev. unfold assembleElement. rewrite Hgeo.
  unfold elementPoints in *. simpl in Hev. rewrite Hev. by eexists.
Qed.

Lemma samplesAfter_cons integrand ng1 ng2 xg yg iel el l sField :
  samplesAfter patch integrand ng1 ng2 xg yg ((iel, el) :: l) sField
  = samplesAfter patch integrand ng1 ng2 xg yg l
      (evalSolution patch sField integrand
         (expandTensorGrid
            (getGaussPointParameters patch 0 ng1 (Z.of_nat iel) xg)
            (getGaussPointParameters patch 1 ng2 (Z.of_nat iel) yg) [] [])).2.
Proof. reflexivity. Qed.

(** The sample matrix carried by the assembly loop is the one left by the
    field evaluator on the elements visited so far. *)
Lemma assemble_samples spl integrand continuous ng1 ng2 xg yg wg nnod ncomp
  (l : list (nat * Element)) AB sField :
  match forEachM (assembleElement svc patch spl integrand continuous
                    ng1 ng2 xg yg wg nnod ncomp) l (AB, sField) with
  | inr (_, s') => s' = samplesAfter patch integrand ng1 ng2 xg yg l sField
  | inl s' =>
      exists visited, visited `prefix_of` l /\
        s' = samplesAfter patch integrand ng1 ng2 xg yg visited sField
  end.
Proof.
  revert AB sField. induction l as [|[iel el] l IH]; intros AB sField.
  - reflexivity.
  - cbn [forEachM]. unfold assembleElement at 1. cbn beta iota zeta.
    destruct (elementGeometry patch continuous iel) as [[Xnod dA]|] eqn:Hgeo.
    + unfold elementPoints. cbn beta iota zeta.
      destruct (evalSolution patch sField integrand _) as [[] s1] eqn:Hev.
      * specialize (IH (integrateElement svc patch spl continuous iel dA wg
                          Xnod nnod ncomp ng1 ng2
                          (getGaussPointParameters patch 0 ng1 (Z.of_nat iel) xg)
                          (getGaussPointParameters patch 1 ng2 (Z.of_nat iel) yg)
                          s1 AB) s1).
        destruct (forEachM _ l _) as [s'|[AB' s']].
        -- destruct IH as (visited & Hpre & ->).
           exists ((iel, el) :: visited). split; [by apply prefix_cons|].
           by rewrite samplesAfter_cons, Hev.
        -- by rewrite IH, samplesAfter_cons, Hev.
      * exists [(iel, el)]. split; [apply prefix_cons, prefix_nil|].
        by rewrite samplesAfter_cons, Hev.
    + exists []. split; [apply prefix_nil|done].
Qed.

(** Where the assembly loop stops and what it leaves in the sample matrix:
    at the first element whose geometry check or field evaluation fails. *)
Lemma assemble_outcome spl integrand continuous ng1 ng2 xg yg wg nnod ncomp
  (l : list (nat * Element)) AB sField :
  match forEachM (assembleElement svc patch spl integrand continuous
                    ng1 ng2 xg yg wg nnod ncomp) l (AB, sField) with
  | inr (_, s') =>
      allPass patch integrand continuous ng1 ng2 xg yg l sField = true /\
      s' = samplesAfter patch integrand ng1 ng2 xg yg l sField
  | inl s' =>
      exists pre ie post,
        l = pre ++ ie :: post /\
        allPass patch integrand continuous ng1 ng2 xg yg pre sField = true /\
        ((elementGeometry patch continuous ie.1 = None /\
          s' = samplesAfter patch integrand ng1 ng2 xg yg pre sField) \/
         (is_Some (elementGeometry patch continuous ie.1) /\
          (evalSolution patch
             (samplesAfter patch integrand ng1 ng2 xg yg pre sField) integrand
             (elementPoints patch ng1 ng2 (Z.of_nat ie.1) xg yg).2).1 = false /\
          s' = samplesAfter patch integrand ng1 ng2 xg yg (pre ++ [ie]) sField))
  end.
Proof.
  revert AB sField. induction l as [|[iel el] l IH]; intros AB sField.
  - done.
  - cbn [forEachM]. unfold assembleElement at 1. cbn beta iota zeta.
    destruct (elementGeometry patch continuous iel) as [[Xnod dA]|] eqn:Hgeo.
    + unfold elementPoints. cbn beta iota zeta.
      destruct (evalSolution patch sField integrand _) as [[] s1] eqn:Hev.
      * specialize (IH (integrateElement svc patch spl continuous iel dA wg
                          Xnod nnod ncomp ng1 ng2
                          (getGaussPointParameters patch 0 ng1 (Z.of_nat iel) xg)
                          (getGaussPointParameters patch 1 ng2 (Z.of_nat iel) yg)
                          s1 AB) s1).
        destruct (forEachM _ l _) as [s'|[AB' s']].
        -- destruct IH as (pre & ie & post & -> & Hpass & Hcase).
           exists ((iel, el) :: pre), ie, post. split; [done|].
           split.
           { cbn [allPass fst]. rewrite Hgeo. unfold elementPoints.
             cbn [snd]. by rewrite Hev. }
           rewrite <- app_comm_cons, !samplesAfter_cons, Hev. exact Hcase.
        -- destruct IH as [Hpass ->]. split.
           { cbn [allPass fst]. rewrite Hgeo. unfold elementPoints.
             cbn [snd]. by rewrite Hev. }
           by rewrite samplesAfter_cons, Hev.
      * exists [], (iel, el), l. split; [done|]. split; [done|].
        right. cbn [fst]. rewrite Hgeo. split; [done|].
        unfold samplesAfter at 1. cbn [foldl]. unfold elementPoints.
        cbn [snd app]. rewrite samplesAfter_cons, Hev. by split.
    + exists [], (iel, el), l. split; [done|]. split; [done|]. by left.
Qed.

Lemma integratePoint_skips spl iel dA wg Xnod nnod ncomp gpar0 gpar1
  sField j i ip AB :
  req (jacobianWeight svc true dA wg Xnod
         (basisAt svc spl true iel gpar0 gpar1 j i).2 j i) r0 = true ->
  integratePoint svc patch spl true iel dA wg Xnod nnod ncomp gpar0 gpar1
                 sField j i ip AB = AB.
Proof.
  intros Hzero. unfold integratePoint.
  destruct (basisAt svc spl true iel gpar0 gpar1 j i) as [phi dNdu].
  simpl in *. by rewrite Hzero.
Qed.

End GlobalL2Facts.

Section GlobalL2Claims.
Context {Real : Type} `{RealOps Real}.
Variable svc : Services Real.
Variable patch : ASMu2D Real.

Lemma elementGeometry_fails iel :
  getElementCoordinates patch (Z.of_nat iel) = None \/
  rlt (rmul r025 (getParametricArea patch (Z.of_nat iel))) r0 = true ->
  elementGeometry patch true iel = None.
Proof.
  unfold elementGeometry. intros [Hc|Ha].
  - by rewrite Hc.
  - destruct (getElementCoordinates patch _); [|done]. by rewrite Ha.
Qed.

(** C4 (as amended). With the mesh present, [globalL2projection] returns
    false when the quadrature table has no coordinates (or, in continuous
    mode, no weights) for the requested order; in continuous mode, when the
    nodal coordinates of an element cannot be extracted or its scaled
    parametric area is negative; and when the sparse solve fails.  A Gauss
    point whose weight [dJw] is zero leaves the system as it is, and an
    element whose geometry and field evaluation succeed never ends the
    loop. *)
Theorem C4_globalL2projection_failures (spl : LRSplineSurface Real)
  (sField : Matrix Real) (integrand : IntegrandBase) (continuous : bool) :
  lrspline patch = Some spl ->
  let ng1 := if continuous then nGauss patch else (order spl 0 - 1)%Z in
  let ng2 := if continuous then nGauss patch else (order spl 1 - 1)%Z in
  let wg := if continuous then getWeight svc (nGauss patch) else None in
  let result := globalL2projection svc patch sField integrand continuous in
  (getCoord svc ng1 = None \/ getCoord svc ng2 = None \/
   (continuous = true /\ getWeight svc (nGauss patch) = None) ->
   result.1 = false) /\
  (continuous = true ->
   forall iel, 1 <= iel <= length (elements spl) ->
     getElementCoordinates patch (Z.of_nat iel) = None \/
     rlt (rmul r025 (getParametricArea patch (Z.of_nat iel))) r0 = true ->
     result.1 = false) /\
  (forall xg yg A B s,
     getCoord svc ng1 = Some xg -> getCoord svc ng2 = Some yg ->
     assembleSystem svc patch spl integrand continuous ng1 ng2 xg yg
                    (default [] wg) sField = inr (A, B, s) ->
     sparseSolve svc A B = None ->
     result.1 = false) /\
  (forall iel dA wg Xnod nnod ncomp gpar0 gpar1 sF j i ip AB,
     req (jacobianWeight svc true dA wg Xnod
            (basisAt svc spl true iel gpar0 gpar1 j i).2 j i) r0 = true ->
     integratePoint svc patch spl true iel dA wg Xnod nnod ncomp gpar0 gpar1
                    sF j i ip AB = AB) /\
  (forall xg yg wg nnod ncomp iel el AB sF Xnod dA sF',
     elementGeometry patch continuous iel = Some (Xnod, dA) ->
     evalSolution patch sF integrand
       (elementPoints patch ng1 ng2 (Z.of_nat iel) xg yg).2 = (true, sF') ->
     exists AB',
       assembleElement svc patch spl integrand continuous ng1 ng2 xg yg wg
                       nnod ncomp (iel, el) (AB, sF) = inr (AB', sF')).
Proof.
  intros Hspl ng1 ng2 wg result.
  subst result. unfold globalL2projection. rewrite Hspl.
  fold ng1 ng2 wg.
  split; [|split; [|split; [|split]]].
  - intros [Hx|[Hy|[-> Hw]]].
    + by rewrite Hx.
    + rewrite Hy. by destruct (getCoord svc ng1).
    + destruct (getCoord svc ng1); [|done].
      destruct (getCoord svc ng2); [|done].
      subst wg. rewrite Hw. done.
  - intros -> iel Hiel Hbad.
    destruct (getCoord svc ng1) as [xg|]; [|done].
    destruct (getCoord svc ng2) as [yg|]; [|done].
    destruct (true && negb (bool_decide (is_Some wg))); [done|].
    destruct (numbered_elem (elements spl) iel Hiel) as [el Hel].
    unfold assembleSystem.
    edestruct (forEachM_stops
      (assembleElement svc patch spl integrand true ng1 ng2 xg yg
         (default [] wg) (getNoNodes patch) (getNoFields integrand))
      (numbered (elements spl)) (iel, el) Hel) as [s' ->]; [|done].
    intros st. exists st.2.
    apply assembleElement_geometry_fails. by apply elementGeometry_fails.
  - intros xg yg A B s -> -> Hloop Hsolve.
    destruct (continuous && negb (bool_decide (is_Some wg))); [done|].
    by rewrite Hloop, Hsolve.
  - intros. by apply integratePoint_skips.
  - intros. by eapply assembleElement_continues.
Qed.

(** C1 (as amended). A run of [globalL2projection] that returns false has
    the mesh present and never leaves projected coefficients behind.  The
    sample matrix holds its original contents when the quadrature order is
    unsupported or the geometry check of the first element fails.  Otherwise
    the loop stops at the first element that fails: when its geometry check
    fails, the matrix holds what the field evaluator left in it after being
    run in turn on the elements before it; when the field evaluation fails
    on it, what the evaluator left after being run on the elements up to and
    including it; and when every element passes and the solver fails, what
    the evaluator left after being run on all elements. *)
Theorem C1_failure_leaves_samples (sField : Matrix Real)
  (integrand : IntegrandBase) (continuous : bool) :
  (globalL2projection svc patch sField integrand continuous).1 = false ->
  exists spl, lrspline patch = Some spl /\
  let ng1 := if continuous then nGauss patch else (order spl 0 - 1)%Z in
  let ng2 := if continuous then nGauss patch else (order spl 1 - 1)%Z in
  let wg := if continuous then getWeight svc (nGauss patch) else None in
  let result := globalL2projection svc patch sField integrand continuous in
  (getCoord svc ng1 = None \/ getCoord svc ng2 = None \/
   (continuous = true /\ getWeight svc (nGauss patch) = None) ->
   result.2 = sField) /\
  (elementGeometry patch continuous 1 = None -> result.2 = sField) /\
  (forall xg yg,
     getCoord svc ng1 = Some xg -> getCoord svc ng2 = Some yg ->
     (continuous = true -> is_Some (getWeight svc (nGauss patch))) ->
     let after := samplesAfter patch integrand ng1 ng2 xg yg in
     let passed := allPass patch integrand continuous ng1 ng2 xg yg in
     (exists pre ie post,
        numbered (elements spl) = pre ++ ie :: post /\
        passed pre sField = true /\
        ((elementGeometry patch continuous ie.1 = None /\
          result.2 = after pre sField) \/
         (is_Some (elementGeometry patch continuous ie.1) /\
          (evalSolution patch (after pre sField) integrand
             (elementPoints patch ng1 ng2 (Z.of_nat ie.1) xg yg).2).1 = false /\
          result.2 = after (pre ++ [ie]) sField))) \/
     (exists A B s,
        assembleSystem svc patch spl integrand continuous ng1 ng2 xg yg
                       (default [] wg) sField = inr (A, B, s) /\
        sparseSolve svc A B = None /\
        passed (numbered (elements spl)) sField = true /\
        result.2 = after (numbered (elements spl)) sField)).
Proof.
  intros Hfail. unfold globalL2projection in *.
  destruct (lrspline patch) as [spl|]; [|done].
  exists spl. split; [done|].
  set (ng1 := if continuous then nGauss patch else (order spl 0 - 1)%Z) in *.
  set (ng2 := if continuous then nGauss patch else (order spl 1 - 1)%Z) in *.
  set (wg := if continuous then getWeight svc (nGauss patch) else None) in *.
  split; [|split].
  - intros [Hx|[Hy|[-> Hw]]].
    + by rewrite Hx.
    + rewrite Hy. by destruct (getCoord svc ng1).
    + destruct (getCoord svc ng1); [|done].
      destruct (getCoord svc ng2); [|done].
      subst wg. by rewrite Hw.
  - intros Hgeo.
    destruct (getCoord svc ng1) as [xg|]; [|done].
    destruct (getCoord svc ng2) as [yg|]; [|done].
    destruct (continuous && negb (bool_decide (is_Some wg))); [done|].
    unfold assembleSystem in *. unfold numbered in *.
    destruct (elements spl) as [|el els]; simpl in *.
    + by destruct (sparseSolve svc _ _).
    + by rewrite Hgeo.
  - intros xg yg Hx Hy Hw. cbv zeta. rewrite Hx, Hy in *.
    assert (continuous && negb (bool_decide (is_Some wg)) = false) as Hwok.
    { destruct continuous; [|done]. simpl. subst wg.
      by rewrite (bool_decide_eq_true_2 _ (Hw eq_refl)). }
    rewrite Hwok in *.
    unfold assembleSystem in *.
    pose proof (assemble_outcome svc patch spl integrand continuous ng1 ng2
      xg yg (default [] wg) (getNoNodes patch) (getNoFields integrand)
      (numbered (elements spl))
      (sparse_new (getNoNodes patch) (getNoNodes patch),
       replicate (getNoNodes patch * getNoFields integrand) r0) sField) as Hs.
    destruct (forEachM _ _ _) as [s'|[[A B] s']].
    + left. exact Hs.
    + right. destruct Hs as [Hpass ->].
      destruct (sparseSolve svc A B) eqn:Hsolve; [done|].
      by exists A, B, (samplesAfter patch integrand ng1 ng2 xg yg
                         (numbered (elements spl)) sField).
Qed.

End GlobalL2Claims.

(** C1 fails as stated: in continuous mode, with a negative parametric area
    on the second element only, the run returns false after the field
    evaluator has replaced the contents of the sample matrix by the samples
    of the first element. *)
Lemma C1_counterexample :
  let svc := Biquadratic.services Biquadratic.sparseGJ Biquadratic.denseGJ in
  let patch := Biquadratic.patchOf (Some Biquadratic.mesh)
                 (fun iel => if (iel =? 2)%Z then -(1 # 4) else 1 # 4)%Q
                 (fun _ _ => 3%Q) in
  let sField := mkMatrix 1 2 [5; 7]%Q in
  globalL2projection svc patch sField Biquadratic.integrand1 true
  = (false, mkMatrix 1 4 [3; 3; 3; 3]%Q) /\
  (globalL2projection svc patch sField Biquadratic.integrand1 true).2 <> sField.
Proof.
  split.
  - vm_compute. reflexivity.
  - vm_compute. discriminate.
Qed.

Lemma C1_failure_leaves_samples_witness :
  let svc := Biquadratic.services Biquadratic.sparseGJ Biquadratic.denseGJ in
  let patch := Biquadratic.patchOf (Some Biquadratic.mesh)
                 (fun iel => if (iel =? 2)%Z then -(1 # 4) else 1 # 4)%Q
                 (fun _ _ => 3%Q) in
  let sField := mkMatrix 1 2 [5; 7]%Q in
  let xg := [-(1 # 2); 1 # 2]%Q in
  let result := globalL2projection svc patch sField Biquadratic.integrand1
                                   true in
  let after := samplesAfter patch Biquadratic.integrand1 2 2 xg xg in
  let passed := allPass patch Biquadratic.integrand1 true 2 2 xg xg in
  (exists pre ie post,
     numbered (elements Biquadratic.mesh) = pre ++ ie :: post /\
     passed pre sField = true /\
     ((elementGeometry patch true ie.1 = None /\
       result.2 = after pre sField) \/
      (is_Some (elementGeometry patch true ie.1) /\
       (evalSolution patch (after pre sField) Biquadratic.integrand1
          (elementPoints patch 2 2 (Z.of_nat ie.1) xg xg).2).1 = false /\
       result.2 = after (pre ++ [ie]) sField))) \/
  (exists A B s,
     assembleSystem svc patch Biquadratic.mesh Biquadratic.integrand1 true
                    2 2 xg xg [1; 1]%Q sField = inr (A, B, s) /\
     sparseSolve svc A B = None /\
     passed (numbered (elements Biquadratic.mesh)) sField = true /\
     result.2 = after (numbered (elements Biquadratic.mesh)) sField).
Proof.
  intros svc patch sField xg result after passed.
  assert (Hf : (globalL2projection svc patch sField Biquadratic.integrand1 true).1 = false) by (vm_compute; reflexivity).
  destruct (C1_failure_leaves_samples svc patch sField Biquadratic.integrand1
              true Hf)
    as (spl & Hspl & _ & _ & Hvisited).
  injection Hspl as <-.
  exact (Hvisited xg xg eq_refl eq_refl (fun _ => mk_is_Some _ _ eq_refl)).
Defined.

(** C4 fails as stated: in discrete mode the parametric area is not looked
    at, and a patch all of whose elements have a negative area is projected
    with success. *)
Lemma C4_counterexample :
  let svc := Biquadratic.services Biquadratic.sparseGJ Biquadratic.denseGJ in
  let patch := Biquadratic.patchOf (Some Biquadratic.mesh)
                 (fun _ => -(1 # 4))%Q (fun u v => u * u + 2 * v)%Q in
  rlt (rmul r025 (getParametricArea patch 1)) r0 = true /\
  (globalL2projection svc patch (mkMatrix 0 0 []) Biquadratic.integrand1
                      false).1 = true.
Proof.
  split; vm_compute; reflexivity.
Qed.

Lemma C4_globalL2projection_failures_witness :
  let svc := Biquadratic.services Biquadratic.sparseGJ Biquadratic.denseGJ in
  let patch := Biquadratic.patchOf (Some Biquadratic.mesh)
                 (fun _ => -(1 # 4))%Q (fun u v => u * u + 2 * v)%Q in
  (globalL2projection svc patch (mkMatrix 0 0 []) Biquadratic.integrand1
                      true).1 = false.
Proof.
  intros svc patch.
  destruct (C4_globalL2projection_failures svc patch Biquadratic.mesh
              (mkMatrix 0 0 []) Biquadratic.integrand1 true eq_refl)
    as (_ & Hgeo & _).
  apply (Hgeo eq_refl 3).
  - simpl. lia.
  - right. vm_compute. reflexivity.
Defined.

(** ** Filling a matrix entry by entry *)

Section FillFacts.
Context {Real : Type} `{RealOps Real}.

(** The double loop [for i, for j: M(i+1,j+1) = f i j] over a matrix of n
    rows and m columns writes every entry. *)
Lemma fill_by_rows (n m : nat) (f : nat -> nat -> Real) (M : Matrix Real) :
  mat_wf M -> rows M = n -> cols M = m ->
  let M' := forRange n (fun i A =>
              forRange m (fun j A => mset A (i + 1) (j + 1) (f i j)) A) M in
  mat_wf M' /\ rows M' = n /\ cols M' = m /\
  forall i j, i < n -> j < m -> mget M' (i + 1) (j + 1) = f i j.
Proof.
  intros Hwf Hr Hc. cbn zeta.
  apply (forRange_inv (fun i' (A : Matrix Real) =>
    mat_wf A /\ rows A = n /\ cols A = m /\
    forall i j, i < i' -> j < m -> mget A (i + 1) (j + 1) = f i j)).
  - repeat split; try done. intros; lia.
  - intros i' A Hi' (HwfA & HrA & HcA & HA).
    assert (forRange_inner :
      let A' := forRange m (fun j A => mset A (i' + 1) (j + 1) (f i' j)) A in
      mat_wf A' /\ rows A' = n /\ cols A' = m /\
      (forall i j, i < i' -> j < m -> mget A' (i + 1) (j + 1) = f i j) /\
      (forall j, j < m -> mget A' (i' + 1) (j + 1) = f i' j)).
    { cbn zeta.
      apply (forRange_inv (fun j' (A' : Matrix Real) =>
        mat_wf A' /\ rows A' = n /\ cols A' = m /\
        (forall i j, i < i' -> j < m -> mget A' (i + 1) (j + 1) = f i j) /\
        (forall j, j < j' -> mget A' (i' + 1) (j + 1) = f i' j))).
      - repeat split; try done. intros; lia.
      - intros j' A' Hj' (Hwf' & Hr' & Hc' & Hold & Hnew).
        split; [by apply mat_wf_mset|].
        split; [done|]. split; [done|]. split.
        + intros i j Hi Hj. rewrite mget_mset_ne; [by apply Hold|].
          intros Heq. apply mat_idx_inj in Heq; lia.
        + intros j Hj. destruct (decide (j = j')) as [->|Hne].
          * apply mget_mset_eq, mat_idx_lt; [lia|lia|done].
          * rewrite mget_mset_ne; [apply Hnew; lia|].
            intros Heq. apply mat_idx_inj in Heq; lia. }
    cbn zeta in forRange_inner.
    destruct forRange_inner as (Hwf' & Hr' & Hc' & Hold & Hnew).
    repeat split; try done.
    intros i j Hi Hj. destruct (decide (i = i')) as [->|Hne].
    + by apply Hnew.
    + apply Hold; [lia|done].
Qed.

Lemma bind_blocks_lookup {A B : Type} (g : A -> list B) (m : nat)
  (l : list A) (a b : nat) :
  (forall x, length (g x) = m) -> b < m ->
  (l ≫= g) !! (a * m + b) = l !! a ≫= (fun x => g x !! b).
Proof.
  intros Hlen Hb. revert a. induction l as [|x l IH]; intros a.
  - done.
  - rewrite bind_cons. destruct a as [|a].
    + simpl. rewrite lookup_app_l; [done|]. rewrite Hlen. done.
    + rewrite lookup_app_r; [|rewrite Hlen; simpl; lia].
      rewrite Hlen. simpl.
      replace (m + a * m + b - m) with (a * m + b) by lia. apply IH.
Qed.

Lemma bind_singleton_length {A B : Type} (h : A -> B) (l : list A) :
  length (l ≫= (fun r => [h r])) = length l.
Proof.
  induction l as [|x l IH]; [done|]. rewrite bind_cons. simpl. by rewrite IH.
Qed.

Lemma bind_singleton_lookup {A B : Type} (h : A -> B) (l : list A) i :
  (l ≫= (fun r => [h r])) !! i = h <$> l !! i.
Proof.
  revert i. induction l as [|x l IH]; intros i; [done|].
  rewrite bind_cons. destruct i as [|i]; [done|]. simpl. apply IH.
Qed.

(** [Matrix B(M,true)]: B(r,c) = M(c,r). *)
Lemma mget_transpose (M : Matrix Real) r c :
  1 <= r <= cols M -> 1 <= c <= rows M ->
  mget (mat_transpose M) r c = mget M c r.
Proof.
  intros Hr Hc.
  assert (elem (mat_transpose M) !! mat_idx (mat_transpose M) r c
          = Some (mget M c r)) as Hlk.
  { unfold mat_transpose, mat_idx. simpl.
    replace (r - 1 + cols M * (c - 1)) with ((c - 1) * cols M + (r - 1)) by lia.
    rewrite (bind_blocks_lookup _ (cols M)); [| |lia].
    - rewrite lookup_seq_lt by lia. simpl.
      rewrite bind_singleton_lookup, lookup_seq_lt by lia. simpl.
      replace (Datatypes.S (c - 1)) with c by lia.
      by replace (Datatypes.S (r - 1)) with r by lia.
    - intros x. by rewrite bind_singleton_length, length_seq. }
  unfold mget at 1. unfold at_. by rewrite Hlk.
Qed.

End FillFacts.

(** ** regularInterpolation: the round trip *)

Section RoundTrip.
Context {Real : Type} `{RealOps Real}.
Variable svc : Services Real.
Variable patch : ASMu2D Real.

Lemma interpolationMatrix_entries (spl : LRSplineSurface Real)
  (upar vpar : list Real) :
  let A := interpolationMatrix spl upar vpar in
  rows A = nBasisFunctions spl /\ cols A = nBasisFunctions spl /\
  forall i j, i < nBasisFunctions spl -> j < nBasisFunctions spl ->
    mget A (i + 1) (j + 1)
    = at_ (computeBasis spl (at_ upar i) (at_ vpar i) (-1)) j.
Proof.
  cbn zeta. unfold interpolationMatrix.
  destruct (fill_by_rows (nBasisFunctions spl) (nBasisFunctions spl)
              (fun i j => at_ (computeBasis spl (at_ upar i) (at_ vpar i) (-1)) j)
              (mat_new (nBasisFunctions spl) (nBasisFunctions spl))
              (mat_wf_new _ _) eq_refl eq_refl) as (_ & Hr & Hc & Hget).
  by repeat split.
Qed.

(** Row k+1 of the interpolation matrix is the vector of basis values at
    sample point k, when that vector is dense. *)
Lemma interpolationMatrix_row (spl : LRSplineSurface Real)
  (upar vpar : list Real) k :
  k < nBasisFunctions spl ->
  length (computeBasis spl (at_ upar k) (at_ vpar k) (-1)) = nBasisFunctions spl ->
  mat_row (interpolationMatrix spl upar vpar) (k + 1)
  = computeBasis spl (at_ upar k) (at_ vpar k) (-1).
Proof.
  intros Hk Hlen.
  destruct (interpolationMatrix_entries spl upar vpar) as (_ & Hc & Hget).
  apply list_eq. intros j. unfold mat_row. rewrite Hc, list_lookup_fmap.
  destruct (decide (j < nBasisFunctions spl)) as [Hj|Hj].
  - rewrite lookup_seq_lt by done. simpl.
    replace (Datatypes.S j) with (j + 1) by lia.
    rewrite Hget by done.
    destruct (lookup_lt_is_Some_2
                (computeBasis spl (at_ upar k) (at_ vpar k) (-1)) j
                ltac:(lia)) as [x Hx].
    rewrite Hx. unfold at_ at 1. by rewrite Hx.
  - rewrite (lookup_ge_None_2 (seq _ _)) by (rewrite length_seq; lia).
    rewrite lookup_ge_None_2 by lia. done.
Qed.

(** After the closing double loop, control value j of basis function
    number i is B(i+1,j+1). *)
Lemma setControlPoints_entries (B : Matrix Real)
  (bs : list (Basisfunction Real)) :
  Forall (fun b => length (cp b) = cols B) bs ->
  forall i b, setControlPoints B bs !! i = Some b ->
  forall j, j < cols B -> at_ (cp b) j = mget B (i + 1) (j + 1).
Proof.
  intros Hcp. unfold setControlPoints.
  apply (forRange_inv (fun j' (bs' : list (Basisfunction Real)) =>
    Forall (fun b => length (cp b) = cols B) bs' /\
    forall i b, bs' !! i = Some b ->
    forall j, j < j' -> at_ (cp b) j = mget B (i + 1) (j + 1))).
  - split; [done|]. intros; lia.
  - intros j' bs' Hj' [Hlen Hget]. split.
    + apply Forall_lookup. intros i b Hb.
      rewrite list_lookup_imap in Hb.
      destruct (bs' !! i) as [b'|] eqn:Hb'; [|done].
      simpl in Hb. injection Hb as <-. simpl. rewrite length_insert.
      by apply (Forall_lookup_1 _ _ _ _ Hlen Hb').
    + intros i b Hb j Hj.
      rewrite list_lookup_imap in Hb.
      destruct (bs' !! i) as [b'|] eqn:Hb'; [|done].
      simpl in Hb. injection Hb as <-. simpl.
      pose proof (Forall_lookup_1 _ _ _ _ Hlen Hb') as Hlb. simpl in Hlb.
      unfold at_. destruct (decide (j = j')) as [->|Hne].
      * rewrite list_lookup_insert_eq by lia. simpl.
        by replace (Datatypes.S i) with (i + 1) by lia.
      * rewrite list_lookup_insert_ne by done.
        apply (Hget i b' Hb' j). lia.
Qed.

Lemma setControlPoints_column (B : Matrix Real)
  (bs : list (Basisfunction Real)) j :
  Forall (fun b => length (cp b) = cols B) bs ->
  length bs = rows B -> j < cols B ->
  (fun b => at_ (cp b) j) <$> setControlPoints B bs = mat_col B (j + 1).
Proof.
  intros Hcp Hlen Hj. apply list_eq. intros i.
  unfold mat_col. rewrite !list_lookup_fmap.
  destruct (setControlPoints_shape B bs) as [Hlen' _].
  destruct (decide (i < rows B)) as [Hi|Hi].
  - destruct (lookup_lt_is_Some_2 (setControlPoints B bs) i ltac:(lia))
      as [b Hb].
    rewrite Hb, lookup_seq_lt by done. simpl.
    rewrite (setControlPoints_entries B bs Hcp i b Hb j Hj).
    by replace (Datatypes.S i) with (i + 1) by lia.
  - rewrite (lookup_ge_None_2 (setControlPoints B bs)) by lia.
    rewrite (lookup_ge_None_2 (seq _ _)) by (rewrite length_seq; lia).
    done.
Qed.

Lemma regularInterpolation_succeeds (spl : LRSplineSurface Real)
  (upar vpar : list Real) (points X : Matrix Real) :
  lrspline patch = Some spl -> rational spl = false ->
  length upar = nBasisFunctions spl -> length vpar = nBasisFunctions spl ->
  cols points = nBasisFunctions spl ->
  solveDense svc (interpolationMatrix spl upar vpar) (mat_transpose points)
    = Some X ->
  exists ans, regularInterpolation svc patch upar vpar points = Ret (Some ans).
Proof.
  intros Hspl Hrat Hu Hv Hp HX. unfold regularInterpolation.
  rewrite Hspl, Hrat, Hu, Hv, Hp, Nat.eqb_refl. simpl. rewrite HX.
  by eexists.
Qed.

(** C7. When [regularInterpolation] succeeds on one sample parameter pair
    per basis function and the value matrix [points], the field of the
    produced mesh, evaluated at sample point k, reproduces [points(j,k)] for
    every component j, up to the tolerance [tol] within which the dense
    solver satisfies the equations of the system it was given. *)
Theorem C7_regularInterpolation_round_trip (spl ans : LRSplineSurface Real)
  (upar vpar : list Real) (points : Matrix Real)
  (tol : Real -> Real -> Prop) :
  lrspline patch = Some spl ->
  (forall u v, length (computeBasis spl u v (-1)) = nBasisFunctions spl) ->
  (forall X,
     solveDense svc (interpolationMatrix spl upar vpar) (mat_transpose points)
       = Some X ->
     forall k j, k < nBasisFunctions spl -> j < rows points ->
       tol (dot (mat_row (interpolationMatrix spl upar vpar) (k + 1))
                (mat_col X (j + 1)))
           (mget (mat_transpose points) (k + 1) (j + 1))) ->
  regularInterpolation svc patch upar vpar points = Ret (Some ans) ->
  forall k j, k < nBasisFunctions spl -> j < rows points ->
    tol (evalField ans (at_ upar k) (at_ vpar k) j)
        (mget points (j + 1) (k + 1)).
Proof.
  intros Hspl Hdense Hsolver Hok k j Hk Hj.
  unfold regularInterpolation in Hok. rewrite Hspl in Hok.
  destruct (rational spl); [done|].
  destruct (Nat.eqb_spec (length upar) (nBasisFunctions spl)) as [Hu|]; [|done].
  destruct (Nat.eqb_spec (length vpar) (nBasisFunctions spl)) as [Hv|]; [|done].
  destruct (Nat.eqb_spec (cols points) (nBasisFunctions spl)) as [Hp|]; [|done].
  simpl in Hok.
  destruct (solveDense svc _ _) as [X|] eqn:HX; [|done].
  injection Hok as <-.
  specialize (Hsolver X eq_refl k j Hk Hj).
  assert (rows X = nBasisFunctions spl /\ cols X = rows points) as [HrX HcX].
  { unfold solveDense in HX.
    destruct (denseSolve svc _ _); [|done]. by injection HX as <-. }
  rewrite mget_transpose in Hsolver by lia.
  rewrite interpolationMatrix_row in Hsolver by done.
  unfold evalField. simpl.
  rewrite setControlPoints_column.
  - exact Hsolver.
  - apply Forall_fmap, Forall_forall. intros b _. simpl.
    by rewrite length_resize.
  - rewrite length_fmap. by rewrite HrX.
  - lia.
Qed.

End RoundTrip.

Lemma Biquadratic_dense (u v : Q) : length (Biquadratic.basisQ u v (-1)) = 16.
Proof.
  unfold Biquadratic.basisQ, Biquadratic.N1d.
  by destruct (Qle_bool u (1 # 2)), (Qle_bool v (1 # 2)).
Qed.

Lemma C7_regularInterpolation_round_trip_witness :
  let svc := Biquadratic.services Biquadratic.sparseGJ Biquadratic.denseGJ in
  let f := (fun u v => u * u + 2 * v)%Q in
  let patch := Biquadratic.patchOf (Some Biquadratic.mesh)
                 (fun _ => 1 # 4)%Q f in
  let gu := (getGrevilleParameters patch [] 0).2 in
  let gv := (getGrevilleParameters patch [] 1).2 in
  let points := (Biquadratic.sample f (mkMatrix 0 0 []) Biquadratic.integrand1
                   (gu, gv)).2 in
  exists ans,
    regularInterpolation svc patch gu gv points = Ret (Some ans) /\
    Qeq (evalField ans (at_ gu 6) (at_ gv 6) 0) (mget points 1 7).
Proof.
  intros svc f patch gu gv points.
  destruct (solveDense svc (interpolationMatrix Biquadratic.mesh gu gv)
              (mat_transpose points)) as [X|] eqn:HX;
    [|vm_compute in HX; discriminate].
  destruct (regularInterpolation_succeeds svc patch Biquadratic.mesh
              gu gv points X eq_refl eq_refl eq_refl eq_refl eq_refl HX)
    as [ans Hans].
  exists ans. split; [exact Hans|].
  apply (C7_regularInterpolation_round_trip svc patch Biquadratic.mesh ans
           gu gv points Qeq eq_refl Biquadratic_dense); [|exact Hans|..].
  - intros X' HX' k j Hk Hj. rewrite HX in HX'. injection HX' as <-.
    vm_compute in HX. injection HX as <-.
    change (nBasisFunctions Biquadratic.mesh) with 16 in Hk.
    change (rows points) with 1 in Hj.
    destruct j as [|j]; [|lia].
    do 16 (destruct k as [|k]; [vm_compute; reflexivity|]). lia.
  - change (nBasisFunctions Biquadratic.mesh) with 16. lia.
  - change (rows points) with 1. lia.
Defined.

(** ** scRecovery: which elements feed the local fit *)

Lemma forEachM_ext {E S A : Type} (body body' : A -> S -> E + S) (l : list A) :
  (forall a, a ∈ l -> forall s, body' a s = body a s) ->
  forall s, forEachM body' l s = forEachM body l s.
Proof.
  induction l as [|a l IH]; intros Hext s; simpl; [done|].
  rewrite (Hext a) by apply list_elem_of_here.
  destruct (body a s); [done|].
  apply IH. intros a' Ha'. apply Hext. by apply list_elem_of_further.
Qed.


Section SupportProofs.
Context {Real : Type} `{RealOps Real}.
Variable svc : Services Real.
Variable patch : ASMu2D Real.









End SupportProofs.


(** ** evalMonomials *)

Section MonomialProofs.
Context {Real : Type} `{RealOps Real}.

Lemma vget_vset_eq (P : list Real) ip v :
  1 <= ip <= length P -> vget (vset P ip v) ip = v.
Proof.
  intros Hip. unfold vget, vset, at_. by rewrite list_lookup_insert_eq by lia.
Qed.

(** Updating one cell n times in a row. *)
Lemma cell_iter (n : nat) (g : Real -> Real) (P : list Real) ip :
  1 <= ip <= length P ->
  forRange n (fun _ P => vset P ip (g (vget P ip))) P
  = vset P ip (Nat.iter n g (vget P ip)).
Proof.
  intros Hip. induction n as [|n IH].
  - simpl. unfold forRange, vset, vget, at_. simpl.
    destruct (lookup_lt_is_Some_2 P (ip - 1) ltac:(lia)) as [v Hv].
    rewrite Hv. simpl. symmetry. by apply list_insert_id.
  - rewrite forRange_S, IH. rewrite vget_vset_eq by done.
    unfold vset. by rewrite list_insert_insert_eq.
Qed.

Lemma evalMonomials_cell (x y : Real) (P : list Real) (i j ip : nat) :
  1 <= ip <= length P -> P !! (ip - 1) = Some r1 ->
  forRange j (fun _ P => vset P ip (rmul (vget P ip) y))
    (forRange i (fun _ P => vset P ip (rmul (vget P ip) x)) P)
  = vset P ip (monomial x y i j).
Proof.
  intros Hip H1.
  rewrite (cell_iter i (fun p => rmul p x)) by done.
  rewrite (cell_iter j (fun p => rmul p y))
    by (unfold vset; rewrite length_insert; done).
  rewrite vget_vset_eq by done.
  unfold vset at 1 2. rewrite list_insert_insert_eq.
  unfold monomial, vget, at_. by rewrite H1.
Qed.

Lemma evalMonomials_loops (x y : Real) (p1 p2 len : nat) :
  p1 * p2 <= len ->
  monomials_inv x y p1 len (p2 * p1)
    (forRange p2 (fun j st =>
       forRange p1 (fun i '(P, ip) =>
         let P := forRange i (fun _ P => vset P ip (rmul (vget P ip) x)) P in
         let P := forRange j (fun _ P => vset P ip (rmul (vget P ip) y)) P in
         (P, Datatypes.S ip)) st)
       (replicate len r1, 1)).
Proof.
  intros Hlen.
  apply (forRange_inv (fun j st => monomials_inv x y p1 len (j * p1) st)).
  - simpl. split; [done|]. split; [by rewrite length_replicate|].
    split; [intros; lia|]. intros c Hc Hc'. by apply lookup_replicate_2.
  - intros j st Hj Hst.
    replace (Datatypes.S j * p1) with (j * p1 + p1) by lia.
    apply (forRange_inv (fun i st => monomials_inv x y p1 len (j * p1 + i) st)).
    + by rewrite Nat.add_0_r.
    + intros i [P ip] Hi (-> & HlenP & Hdone & Hrest).
      assert (j * p1 + i < len) as Hin.
      { assert (Datatypes.S j * p1 <= p2 * p1)
          by (apply Nat.mul_le_mono_r; lia). lia. }
      cbn zeta. rewrite evalMonomials_cell.
      * unfold monomials_inv, vset. rewrite length_insert.
        split; [lia|]. split; [done|]. split.
        -- intros j' i' Hi' Hlt.
           replace (j * p1 + i + 1 - 1) with (j * p1 + i) by lia.
           destruct (decide (j' * p1 + i' = j * p1 + i)) as [Heq|Hne].
           ++ assert (j' = j) as ->
                by (apply (lt_block_unique p1 _ _ i' i); lia).
              assert (i' = i) as -> by lia.
              by rewrite list_lookup_insert_eq by lia.
           ++ rewrite list_lookup_insert_ne by lia. apply Hdone; [done|lia].
        -- intros c Hc Hc'. rewrite list_lookup_insert_ne by lia.
           apply Hrest; lia.
      * lia.
      * replace (j * p1 + i + 1 - 1) with (j * p1 + i) by lia.
        apply Hrest; lia.
Qed.

Lemma size_t_of_int_mul (p1 p2 : Z) :
  (0 <= p1)%Z -> (0 <= p2)%Z -> (p1 * p2 < 2 ^ 64)%Z ->
  size_t_of_int (p1 * p2) = Z.to_nat p1 * Z.to_nat p2.
Proof.
  intros H1 H2 Hlt. unfold size_t_of_int.
  rewrite Z.mod_small by nia. by rewrite Z2Nat.inj_mul.
Qed.

Lemma evalMonomials_length (p1 p2 : Z) (x y : Real) :
  (0 <= p1)%Z -> (0 <= p2)%Z -> (p1 * p2 < 2 ^ 64)%Z ->
  length (evalMonomials p1 p2 x y) = size_t_of_int (p1 * p2).
Proof.
  intros H1 H2 Hlt. unfold evalMonomials.
  pose proof (evalMonomials_loops x y (Z.to_nat p1) (Z.to_nat p2)
                (size_t_of_int (p1 * p2))) as Hinv.
  rewrite size_t_of_int_mul in Hinv |- * by done.
  specialize (Hinv (Nat.le_refl _)).
  destruct (forRange _ _ _) as [P ip]. simpl. by destruct Hinv as (_ & -> & _).
Qed.

(** Entry number j*p1+i+1 of the expansion is x^i * y^j. *)
Lemma evalMonomials_entry (p1 p2 : Z) (x y : Real) (i j : nat) :
  (0 <= p1)%Z -> (0 <= p2)%Z -> (p1 * p2 < 2 ^ 64)%Z ->
  i < Z.to_nat p1 -> j < Z.to_nat p2 ->
  vget (evalMonomials p1 p2 x y) (j * Z.to_nat p1 + i + 1) = monomial x y i j.
Proof.
  intros H1 H2 Hlt Hi Hj. unfold evalMonomials.
  pose proof (evalMonomials_loops x y (Z.to_nat p1) (Z.to_nat p2)
                (size_t_of_int (p1 * p2))) as Hinv.
  rewrite size_t_of_int_mul in Hinv |- * by done.
  specialize (Hinv (Nat.le_refl _)).
  destruct (forRange _ _ _) as [P ip]. simpl.
  destruct Hinv as (_ & _ & Hdone & _).
  unfold vget, at_.
  replace (j * Z.to_nat p1 + i + 1 - 1) with (j * Z.to_nat p1 + i) by lia.
  rewrite Hdone; [done|done|].
  assert (Datatypes.S j * Z.to_nat p1 <= Z.to_nat p2 * Z.to_nat p1)
    by (apply Nat.mul_le_mono_r; lia).
  lia.
Qed.

End MonomialProofs.
(** ** scRecovery: accumulation of the local system *)

Section Accumulation.
Context {Real : Type} `{RealOps Real}.
Variable patch : ASMu2D Real.

(** The loop [for l: M(k,l) = g l M(k,l)] over the first m columns of row k
    updates each of these entries once and nothing else. *)
Lemma update_row (M : Matrix Real) (k m : nat) (g : nat -> Real -> Real) :
  mat_wf M -> 1 <= k <= rows M -> m <= cols M ->
  let M' := forRange m (fun l0 A =>
              mset A k (l0 + 1) (g (l0 + 1) (mget A k (l0 + 1)))) M in
  mat_wf M' /\ rows M' = rows M /\ cols M' = cols M /\
  (forall l, 1 <= l <= m -> mget M' k l = g l (mget M k l)) /\
  (forall r l, 1 <= r <= rows M -> 1 <= l -> r <> k \/ m < l ->
     mget M' r l = mget M r l).
Proof.
  intros Hwf Hk Hm. cbn zeta.
  assert (forall m', m' <= m ->
    let M' := forRange m' (fun l0 A =>
                mset A k (l0 + 1) (g (l0 + 1) (mget A k (l0 + 1)))) M in
    mat_wf M' /\ rows M' = rows M /\ cols M' = cols M /\
    (forall l, 1 <= l <= m' -> mget M' k l = g l (mget M k l)) /\
    (forall r l, 1 <= r <= rows M -> 1 <= l -> r <> k \/ m' < l ->
       mget M' r l = mget M r l)) as Hgen.
  { induction m' as [|m' IH]; intros Hle; cbn zeta.
    - unfold forRange. simpl. repeat split; try done. intros; lia.
    - rewrite forRange_S.
      destruct (IH ltac:(lia)) as (Hwf' & Hr' & Hc' & Hrow & Hrest).
      cbn zeta in Hwf', Hr', Hc', Hrow, Hrest.
      split; [by apply mat_wf_mset|]. split; [done|]. split; [done|]. split.
      + intros l Hl. destruct (decide (l = m' + 1)) as [->|Hne].
        * rewrite mget_mset_eq by (apply mat_idx_lt; [lia|lia|done]).
          f_equal. apply Hrest; lia.
        * rewrite mget_mset_ne; [apply Hrow; lia|].
          intros Heq. apply mat_idx_inj in Heq; lia.
      + intros r l Hr Hl Hcase. rewrite mget_mset_ne; [apply Hrest; lia|].
        intros Heq. apply mat_idx_inj in Heq; lia. }
  exact (Hgen m (Nat.le_refl _)).
Qed.

(** The state of the accumulation after all rows: rows and columns within
    the system are updated, everything else is as it was. *)
Lemma accumulate_state (nPol nCmp : nat) (P : list Real)
  (sField : Matrix Real) (ig : nat) (A B : Matrix Real) :
  mat_wf A -> rows A = nPol -> cols A = nPol ->
  mat_wf B -> rows B = nPol -> cols B = nCmp ->
  let AB' := accumulate nPol nCmp P sField ig (A, B) in
  mat_wf AB'.1 /\ rows AB'.1 = nPol /\ cols AB'.1 = nPol /\
  mat_wf AB'.2 /\ rows AB'.2 = nPol /\ cols AB'.2 = nCmp /\
  (forall k l, 1 <= k <= nPol -> 1 <= l ->
     mget AB'.1 k l
     = if decide (k <= nPol /\ l <= nPol)
       then radd (mget A k l) (rmul (vget P k) (vget P l))
       else mget A k l) /\
  (forall k l, 1 <= k <= nPol -> 1 <= l ->
     mget AB'.2 k l
     = if decide (k <= nPol /\ l <= nCmp)
       then radd (mget B k l) (rmul (vget P k) (mget sField l ig))
       else mget B k l).
Proof.
  intros HwfA HrA HcA HwfB HrB HcB. cbn zeta.
  set (Pinv := fun k' (AB' : Matrix Real * Matrix Real) =>
    mat_wf AB'.1 /\ rows AB'.1 = nPol /\ cols AB'.1 = nPol /\
    mat_wf AB'.2 /\ rows AB'.2 = nPol /\ cols AB'.2 = nCmp /\
    (forall k l, 1 <= k <= nPol -> 1 <= l ->
       mget AB'.1 k l
       = if decide (k <= k' /\ l <= nPol)
         then radd (mget A k l) (rmul (vget P k) (vget P l))
         else mget A k l) /\
    (forall k l, 1 <= k <= nPol -> 1 <= l ->
       mget AB'.2 k l
       = if decide (k <= k' /\ l <= nCmp)
         then radd (mget B k l) (rmul (vget P k) (mget sField l ig))
         else mget B k l)).
  change (Pinv nPol (accumulate nPol nCmp P sField ig (A, B))).
  unfold accumulate. apply (forRange_inv Pinv); unfold Pinv.
  - simpl. repeat split; try done.
    + intros k l Hk Hl. case_decide; [lia|done].
    + intros k l Hk Hl. case_decide; [lia|done].
  - intros k' [A' B'] Hk' (H1 & H2 & H3 & H4 & H5 & H6 & HA & HB).
    simpl in *.
    destruct (update_row A' (k' + 1) nPol
                (fun l old => radd old (rmul (vget P (k' + 1)) (vget P l)))
                H1 ltac:(lia) ltac:(lia))
      as (Ha1 & Ha2 & Ha3 & Harow & Harest).
    destruct (update_row B' (k' + 1) nCmp
                (fun l old => radd old (rmul (vget P (k' + 1)) (mget sField l ig)))
                H4 ltac:(lia) ltac:(lia))
      as (Hb1 & Hb2 & Hb3 & Hbrow & Hbrest).
    cbn zeta in *.
    split; [done|]. split; [congruence|]. split; [congruence|].
    split; [done|]. split; [congruence|]. split; [congruence|]. split.
    + intros k l Hk Hl.
      destruct (decide (k = k' + 1 /\ l <= nPol)) as [[-> Hln]|Hne].
      * rewrite Harow by lia. rewrite HA by lia.
        repeat case_decide; try lia. done.
      * rewrite Harest by lia. rewrite HA by lia.
        repeat case_decide; try lia; done.
    + intros k l Hk Hl.
      destruct (decide (k = k' + 1 /\ l <= nCmp)) as [[-> Hln]|Hne].
      * rewrite Hbrow by lia. rewrite HB by lia.
        repeat case_decide; try lia. done.
      * rewrite Hbrest by lia. rewrite HB by lia.
        repeat case_decide; try lia; done.
Qed.

Lemma fitElement_unrolled spl integrand ng1 ng2 xg yg n1' n2' nPol nCmp G el
  AB sF :
  evalSolution patch (mkMatrix 0 0 []) integrand
    (elementPoints patch ng1 ng2 (getId el + 1) xg yg).2 = (true, sF) ->
  fitElement patch spl integrand ng1 ng2 xg yg n1' n2' nPol nCmp G el AB
  = inr (foldl (fun AB q =>
                  accumulate nPol nCmp
                    (expansionAt spl n1' n2' G
                       (getGaussPointParameters patch 0 ng1 (getId el + 1) xg)
                       (getGaussPointParameters patch 1 ng2 (getId el + 1) yg)
                       (q mod Z.to_nat ng1) (q / Z.to_nat ng1))
                    sF (q + 1) AB)
               AB (seq 0 (Z.to_nat ng2 * Z.to_nat ng1))).
Proof.
  intros Hev.
  unfold fitElement, elementPoints in *. cbn [snd] in Hev.
  cbn beta iota zeta. rewrite Hev.
  rewrite (nested_counter (Z.to_nat ng1) (Z.to_nat ng2)
    (fun j i ig AB => accumulate nPol nCmp
       (expansionAt spl n1' n2' G
          (getGaussPointParameters patch 0 ng1 (getId el + 1) xg)
          (getGaussPointParameters patch 1 ng2 (getId el + 1) yg) i j)
       sF ig AB)).
  cbn [fst]. apply f_equal.
  apply foldl_ext_in. intros q AB' _. f_equal. lia.
Qed.

(** Entries of a fresh matrix. *)
Lemma mget_new (n m k l : nat) :
  1 <= k <= n -> 1 <= l <= m -> mget (mat_new n m : Matrix Real) k l = r0.
Proof.
  intros Hk Hl. unfold mget, mat_new, mat_idx, at_. simpl.
  assert (k - 1 + n * (l - 1) < n * m) as Hin.
  { assert (n * (l - 1) + n <= n * m); [|lia].
    replace (n * (l - 1) + n) with (n * l) by nia.
    apply Nat.mul_le_mono_l. lia. }
  by rewrite lookup_replicate_2.
Qed.

(** Accumulating a list of samples: every entry of the system is the sum,
    in the order of the list, of the products of the samples. *)
Lemma accumulate_fold (nPol nCmp : nat)
  (samples : list (list Real * Matrix Real * nat)) (A B : Matrix Real) :
  mat_wf A -> rows A = nPol -> cols A = nPol ->
  mat_wf B -> rows B = nPol -> cols B = nCmp ->
  let AB' := foldl (fun AB s => accumulate nPol nCmp s.1.1 s.1.2 s.2 AB)
                   (A, B) samples in
  mat_wf AB'.1 /\ rows AB'.1 = nPol /\ cols AB'.1 = nPol /\
  mat_wf AB'.2 /\ rows AB'.2 = nPol /\ cols AB'.2 = nCmp /\
  (forall k l, 1 <= k <= nPol -> 1 <= l <= nPol ->
     mget AB'.1 k l
     = foldl (fun acc s => radd acc (rmul (vget s.1.1 k) (vget s.1.1 l)))
             (mget A k l) samples) /\
  (forall k c, 1 <= k <= nPol -> 1 <= c <= nCmp ->
     mget AB'.2 k c
     = foldl (fun acc s => radd acc (rmul (vget s.1.1 k) (mget s.1.2 c s.2)))
             (mget B k c) samples).
Proof.
  revert A B. induction samples as [|[[P sF] ig] samples IH];
    intros A B HwfA HrA HcA HwfB HrB HcB; cbn zeta.
  - done.
  - cbn [foldl fst snd].
    destruct (accumulate_state nPol nCmp P sF ig A B
                HwfA HrA HcA HwfB HrB HcB)
      as (H1 & H2 & H3 & H4 & H5 & H6 & HA & HB).
    cbn zeta in H1, H2, H3, H4, H5, H6, HA, HB.
    destruct (accumulate nPol nCmp P sF ig (A, B)) as [A1 B1].
    cbn [fst snd] in *.
    destruct (IH A1 B1 H1 H2 H3 H4 H5 H6)
      as (G1 & G2 & G3 & G4 & G5 & G6 & GA & GB).
    cbn zeta in G1, G2, G3, G4, G5, G6, GA, GB.
    split; [done|]. split; [done|]. split; [done|].
    split; [done|]. split; [done|]. split; [done|]. split.
    + intros k l Hk Hl. rewrite GA, HA by lia. by case_decide; [|lia].
    + intros k c Hk Hc. rewrite GB, HB by lia. by case_decide; [|lia].
Qed.

(** The loop over the supporting elements accumulates the samples of
    [fitSamples], element after element. *)
Lemma fitElements_fold spl integrand ng1 ng2 xg yg n1 n2 nPol nCmp G
  (els : list Element) (AB AB' : Matrix Real * Matrix Real) :
  forEachM (fitElement patch spl integrand ng1 ng2 xg yg n1 n2 nPol nCmp G)
           els AB = inr AB' ->
  AB' = foldl (fun AB s => accumulate nPol nCmp s.1.1 s.1.2 s.2 AB) AB
          (fitSamples patch spl integrand ng1 ng2 xg yg n1 n2 G els).
Proof.
  revert AB. induction els as [|el els IH]; intros AB Hrun.
  - simpl in Hrun. by injection Hrun as <-.
  - cbn [forEachM] in Hrun.
    destruct (evalSolution patch (mkMatrix 0 0 []) integrand
                (elementPoints patch ng1 ng2 (getId el + 1) xg yg).2)
      as [[] sF] eqn:Hev.
    + rewrite (fitElement_unrolled spl integrand ng1 ng2 xg yg n1 n2 nPol nCmp
                 G el AB sF Hev) in Hrun.
      apply IH in Hrun. rewrite Hrun.
      unfold fitSamples at 2. rewrite bind_cons, foldl_app.
      fold (fitSamples patch spl integrand ng1 ng2 xg yg n1 n2 G els).
      f_equal. cbn zeta. rewrite foldl_fmap.
      unfold elementPoints in Hev. cbn [snd] in Hev. rewrite Hev.
      reflexivity.
    + unfold fitElement in Hrun. unfold elementPoints in *.
      cbn beta iota zeta in Hrun. cbn [snd] in Hev.
      by rewrite Hev in Hrun.
Qed.

End Accumulation.

(** ** scRecovery: the local fit *)

Section LocalFitProofs.
Context {Real : Type} `{RealOps Real}.
Variable svc : Services Real.
Variable patch : ASMu2D Real.

(** The loop [for l: M(l,c) = g l] writes column c and nothing else. *)
Lemma fill_column (n c : nat) (g : nat -> Real) (M : Matrix Real) :
  mat_wf M -> rows M = n -> 1 <= c <= cols M ->
  let M' := forRange n (fun l0 M => mset M (l0 + 1) c (g (l0 + 1))) M in
  mat_wf M' /\ rows M' = n /\ cols M' = cols M /\
  (forall l, 1 <= l <= n -> mget M' l c = g l) /\
  (forall l c', 1 <= l <= n -> 1 <= c' -> c' <> c -> mget M' l c' = mget M l c').
Proof.
  intros Hwf Hr Hc. cbn zeta.
  apply (forRange_inv (fun l' (M' : Matrix Real) =>
    mat_wf M' /\ rows M' = n /\ cols M' = cols M /\
    (forall l, 1 <= l <= l' -> mget M' l c = g l) /\
    (forall l c', 1 <= l <= n -> 1 <= c' -> c' <> c ->
       mget M' l c' = mget M l c'))).
  - repeat split; try done. intros; lia.
  - intros l' M' Hl' (Hwf' & Hr' & Hc' & Hcol & Hother).
    split; [by apply mat_wf_mset|]. split; [done|]. split; [done|]. split.
    + intros l Hl. destruct (decide (l = l' + 1)) as [->|Hne].
      * apply mget_mset_eq, mat_idx_lt; [lia|lia|done].
      * rewrite mget_mset_ne; [apply Hcol; lia|].
        intros Heq. apply mat_idx_inj in Heq; lia.
    + intros l c' Hl Hc1 Hne. rewrite mget_mset_ne; [by apply Hother|].
      intros Heq. apply mat_idx_inj in Heq; lia.
Qed.

(** The loop over the Greville points stores, in column ip+1 of [sValues],
    the first row of the solution of the local system of basis function
    number ip. *)
Lemma recoverAll_values spl integrand ng1 ng2 xg yg gpar0 gpar1
  (bs : list (Basisfunction Real)) (ip0 : nat) (sV0 : Matrix Real) n sV :
  mat_wf sV0 -> rows sV0 = getNoFields integrand ->
  ip0 + length bs <= cols sV0 ->
  forEachM (recoverAt svc patch spl integrand ng1 ng2 xg yg gpar0 gpar1)
           bs (ip0, sV0) = inr (n, sV) ->
  n = ip0 + length bs /\
  mat_wf sV /\ rows sV = getNoFields integrand /\ cols sV = cols sV0 /\
  (forall l c, 1 <= l <= getNoFields integrand -> 1 <= c <= ip0 ->
     mget sV l c = mget sV0 l c) /\
  (forall k b, bs !! k = Some b ->
     exists X,
       localSolution svc patch spl integrand ng1 ng2 xg yg
         (grevillePoint spl gpar0 gpar1 (ip0 + k)) b = Some X /\
       forall l, 1 <= l <= getNoFields integrand ->
         mget sV l (ip0 + k + 1) = mget X 1 l).
Proof.
  revert ip0 sV0. induction bs as [|b bs IH]; intros ip0 sV0 Hwf Hr Hc Hrun.
  - simpl in Hrun. injection Hrun as <- <-. simpl.
    repeat split; try done; try lia.
  - cbn [forEachM] in Hrun. unfold recoverAt at 1 in Hrun.
    destruct (localSolution svc patch spl integrand ng1 ng2 xg yg
                (grevillePoint spl gpar0 gpar1 ip0) b) as [X|] eqn:HX; [|done].
    simpl in Hc.
    destruct (fill_column (getNoFields integrand) (Datatypes.S ip0)
                (fun l => mget X 1 l) sV0 Hwf Hr ltac:(lia))
      as (Hwf1 & Hr1 & Hc1 & Hcol1 & Hother1).
    cbn zeta in Hwf1, Hr1, Hc1, Hcol1, Hother1.
    destruct (IH (Datatypes.S ip0) _ Hwf1 Hr1 ltac:(lia) Hrun)
      as (-> & HwfV & HrV & HcV & Hkeep & Hvals).
    split; [simpl; lia|]. split; [done|]. split; [done|].
    split; [congruence|]. split.
    + intros l c Hl Hcc. rewrite Hkeep by lia. apply Hother1; lia.
    + intros [|k] b' Hb'.
      * simpl in Hb'. injection Hb' as <-. exists X.
        rewrite Nat.add_0_r. split; [done|]. intros l Hl.
        rewrite Hkeep by lia.
        replace (ip0 + 1) with (Datatypes.S ip0) by lia. by apply Hcol1.
      * simpl in Hb'. destruct (Hvals k b' Hb') as (X' & HX' & Hv).
        exists X'.
        replace (ip0 + Datatypes.S k) with (Datatypes.S ip0 + k) by lia.
        split; [done|]. intros l Hl. by apply Hv.
Qed.

(** The Greville arrays are aligned with the enumeration of the basis
    functions. *)
Lemma grevillePoint_of spl ip b :
  lrspline patch = Some spl ->
  getAllBasisfunctions spl !! ip = Some b ->
  grevillePoint spl (getGrevilleParameters patch [] 0).2
                    (getGrevilleParameters patch [] 1).2 ip
  = point spl (at_ (getGrevilleParameter b) 0) (at_ (getGrevilleParameter b) 1).
Proof.
  intros Hspl Hb.
  rewrite !(getGrevilleParameters_present patch spl) by (done || lia).
  unfold grevillePoint. simpl. unfold at_ at 1 3.
  by rewrite !list_lookup_fmap, Hb.
Qed.

End LocalFitProofs.
Section LocalFitClaim.
Context {Real : Type} `{RealOps Real}.
Variable svc : Services Real.
Variable patch : ASMu2D Real.

(** C5 (as amended). In a successful [scRecovery] the local fit of every
    basis function uses nPol = n1*n2 monomials, with
    n_d = order(d) - derivativeOrder + 1 in parameter direction d, so that
    n1 = n2 exactly when the two orders agree; entry j*n1+i+1 of the
    expansion is x^i * y^j.  The local system of basis function number ip
    is assembled from these expansions, evaluated at the Gauss points of
    the elements of its extended support in the coordinates relative to the
    physical location G of its Greville point: A(k,l) is the sum of
    P(k)*P(l) and B(k,c) the sum of P(k)*sample(c), over these points in
    loop order.  The dense solver is called on this system, and the value
    recovered for component l, [sValues(l,ip+1)], is entry (1,l) of what
    the solver leaves in the right-hand side: the coefficient of the
    constant monomial. *)
Theorem C5_scRecovery_local_fit (spl ans : LRSplineSurface Real)
  (integrand : IntegrandBase) :
  lrspline patch = Some spl ->
  scRecovery svc patch integrand = Ret (Some ans) ->
  let m := derivativeOrder integrand in
  let ng1 := (order spl 0 - m)%Z in
  let ng2 := (order spl 1 - m)%Z in
  let n1 := patchSize spl integrand 0 in
  let n2 := patchSize spl integrand 1 in
  let nPol := nPolOf spl integrand in
  let nCmp := getNoFields integrand in
  let gpar0 := (getGrevilleParameters patch [] 0).2 in
  let gpar1 := (getGrevilleParameters patch [] 1).2 in
  (n1 = order spl 0 - m + 1 /\ n2 = order spl 1 - m + 1 /\
   (n1 = n2 <-> order spl 0 = order spl 1) /\
   Z.of_nat nPol = (n1 * n2) mod 2 ^ 64 /\
   (0 <= n1 * n2 < 2 ^ 64 -> Z.of_nat nPol = n1 * n2))%Z /\
  (forall x y i j,
     (0 <= n1)%Z -> (0 <= n2)%Z -> (n1 * n2 < 2 ^ 64)%Z ->
     i < Z.to_nat n1 -> j < Z.to_nat n2 ->
     length (evalMonomials n1 n2 x y) = nPol /\
     vget (evalMonomials n1 n2 x y) (j * Z.to_nat n1 + i + 1) = monomial x y i j /\
     vget (evalMonomials n1 n2 x y) 1 = r1) /\
  exists xg yg sValues,
    getCoord svc ng1 = Some xg /\
    getCoord svc ng2 = Some yg /\
    recoverAll svc patch spl integrand ng1 ng2 xg yg gpar0 gpar1
      = inr (nBasisFunctions spl, sValues) /\
    regularInterpolation svc patch gpar0 gpar1 sValues = Ret (Some ans) /\
    forall ip b, getAllBasisfunctions spl !! ip = Some b ->
      let G := point spl (at_ (getGrevilleParameter b) 0)
                         (at_ (getGrevilleParameter b) 1) in
      let samples := fitSamples patch spl integrand ng1 ng2 xg yg n1 n2 G
                       (getExtendedSupport b) in
      grevillePoint spl gpar0 gpar1 ip = G /\
      exists A B x,
        localSystem patch spl integrand ng1 ng2 xg yg G b = inr (A, B) /\
        rows A = nPol /\ cols A = nPol /\ rows B = nPol /\ cols B = nCmp /\
        (forall k l, 1 <= k <= nPol -> 1 <= l <= nPol ->
           mget A k l
           = foldl (fun acc s =>
                      radd acc (rmul (vget s.1.1 k) (vget s.1.1 l)))
                   r0 samples) /\
        (forall k c, 1 <= k <= nPol -> 1 <= c <= nCmp ->
           mget B k c
           = foldl (fun acc s =>
                      radd acc (rmul (vget s.1.1 k) (mget s.1.2 c s.2)))
                   r0 samples) /\
        denseSolve svc A B = Some x /\
        forall l, 1 <= l <= nCmp ->
          mget sValues l (ip + 1) = mget (mkMatrix nPol nCmp x) 1 l.
Proof.
  intros Hspl Hok. cbv zeta.
  split; [|split].
  - unfold nPolOf, size_t_of_int, patchSize.
    split; [done|]. split; [done|]. split; [split; lia|].
    rewrite Z2Nat.id by (apply Z.mod_pos_bound; lia).
    split; [done|]. intros Hrange. by apply Z.mod_small.
  - intros x y i j H1 H2 Hlt Hi Hj. unfold nPolOf.
    split; [by apply evalMonomials_length|].
    split; [by apply evalMonomials_entry|].
    apply (evalMonomials_entry _ _ x y 0 0); (done || lia).
  - unfold scRecovery in Hok. cbv zeta in Hok. rewrite Hspl in Hok.
    destruct (getCoord svc (order spl 0 - derivativeOrder integrand))
      as [xg|] eqn:Hx; [|done].
    destruct (getCoord svc (order spl 1 - derivativeOrder integrand))
      as [yg|] eqn:Hy; [|done].
    exists xg, yg.
    pose proof (grevillePoint_of patch spl) as Hgrev.
    rewrite !(getGrevilleParameters_present patch spl) in * by (done || lia).
    cbn [snd] in *.
    destruct (recoverAll svc patch spl integrand _ _ xg yg _ _)
      as [|[n sValues]] eqn:Hrec; [done|].
    exists sValues.
    pose proof Hrec as Hrun. unfold recoverAll in Hrun.
    apply recoverAll_values in Hrun as (-> & _ & _ & _ & _ & Hvals);
      [|apply mat_wf_new|done|simpl; rewrite length_fmap; lia].
    split; [done|]. split; [done|]. split; [done|].
    split; [done|].
    intros ip b Hb. split; [by apply Hgrev|].
    destruct (Hvals ip b Hb) as (X & HX & Hv). simpl in HX, Hv.
    rewrite (Hgrev ip b Hspl Hb) in HX.
    unfold localSolution in HX.
    destruct (localSystem patch spl integrand _ _ xg yg _ b)
      as [|[A B]] eqn:Hsys; [done|].
    pose proof Hsys as Hfold. unfold localSystem in Hfold.
    cbv zeta in Hfold. apply fitElements_fold in Hfold.
    destruct (accumulate_fold (nPolOf spl integrand) (getNoFields integrand)
                (fitSamples patch spl integrand
                   (order spl 0 - derivativeOrder integrand)
                   (order spl 1 - derivativeOrder integrand) xg yg
                   (patchSize spl integrand 0) (patchSize spl integrand 1)
                   (point spl (at_ (getGrevilleParameter b) 0)
                              (at_ (getGrevilleParameter b) 1))
                   (getExtendedSupport b))
                (mat_new (nPolOf spl integrand) (nPolOf spl integrand))
                (mat_new (nPolOf spl integrand) (getNoFields integrand))
                (mat_wf_new _ _) eq_refl eq_refl (mat_wf_new _ _)
                eq_refl eq_refl)
      as (_ & HrA & HcA & _ & HrB & HcB & HA & HB).
    cbn zeta in HrA, HcA, HrB, HcB, HA, HB.
    unfold patchElements in Hfold. rewrite <- Hfold in HrA, HcA, HrB, HcB, HA, HB.
    cbn [fst snd] in HrA, HcA, HrB, HcB, HA, HB.
    unfold solveDense in HX.
    destruct (denseSolve svc A B) as [x|] eqn:Hsolve; [|done].
    injection HX as HX. rewrite HrB, HcB in HX.
    exists A, B, x.
    split; [done|]. split; [done|]. split; [done|]. split; [done|].
    split; [done|]. split.
    { intros k l Hk Hl. rewrite HA by done. by rewrite mget_new. }
    split.
    { intros k c Hk Hc. rewrite HB by done. by rewrite mget_new. }
    split; [done|].
    intros l Hl. rewrite HX. by apply Hv.
Qed.

End LocalFitClaim.

(** C5 fails as stated: on a mesh of order 3 in the first direction and
    order 2 in the second, a recovery with derivative order 1 succeeds with
    a local fit of n1 = 3 by n2 = 2 monomials, 1, x, x^2, y, x*y, x^2*y:
    the two patch sizes differ. *)
Lemma C5_counterexample :
  let svc := Biquadratic.services Biquadratic.sparseGJ Biquadratic.denseGJ in
  let patch := QuadraticLinear.patchOf (fun u v => u * u + 2 * v)%Q in
  let spl := QuadraticLinear.mesh in
  succeeded (scRecovery svc patch Biquadratic.integrand1) = true /\
  patchSize spl Biquadratic.integrand1 0 = 3%Z /\
  patchSize spl Biquadratic.integrand1 1 = 2%Z /\
  patchSize spl Biquadratic.integrand1 0
    <> patchSize spl Biquadratic.integrand1 1 /\
  nPolOf spl Biquadratic.integrand1 = 6 /\
  evalMonomials (patchSize spl Biquadratic.integrand1 0)
                (patchSize spl Biquadratic.integrand1 1) (2 : Q) (5 : Q)
  = [1; 2; 4; 5; 10; 20]%Q.
Proof.
  repeat split; try (vm_compute; reflexivity).
  vm_compute. discriminate.
Qed.

Lemma C5_scRecovery_local_fit_witness :
  let svc := Biquadratic.services Biquadratic.sparseGJ Biquadratic.denseGJ in
  let f := (fun u v => u * u + 2 * v)%Q in
  let patch := Biquadratic.patchOf (Some Biquadratic.mesh)
                 (fun _ => 1 # 4)%Q f in
  let spl := Biquadratic.mesh in
  let b := mkBasisfunction [1 # 4; 1 # 4]%Q Biquadratic.allElements
             Biquadratic.allElements [] in
  let G := point spl (1 # 4)%Q (1 # 4)%Q in
  exists ans xg yg sValues A B x,
    scRecovery svc patch Biquadratic.integrand1 = Ret (Some ans) /\
    Z.of_nat (nPolOf spl Biquadratic.integrand1) = 9%Z /\
    vget (evalMonomials 3 3 (2 : Q) (5 : Q)) (2 * 3 + 1 + 1) = (50 : Q) /\
    localSystem patch spl Biquadratic.integrand1 2 2 xg yg G b = inr (A, B) /\
    mget A 2 3
    = foldl (fun acc s => radd acc (rmul (vget s.1.1 2) (vget s.1.1 3))) r0
        (fitSamples patch spl Biquadratic.integrand1 2 2 xg yg 3 3 G
           Biquadratic.allElements) /\
    denseSolve svc A B = Some x /\
    mget sValues 1 6 = mget (mkMatrix 9 1 x) 1 1.
Proof.
  intros svc f patch spl b G.
  destruct (succeeded_inv (scRecovery svc patch Biquadratic.integrand1))
    as [ans Hsc]; [vm_compute; reflexivity|].
  destruct (C5_scRecovery_local_fit svc patch spl ans Biquadratic.integrand1
              eq_refl Hsc)
    as ((_ & _ & _ & _ & HnPol) & Hmono & xg & yg & sValues & _ & _ & _ & _ & Hfit).
  destruct (Hfit 5 b eq_refl)
    as (_ & A & B & x & Hsys & _ & _ & _ & _ & HA & _ & Hsolve & Hval).
  exists ans, xg, yg, sValues, A, B, x.
  split; [exact Hsc|].
  split.
  { rewrite HnPol; [reflexivity|].
    vm_compute. split; [discriminate|reflexivity]. }
  split.
  { destruct (Hmono 2%Q 5%Q 1 2) as (_ & Hentry & _);
      [vm_compute; discriminate|vm_compute; discriminate|reflexivity
      |vm_compute; lia|vm_compute; lia|].
    exact Hentry. }
  split; [exact Hsys|].
  split.
  { apply (HA 2 3); vm_compute; lia. }
  split; [exact Hsolve|].
  apply (Hval 1). simpl. lia.
Defined.
(** ** Facts about the biquadratic patch *)

Lemma Biquadratic_basisQ_length (u v : Q) (iel : nat) :
  1 <= iel -> length (Biquadratic.basisQ u v (Z.of_nat iel - 1)) = 9.
Proof.
  intros Hiel. unfold Biquadratic.basisQ, Biquadratic.restrict.
  destruct (Z.ltb_spec (Z.of_nat iel - 1) 0) as [Hlt|_]; [lia|].
  by rewrite length_fmap.
Qed.

Lemma Biquadratic_rows (sparse : SparseMatrix Q -> list Q -> option (list Q))
  (dense : Matrix Q -> Matrix Q -> option (list Q)) area f
  iel gpar0 gpar1 j i :
  1 <= iel <= 4 ->
  exists row,
    MNPC (Biquadratic.patchOf (Some Biquadratic.mesh) area f) !! (iel - 1)
      = Some row /\
    length (basisAt (Biquadratic.services sparse dense) Biquadratic.mesh
              false iel gpar0 gpar1 j i).1 <= length row.
Proof.
  intros Hiel. unfold basisAt. cbn [fst computeBasis Biquadratic.mesh].
  rewrite Biquadratic_basisQ_length by lia.
  assert (iel = 1 \/ iel = 2 \/ iel = 3 \/ iel = 4)
    as [->|[->|[->| ->]]] by lia;
    (eexists; split; [reflexivity|vm_compute; lia]).
Qed.

Lemma Biquadratic_nodes_inj area f iel a b :
  1 <= iel <= 4 -> a < 9 -> b < 9 ->
  nodeOf (Biquadratic.patchOf (Some Biquadratic.mesh) area f) iel a
  = nodeOf (Biquadratic.patchOf (Some Biquadratic.mesh) area f) iel b ->
  a = b.
Proof.
  intros Hiel Ha Hb Heq.
  set (patch := Biquadratic.patchOf (Some Biquadratic.mesh) area f) in *.
  assert (NoDup (nodeOf patch iel <$> seq 0 9)) as Hnodes.
  { assert (iel = 1 \/ iel = 2 \/ iel = 3 \/ iel = 4)
      as [->|[->|[->| ->]]] by lia;
      apply (bool_decide_unpack _); vm_compute; exact I. }
  apply (NoDup_lookup (nodeOf patch iel <$> seq 0 9) a b
           (nodeOf patch iel a) Hnodes).
  - by rewrite list_lookup_fmap, lookup_seq_lt.
  - by rewrite list_lookup_fmap, lookup_seq_lt, Heq.
Qed.

Lemma Biquadratic_nodes_bound area f iel a :
  1 <= iel <= 4 -> a < 9 ->
  nodeOf (Biquadratic.patchOf (Some Biquadratic.mesh) area f) iel a < 16.
Proof.
  intros Hiel Ha.
  assert (iel = 1 \/ iel = 2 \/ iel = 3 \/ iel = 4)
    as [->|[->|[->| ->]]] by lia;
    do 9 (destruct a as [|a]; [vm_compute; lia|]); lia.
Qed.

(** * Further properties of the routines *)

(** ** expandTensorGrid: the expanded list is the tensor grid *)

Section ExpandGrid.
Context {Real : Type} `{RealOps Real}.

Lemma block_decompose (m n p : nat) :
  p < m * n -> exists a b, p = a * m + b /\ b < m /\ a < n.
Proof.
  intros Hp. assert (m <> 0) by lia.
  exists (p / m), (p mod m).
  split; [rewrite Nat.mul_comm; apply Nat.div_mod_eq|].
  split; [by apply Nat.mod_upper_bound|].
  apply Nat.Div0.div_lt_upper_bound. lia.
Qed.

Lemma bind_blocks_length {A B : Type} (g : A -> list B) (m : nat) (l : list A) :
  (forall x, length (g x) = m) -> length (l ≫= g) = length l * m.
Proof.
  intros Hlen. induction l as [|x l IH]; [done|].
  rewrite bind_cons, length_app, IH, Hlen. simpl. lia.
Qed.

(** The two outputs, read side by side, list every point of the tensor grid
    once, the first direction running fastest; with an empty direction the
    outputs are empty, whatever they held before. *)
Theorem expandTensorGrid_grid (in0 in1 out0 out1 : list Real) :
  let '(o0, o1) := expandTensorGrid in0 in1 out0 out1 in
  zip o0 o1 = (y ← in1; x ← in0; [(x, y)]) /\
  (in0 = [] \/ in1 = [] -> o0 = [] /\ o1 = []).
Proof.
  pose proof (expandTensorGrid_spec in0 in1 out0 out1) as Hspec.
  cbn zeta in Hspec.
  destruct (expandTensorGrid in0 in1 out0 out1) as [o0 o1].
  destruct Hspec as (Hl0 & Hl1 & Hlk). split.
  - apply list_eq. intros p.
    assert (forall y : Real,
              length (in0 ≫= (fun x => [(x, y)])) = length in0) as Hblock.
    { intros y. apply bind_singleton_length. }
    destruct (decide (p < length in0 * length in1)) as [Hp|Hp].
    + destruct (block_decompose _ _ _ Hp) as (a & b & -> & Hb & Ha).
      destruct (Hlk a b Hb Ha) as [E0 E1].
      rewrite lookup_zip_with, E0, E1.
      rewrite (bind_blocks_lookup _ (length in0)) by done.
      destruct (in1 !! a) as [y|] eqn:Hy.
      * simpl. rewrite bind_singleton_lookup.
        by destruct (in0 !! b).
      * by apply lookup_ge_None in Hy; lia.
    + rewrite lookup_ge_None_2.
      * symmetry. apply lookup_ge_None_2.
        rewrite (bind_blocks_length _ (length in0)) by done. lia.
      * rewrite length_zip_with. lia.
  - intros Hempty.
    assert (length in0 * length in1 = 0) as Hz
      by (destruct Hempty as [-> | ->]; simpl; lia).
    rewrite Hz in Hl0, Hl1.
    split; by apply nil_length_inv.
Qed.

End ExpandGrid.

(** ** The Gauss-point loops and the order of the expanded points *)

Section LoopOrder.
Context {Real : Type} `{RealOps Real}.
Variable svc : Services Real.
Variable patch : ASMu2D Real.

Lemma vget_vset (B : list Real) (k k' : nat) (x : Real) :
  1 <= k <= length B -> 1 <= k' ->
  vget (vset B k x) k' = if decide (k' = k) then x else vget B k'.
Proof.
  intros Hk Hk'. unfold vget, vset, at_. case_decide as Heq.
  - subst. by rewrite list_lookup_insert_eq by lia.
  - by rewrite list_lookup_insert_ne by lia.
Qed.

(** The q-th point of the expanded grid. *)
Lemma expanded_lookup (gpar0 gpar1 : list Real) (q : nat) :
  q < length gpar1 * length gpar0 ->
  (expandTensorGrid gpar0 gpar1 [] []).1 !! q
    = gpar0 !! (q mod length gpar0) /\
  (expandTensorGrid gpar0 gpar1 [] []).2 !! q
    = gpar1 !! (q / length gpar0).
Proof.
  intros Hq.
  pose proof (expandTensorGrid_spec gpar0 gpar1 [] []) as Hspec.
  cbn zeta in Hspec.
  destruct (expandTensorGrid gpar0 gpar1 [] []) as [o0 o1].
  destruct Hspec as (_ & _ & Hlk). simpl.
  destruct (block_decompose (length gpar0) (length gpar1) q ltac:(lia))
    as (a & b & -> & Hb & Ha).
  assert (length gpar0 <> 0) by lia.
  replace ((a * length gpar0 + b) / length gpar0) with a
    by (rewrite Nat.div_add_l, Nat.div_small by lia; lia).
  replace ((a * length gpar0 + b) mod length gpar0) with b
    by (rewrite Nat.add_comm, Nat.Div0.mod_add, Nat.mod_small by lia; lia).
  apply Hlk; lia.
Qed.

(** The load-vector loop of one Gauss point: with L distinct nodes below
    nnod, entry n_ii + 1 + r*nnod receives v(ii,r) once. *)
Lemma rhs_block_add (L ncomp nnod : nat) (nd : nat -> nat)
  (v : nat -> nat -> Real) (B : list Real) :
  (forall a b, a < L -> b < L -> nd a = nd b -> a = b) ->
  (forall a, a < L -> nd a < nnod) ->
  length B = nnod * ncomp ->
  let B' := forRange L (fun ii B =>
              forRange ncomp (fun r B =>
                vset B (nd ii + 1 + r * nnod)
                  (radd (vget B (nd ii + 1 + r * nnod)) (v ii r))) B) B in
  length B' = nnod * ncomp /\
  forall ii r, ii < L -> r < ncomp ->
    vget B' (nd ii + 1 + r * nnod)
    = radd (vget B (nd ii + 1 + r * nnod)) (v ii r).
Proof.
  intros Hinj Hbound HB. cbn zeta.
  set (Pin := fun (ii' r' : nat) (B' : list Real) =>
    length B' = nnod * ncomp /\
    forall ii r, ii < L -> r < ncomp ->
      vget B' (nd ii + 1 + r * nnod)
      = if decide (ii < ii' \/ (ii = ii' /\ r < r'))
        then radd (vget B (nd ii + 1 + r * nnod)) (v ii r)
        else vget B (nd ii + 1 + r * nnod)).
  assert (Pin L 0 (forRange L (fun ii B =>
              forRange ncomp (fun r B =>
                vset B (nd ii + 1 + r * nnod)
                  (radd (vget B (nd ii + 1 + r * nnod)) (v ii r))) B) B))
    as [Hlen Hin].
  { apply (forRange_inv (fun ii' B' => Pin ii' 0 B')).
    - split; [done|]. intros ii r Hii Hr. case_decide; [lia|done].
    - intros ii' B' Hii' HB'.
      assert (Pin ii' ncomp (forRange ncomp (fun r B =>
                vset B (nd ii' + 1 + r * nnod)
                  (radd (vget B (nd ii' + 1 + r * nnod)) (v ii' r))) B'))
        as [Hlen' Hin'].
      { apply (forRange_inv (fun r' B'' => Pin ii' r' B'')); [done|].
        intros r' B'' Hr' [Hlen'' Hin''].
        assert (nd ii' + 1 + r' * nnod <= nnod * ncomp) as Hk.
        { pose proof (Hbound ii' Hii').
          assert ((r' + 1) * nnod <= ncomp * nnod)
            by (apply Nat.mul_le_mono_r; lia).
          lia. }
        split; [unfold vset; by rewrite length_insert|].
        intros ii r Hii Hr.
        rewrite vget_vset by lia.
        destruct (decide (nd ii + 1 + r * nnod = nd ii' + 1 + r' * nnod))
          as [Heq|Hne].
        - assert (r = r').
          { apply (lt_block_unique nnod r r' (nd ii) (nd ii'));
              [by apply Hbound|by apply Hbound|lia]. }
          subst r'.
          assert (ii = ii') as <- by (apply Hinj; lia).
          rewrite Hin'' by done.
          repeat case_decide; try lia; done.
        - rewrite Hin'' by done.
          assert (~ (ii = ii' /\ r = r')) by (intros [-> ->]; done).
          repeat case_decide; try lia; done. }
      split; [done|].
      intros ii r Hii Hr. rewrite Hin' by done.
      repeat case_decide; try lia; done. }
  split; [done|].
  intros ii r Hii Hr. rewrite Hin by done. case_decide; [done|lia].
Qed.

(** One pass of the integration loop, seen from the load vector. *)
Lemma integratePoint_rhs spl continuous iel dA wg Xnod nnod ncomp
  gpar0 gpar1 sField j i ip (A : SparseMatrix Real) (B : list Real) (L : nat) :
  let phi := (basisAt svc spl continuous iel gpar0 gpar1 j i).1 in
  let dJw := jacobianWeight svc continuous dA wg Xnod
               (basisAt svc spl continuous iel gpar0 gpar1 j i).2 j i in
  length phi = L ->
  (forall a b, a < L -> b < L ->
     nodeOf patch iel a = nodeOf patch iel b -> a = b) ->
  (forall a, a < L -> nodeOf patch iel a < nnod) ->
  length B = nnod * ncomp ->
  let AB' := integratePoint svc patch spl continuous iel dA wg Xnod nnod ncomp
               gpar0 gpar1 sField j i ip (A, B) in
  length AB'.2 = nnod * ncomp /\
  forall ii r, ii < L -> r < ncomp ->
    vget AB'.2 (nodeOf patch iel ii + 1 + r * nnod)
    = if continuous && req dJw r0
      then vget B (nodeOf patch iel ii + 1 + r * nnod)
      else radd (vget B (nodeOf patch iel ii + 1 + r * nnod))
             (rmul (rmul (at_ phi ii) (mget sField (r + 1) (ip + 1))) dJw).
Proof.
  cbn zeta. intros Hphi Hinj Hbound HB. unfold integratePoint.
  destruct (basisAt svc spl continuous iel gpar0 gpar1 j i) as [phi dNdu].
  cbn [fst snd] in *.
  set (dJw := jacobianWeight svc continuous dA wg Xnod dNdu j i).
  destruct (continuous && req dJw r0); [done|].
  set (fA := fun ii (A : SparseMatrix Real) =>
    forRange (length phi) (fun jj A =>
      sparse_add A (nodeOf patch iel ii + 1) (nodeOf patch iel jj + 1)
        (rmul (rmul (at_ phi ii) (at_ phi jj)) dJw)) A).
  set (fB := fun ii (B : list Real) =>
    forRange ncomp (fun r B =>
      vset B (nodeOf patch iel ii + 1 + r * nnod)
        (radd (vget B (nodeOf patch iel ii + 1 + r * nnod))
           (rmul (rmul (at_ phi ii) (mget sField (r + 1) (ip + 1))) dJw)))
      B).
  change (forRange (length phi) _ (A, B))
    with (forRange (length phi) (fun ii '(A, B) => (fA ii A, fB ii B)) (A, B)).
  rewrite forRange_pair. cbn [snd]. unfold fB. rewrite Hphi.
  exact (rhs_block_add L ncomp nnod (nodeOf patch iel)
           (fun ii r => rmul (rmul (at_ phi ii) (mget sField (r + 1) (ip + 1)))
                          dJw) B Hinj Hbound HB).
Qed.

Lemma integrateElement_unrolled spl continuous iel dA wg Xnod nnod ncomp
  ng1 ng2 gpar0 gpar1 sField AB :
  integrateElement svc patch spl continuous iel dA wg Xnod nnod ncomp
                   ng1 ng2 gpar0 gpar1 sField AB
  = foldl (fun AB q =>
             integratePoint svc patch spl continuous iel dA wg Xnod
               nnod ncomp gpar0 gpar1 sField
               (q / Z.to_nat ng1) (q mod Z.to_nat ng1) q AB)
          AB (seq 0 (Z.to_nat ng2 * Z.to_nat ng1)).
Proof.
  unfold integrateElement.
  by rewrite (nested_counter (Z.to_nat ng1) (Z.to_nat ng2)
    (fun j i ip AB => integratePoint svc patch spl continuous iel dA wg Xnod
                        nnod ncomp gpar0 gpar1 sField j i ip AB)).
Qed.

(** The Gauss-point loops visit the points in the order of the expanded
    grid.  In [globalL2projection], entry n + 1 + r*nnod of the load vector,
    n the node of local function ii, accumulates over the passes q = 0, 1,
    ... the value of function ii at the q-th point of the grid that
    [expandTensorGrid] hands to the field evaluator, times entry (r+1, q+1)
    of the sample matrix, times the weight of Gauss point
    (q mod ng1, q / ng1); a pass whose weight is zero is skipped in
    continuous mode.  In [scRecovery] the q-th pass evaluates the monomials
    at Gauss point (q mod ng1, q / ng1) and accumulates them with sample
    column q+1.  The q-th point of the expanded grid is
    (gpar0[q mod ng1], gpar1[q / ng1]). *)
Theorem gauss_loops_follow_expansion (spl : LRSplineSurface Real)
  (integrand : IntegrandBase) (continuous : bool) (iel : nat) (dA : Real)
  (wg : list Real) (Xnod : Matrix Real) (nnod ncomp L : nat) (ng1 ng2 : Z)
  (gpar0 gpar1 : list Real) (sField : Matrix Real) :
  let n1 := Z.to_nat ng1 in
  let n2 := Z.to_nat ng2 in
  let u q := at_ (expandTensorGrid gpar0 gpar1 [] []).1 q in
  let v q := at_ (expandTensorGrid gpar0 gpar1 [] []).2 q in
  let basisOf q :=
    if continuous
    then extractBasis svc
           (computeBasisDerivs spl (u q) (v q) (Z.of_nat iel - 1))
    else (computeBasis spl (u q) (v q) (Z.of_nat iel - 1), mat_new 0 0) in
  let dJw q :=
    if continuous
    then rmul (rmul (rmul dA (at_ wg (q mod n1))) (at_ wg (q / n1)))
              (Jacobian svc (basisOf q).2 Xnod)
    else r1 in
  length gpar0 = n1 -> length gpar1 = n2 ->
  (forall q, q < n2 * n1 -> length (basisOf q).1 = L) ->
  (forall a b, a < L -> b < L ->
     nodeOf patch iel a = nodeOf patch iel b -> a = b) ->
  (forall a, a < L -> nodeOf patch iel a < nnod) ->
  (forall A B ii r,
     length B = nnod * ncomp -> ii < L -> r < ncomp ->
     vget (integrateElement svc patch spl continuous iel dA wg Xnod nnod ncomp
                            ng1 ng2 gpar0 gpar1 sField (A, B)).2
          (nodeOf patch iel ii + 1 + r * nnod)
     = foldl (fun acc q =>
                if continuous && req (dJw q) r0 then acc
                else radd acc
                       (rmul (rmul (at_ (basisOf q).1 ii)
                                   (mget sField (r + 1) (q + 1)))
                             (dJw q)))
             (vget B (nodeOf patch iel ii + 1 + r * nnod))
             (seq 0 (n2 * n1))) /\
  (forall xg yg el n1' n2' nPol nCmp G AB sF,
     let gaussPt0 := getGaussPointParameters patch 0 ng1 (getId el + 1) xg in
     let gaussPt1 := getGaussPointParameters patch 1 ng2 (getId el + 1) yg in
     evalSolution patch (mkMatrix 0 0 []) integrand
       (expandTensorGrid gaussPt0 gaussPt1 [] []) = (true, sF) ->
     fitElement patch spl integrand ng1 ng2 xg yg n1' n2' nPol nCmp G el AB
     = inr (foldl (fun AB q =>
                     let X := point spl (at_ gaussPt0 (q mod n1))
                                        (at_ gaussPt1 (q / n1)) in
                     accumulate nPol nCmp
                       (evalMonomials n1' n2' (rsub (at_ X 0) (at_ G 0))
                                              (rsub (at_ X 1) (at_ G 1)))
                       sF (q + 1) AB)
                  AB (seq 0 (n2 * n1)))) /\
  (forall q, q < n2 * n1 ->
     (expandTensorGrid gpar0 gpar1 [] []).1 !! q = gpar0 !! (q mod n1) /\
     (expandTensorGrid gpar0 gpar1 [] []).2 !! q = gpar1 !! (q / n1)).
Proof.
  intros n1 n2 u v basisOf dJw H0 H1 HL Hinj Hbound.
  assert (forall q, q < n2 * n1 ->
            u q = at_ gpar0 (q mod n1) /\ v q = at_ gpar1 (q / n1)) as Huv.
  { intros q Hq. unfold u, v, at_.
    destruct (expanded_lookup gpar0 gpar1 q) as [-> ->];
      [by rewrite H0, H1|]. by rewrite H0. }
  assert (forall q, q < n2 * n1 ->
            basisOf q = basisAt svc spl continuous iel gpar0 gpar1
                                (q / n1) (q mod n1)) as Hbasis.
  { intros q Hq. unfold basisOf, basisAt.
    destruct (Huv q Hq) as [-> ->]. done. }
  split; [|split].
  - intros A B ii r HB Hii Hr.
    rewrite integrateElement_unrolled. fold n1 n2.
    assert (forall m, m <= n2 * n1 ->
      let AB' := foldl (fun AB q =>
                   integratePoint svc patch spl continuous iel dA wg Xnod
                     nnod ncomp gpar0 gpar1 sField (q / n1) (q mod n1) q AB)
                   (A, B) (seq 0 m) in
      length AB'.2 = nnod * ncomp /\
      vget AB'.2 (nodeOf patch iel ii + 1 + r * nnod)
      = foldl (fun acc q =>
                 if continuous && req (dJw q) r0 then acc
                 else radd acc
                        (rmul (rmul (at_ (basisOf q).1 ii)
                                    (mget sField (r + 1) (q + 1)))
                              (dJw q)))
              (vget B (nodeOf patch iel ii + 1 + r * nnod))
              (seq 0 m)) as Hgen.
    { induction m as [|m IH]; intros Hm; cbn zeta; [done|].
      destruct (IH ltac:(lia)) as [Hlen Hval]. cbn zeta in Hlen, Hval.
      rewrite !seq_S, !foldl_app. cbn [foldl Nat.add].
      destruct (foldl _ (A, B) (seq 0 m)) as [Am Bm]. cbn [snd] in Hlen, Hval.
      pose proof (integratePoint_rhs spl continuous iel dA wg Xnod nnod ncomp
                    gpar0 gpar1 sField (m / n1) (m mod n1) m Am Bm L) as Hpt.
      cbn zeta in Hpt. rewrite <- Hbasis in Hpt by lia.
      destruct (Hpt (HL m ltac:(lia)) Hinj Hbound Hlen) as [Hlen' Hval'].
      split; [exact Hlen'|].
      rewrite (Hval' ii r Hii Hr), Hval.
      unfold dJw at 3 6. unfold jacobianWeight.
      by destruct continuous. }
    exact (proj2 (Hgen (n2 * n1) (Nat.le_refl _))).
  - intros xg yg el n1' n2' nPol nCmp G AB sF gaussPt0 gaussPt1 Hev.
    by apply fitElement_unrolled.
  - intros q Hq. rewrite <- H0.
    apply expanded_lookup. by rewrite H0, H1.
Qed.

End LoopOrder.

Lemma gauss_loops_follow_expansion_witness :
  let svc := Biquadratic.services Biquadratic.sparseGJ Biquadratic.denseGJ in
  let patch := Biquadratic.patchOf (Some Biquadratic.mesh)
                 (fun _ => 1 # 4)%Q (fun u v => u * u + 2 * v)%Q in
  let xg := [-(1 # 2); 1 # 2]%Q in
  let gpar0 := getGaussPointParameters patch 0 2 1 xg in
  let gpar1 := getGaussPointParameters patch 1 2 1 xg in
  let grid := expandTensorGrid gpar0 gpar1 [] [] in
  let sF := (evalSolution patch (mkMatrix 0 0 []) Biquadratic.integrand1
               grid).2 in
  let k := nodeOf patch 1 4 + 1 + 0 * 16 in
  vget (integrateElement svc patch Biquadratic.mesh false 1 0%Q []
          (mat_new 0 0) 16 1 2 2 gpar0 gpar1 sF
          (sparse_new 16 16, replicate (16 * 1) 0%Q)).2 k
  = foldl (fun acc q =>
             radd acc
               (rmul (rmul (at_ (computeBasis Biquadratic.mesh
                                   (at_ grid.1 q) (at_ grid.2 q)
                                   (Z.of_nat 1 - 1)) 4)
                           (mget sF (0 + 1) (q + 1)))
                     r1))
          (vget (replicate (16 * 1) 0%Q) k) (seq 0 (2 * 2)) /\
  grid.1 !! 3 = gpar0 !! (3 mod 2) /\ grid.2 !! 3 = gpar1 !! (3 / 2).
Proof.
  intros svc patch xg gpar0 gpar1 grid sF k.
  assert (length gpar0 = Z.to_nat 2) as H0 by reflexivity.
  assert (length gpar1 = Z.to_nat 2) as H1 by reflexivity.
  pose proof (gauss_loops_follow_expansion svc patch Biquadratic.mesh
                Biquadratic.integrand1 false 1 0%Q [] (mat_new 0 0)
                16 1 9 2 2 gpar0 gpar1 sF) as Hthm.
  cbv beta iota zeta delta [andb] in Hthm.
  destruct (Hthm H0 H1) as (Hrhs & _ & Hpts).
  - intros q _. cbn [fst computeBasis Biquadratic.mesh].
    apply (Biquadratic_basisQ_length _ _ 1). lia.
  - intros a b Ha Hb. apply Biquadratic_nodes_inj; lia.
  - intros a Ha. apply Biquadratic_nodes_bound; lia.
  - split.
    + apply (Hrhs (sparse_new 16 16) (replicate (16 * 1) 0%Q) 4 0);
        [reflexivity|lia|lia].
    + apply (Hpts 3). change (Z.to_nat 2) with 2. lia.
Defined.

(** ** globalL2projection: what success stores and why it can fail *)

Section StoreFacts.
Context {Real : Type} `{RealOps Real}.

(** The double loop [for i, for j: M(j+1,i+1) = f j i], columns outermost,
    over a matrix of n rows and m columns writes every entry. *)
Lemma fill_by_columns (n m : nat) (f : nat -> nat -> Real) (M : Matrix Real) :
  mat_wf M -> rows M = n -> cols M = m ->
  let M' := forRange m (fun i A =>
              forRange n (fun j A => mset A (j + 1) (i + 1) (f j i)) A) M in
  mat_wf M' /\ rows M' = n /\ cols M' = m /\
  forall j i, j < n -> i < m -> mget M' (j + 1) (i + 1) = f j i.
Proof.
  intros Hwf Hr Hc. cbn zeta.
  apply (forRange_inv (fun i' (A : Matrix Real) =>
    mat_wf A /\ rows A = n /\ cols A = m /\
    forall j i, j < n -> i < i' -> mget A (j + 1) (i + 1) = f j i)).
  - repeat split; try done. intros; lia.
  - intros i' A Hi' (HwfA & HrA & HcA & HA).
    assert (Hinner :
      let A' := forRange n (fun j A => mset A (j + 1) (i' + 1) (f j i')) A in
      mat_wf A' /\ rows A' = n /\ cols A' = m /\
      forall j i, j < n -> i < Datatypes.S i' ->
        (i < i' \/ j < n) -> mget A' (j + 1) (i + 1) = f j i).
    { cbn zeta.
      apply (forRange_inv (fun j' (A' : Matrix Real) =>
        mat_wf A' /\ rows A' = n /\ cols A' = m /\
        forall j i, j < n -> i < Datatypes.S i' ->
          (i < i' \/ j < j') -> mget A' (j + 1) (i + 1) = f j i)).
      - split; [done|]. split; [done|]. split; [done|].
        intros j i Hj Hi [Hlt|Hlt]; [|lia]. by apply HA.
      - intros j' A' Hj' (Hwf' & Hr' & Hc' & Hget).
        split; [by apply mat_wf_mset|]. split; [done|]. split; [done|].
        intros j i Hj Hi Hcase.
        destruct (decide (j = j' /\ i = i')) as [[-> ->]|Hne].
        + apply mget_mset_eq, mat_idx_lt; [lia|lia|done].
        + rewrite mget_mset_ne.
          * apply Hget; lia.
          * intros Heq. apply mat_idx_inj in Heq; lia. }
    cbn zeta in Hinner. destruct Hinner as (Hwf' & Hr' & Hc' & Hget).
    repeat split; try done. intros j i Hj Hi. apply Hget; lia.
Qed.

(** A well-formed matrix is its list of entries, column by column. *)
Lemma mat_elem_lookup (M : Matrix Real) a b :
  mat_wf M -> b < rows M -> a < cols M ->
  elem M !! (a * rows M + b) = Some (mget M (b + 1) (a + 1)).
Proof.
  intros Hwf Hb Ha. unfold mget, mat_idx, at_.
  replace (b + 1 - 1 + rows M * (a + 1 - 1)) with (a * rows M + b) by lia.
  destruct (lookup_lt_is_Some_2 (elem M) (a * rows M + b)) as [x ->]; [|done].
  rewrite Hwf.
  assert (Datatypes.S a * rows M <= cols M * rows M)
    by (apply Nat.mul_le_mono_r; lia).
  lia.
Qed.

(** After [sField.resize(ncomp,nnod)] and the copy loop, the matrix holds the
    solution vector and nothing else: entry (j,i) is B(i+(j-1)*nnod). *)
Lemma storeControlValues_layout (ncomp nnod : nat) (B : list Real)
  (sField : Matrix Real) :
  storeControlValues ncomp nnod B sField
  = mkMatrix ncomp nnod
      (i ← seq 0 nnod; j ← seq 0 ncomp; [vget B (i + 1 + j * nnod)]).
Proof.
  unfold storeControlValues.
  destruct (fill_by_columns ncomp nnod
              (fun j i => vget B (i + 1 + j * nnod))
              (mat_resize ncomp nnod sField)) as (Hwf & Hr & Hc & Hget);
    [unfold mat_wf, mat_resize; simpl; by rewrite length_resize|done|done|].
  cbn zeta in Hwf, Hr, Hc, Hget.
  destruct (forRange nnod _ _) as [r c el] eqn:HM. simpl in Hr, Hc. subst r c.
  f_equal. apply list_eq. intros p.
  assert (forall i : nat,
            length (seq 0 ncomp ≫= (fun j => [vget B (i + 1 + j * nnod)]))
            = ncomp) as Hblock.
  { intros i. by rewrite bind_singleton_length, length_seq. }
  destruct (decide (p < ncomp * nnod)) as [Hp|Hp].
  - destruct (block_decompose _ _ _ Hp) as (a & b & -> & Hb & Ha).
    pose proof (mat_elem_lookup (mkMatrix ncomp nnod el) a b Hwf Hb Ha) as Hlk.
    simpl in Hlk. rewrite Hlk, (Hget b a Hb Ha).
    rewrite (bind_blocks_lookup _ ncomp) by done.
    rewrite lookup_seq_lt by done. simpl.
    by rewrite bind_singleton_lookup, lookup_seq_lt by done.
  - rewrite lookup_ge_None_2 by (unfold mat_wf in Hwf; simpl in Hwf; lia).
    symmetry. apply lookup_ge_None_2.
    rewrite (bind_blocks_length _ ncomp), length_seq by done. lia.
Qed.

End StoreFacts.

Section GlobalL2Outcome.
Context {Real : Type} `{RealOps Real}.
Variable svc : Services Real.
Variable patch : ASMu2D Real.

Lemma numbered_range (els : list Element) iel el :
  (iel, el) ∈ numbered els -> 1 <= iel <= length els.
Proof.
  intros Hin. apply list_elem_of_lookup_1 in Hin as [k Hk].
  unfold numbered in Hk. apply lookup_zip_with_Some in Hk
    as (iel' & el' & Heq & Hseq & _).
  injection Heq as -> ->. apply lookup_seq in Hseq. lia.
Qed.

Lemma elementGeometry_None_inv continuous iel :
  elementGeometry patch continuous iel = None ->
  continuous = true /\
  (getElementCoordinates patch (Z.of_nat iel) = None \/
   rlt (rmul r025 (getParametricArea patch (Z.of_nat iel))) r0 = true).
Proof.
  unfold elementGeometry. destruct continuous; [|done].
  destruct (getElementCoordinates patch _); [|by auto].
  destruct (rlt _ _) eqn:Hlt; [by auto|done].
Qed.

(** A successful projection of a present mesh went through every element,
    solved the assembled system, and returns the solution and nothing else:
    a matrix of ncomp rows and nnod columns whose entry (j,i) is
    B(i+(j-1)*nnod); no sample of the field evaluator survives in it. *)
Theorem globalL2projection_success (sField M : Matrix Real)
  (integrand : IntegrandBase) (continuous : bool) :
  globalL2projection svc patch sField integrand continuous = (true, M) ->
  (lrspline patch = None /\ M = sField) \/
  exists spl xg yg A B X,
    let ng1 := if continuous then nGauss patch else (order spl 0 - 1)%Z in
    let ng2 := if continuous then nGauss patch else (order spl 1 - 1)%Z in
    let wg := if continuous then getWeight svc (nGauss patch) else None in
    lrspline patch = Some spl /\
    getCoord svc ng1 = Some xg /\ getCoord svc ng2 = Some yg /\
    (continuous = true -> is_Some wg) /\
    assembleSystem svc patch spl integrand continuous ng1 ng2 xg yg
                   (default [] wg) sField
    = inr (A, B, samplesAfter patch integrand ng1 ng2 xg yg
                   (numbered (elements spl)) sField) /\
    sparseSolve svc A B = Some X /\
    M = mkMatrix (getNoFields integrand) (getNoNodes patch)
          (i ← seq 0 (getNoNodes patch); j ← seq 0 (getNoFields integrand);
           [vget X (i + 1 + j * getNoNodes patch)]).
Proof.
  unfold globalL2projection.
  destruct (lrspline patch) as [spl|]; [|intros [= <-]; by left].
  intros Hok. right.
  set (ng1 := if continuous then nGauss patch else (order spl 0 - 1)%Z) in *.
  set (ng2 := if continuous then nGauss patch else (order spl 1 - 1)%Z) in *.
  set (wg := if continuous then getWeight svc (nGauss patch) else None) in *.
  destruct (getCoord svc ng1) as [xg|] eqn:Hx; [|done].
  destruct (getCoord svc ng2) as [yg|] eqn:Hy; [|done].
  destruct (continuous && negb (bool_decide (is_Some wg))) eqn:Hw; [done|].
  unfold assembleSystem in *.
  pose proof (assemble_samples svc patch spl integrand continuous ng1 ng2
    xg yg (default [] wg) (getNoNodes patch) (getNoFields integrand)
    (numbered (elements spl))
    (sparse_new (getNoNodes patch) (getNoNodes patch),
     replicate (getNoNodes patch * getNoFields integrand) r0) sField) as Hs.
  destruct (forEachM _ _ _) as [s'|[[A B] s']] eqn:Hloop; [done|].
  destruct (sparseSolve svc A B) as [X|] eqn:HX; [|done].
  injection Hok as <-. subst s'.
  exists spl, xg, yg, A, B, X. cbn zeta.
  split; [done|]. split; [done|]. split; [done|]. split.
  { intros ->. simpl in Hw. apply negb_false_iff in Hw.
    by apply bool_decide_eq_true_1 in Hw. }
  split; [exact Hloop|]. split; [done|].
  apply storeControlValues_layout.
Qed.

(** The complete list of reasons for a failed projection: a missing
    quadrature table entry; in continuous mode, an element whose coordinates
    cannot be extracted or whose scaled area is negative; a failure of the
    field evaluator on the points of an element; or a failure of the sparse
    solver on the assembled system. *)
Theorem globalL2projection_failure_causes (sField : Matrix Real)
  (integrand : IntegrandBase) (continuous : bool) :
  (globalL2projection svc patch sField integrand continuous).1 = false ->
  exists spl,
    let ng1 := if continuous then nGauss patch else (order spl 0 - 1)%Z in
    let ng2 := if continuous then nGauss patch else (order spl 1 - 1)%Z in
    let wg := if continuous then getWeight svc (nGauss patch) else None in
    lrspline patch = Some spl /\
    ((getCoord svc ng1 = None \/ getCoord svc ng2 = None \/
      (continuous = true /\ getWeight svc (nGauss patch) = None)) \/
     (exists iel, 1 <= iel <= length (elements spl) /\ continuous = true /\
        (getElementCoordinates patch (Z.of_nat iel) = None \/
         rlt (rmul r025 (getParametricArea patch (Z.of_nat iel))) r0 = true)) \/
     (exists xg yg iel sF,
        getCoord svc ng1 = Some xg /\ getCoord svc ng2 = Some yg /\
        1 <= iel <= length (elements spl) /\
        (evalSolution patch sF integrand
           (elementPoints patch ng1 ng2 (Z.of_nat iel) xg yg).2).1 = false) \/
     (exists xg yg A B s,
        getCoord svc ng1 = Some xg /\ getCoord svc ng2 = Some yg /\
        assembleSystem svc patch spl integrand continuous ng1 ng2 xg yg
                       (default [] wg) sField = inr (A, B, s) /\
        sparseSolve svc A B = None)).
Proof.
  unfold globalL2projection.
  destruct (lrspline patch) as [spl|]; [|done].
  intros Hfail. exists spl.
  set (ng1 := if continuous then nGauss patch else (order spl 0 - 1)%Z) in *.
  set (ng2 := if continuous then nGauss patch else (order spl 1 - 1)%Z) in *.
  set (wg := if continuous then getWeight svc (nGauss patch) else None) in *.
  split; [done|].
  destruct (getCoord svc ng1) as [xg|] eqn:Hx; [|by left; left].
  destruct (getCoord svc ng2) as [yg|] eqn:Hy; [|by left; right; left].
  destruct (continuous && negb (bool_decide (is_Some wg))) eqn:Hw.
  { left. right. right. apply andb_true_iff in Hw as [-> Hw]. split; [done|].
    apply negb_true_iff, bool_decide_eq_false_1 in Hw.
    subst wg. simpl in Hw. destruct (getWeight svc (nGauss patch)); [|done].
    exfalso. apply Hw. by eexists. }
  destruct (assembleSystem svc patch spl integrand continuous ng1 ng2 xg yg
              (default [] wg) sField) as [s'|[[A B] s']] eqn:Hloop.
  - right. unfold assembleSystem in Hloop.
    apply forEachM_inl in Hloop
      as (pre & [iel el] & post & [AB sF] & Hsplit & _ & Hbody).
    assert ((iel, el) ∈ numbered (elements spl)) as Hin.
    { rewrite Hsplit. apply elem_of_app. right. apply list_elem_of_here. }
    apply numbered_range in Hin.
    unfold assembleElement in Hbody.
    destruct (elementGeometry patch continuous iel) as [[Xnod dA]|] eqn:Hgeo.
    + right. left. exists xg, yg, iel, sF.
      split; [done|]. split; [done|]. split; [done|].
      unfold elementPoints in *. cbn beta iota zeta in Hbody. cbn [snd].
      by destruct (evalSolution patch sF integrand _) as [[] ?].
    + left. exists iel. split; [done|].
      by apply elementGeometry_None_inv.
  - right. right. right. exists xg, yg, A, B, s'.
    split; [done|]. split; [done|]. split; [done|].
    by destruct (sparseSolve svc A B).
Qed.

End GlobalL2Outcome.

Lemma globalL2projection_success_witness :
  let svc := Biquadratic.services Biquadratic.sparseGJ Biquadratic.denseGJ in
  let patch := Biquadratic.patchOf (Some Biquadratic.mesh)
                 (fun _ => 1 # 4)%Q (fun u v => u * u + 2 * v)%Q in
  exists M,
    globalL2projection svc patch (mkMatrix 1 2 [5; 7]%Q)
                       Biquadratic.integrand1 true = (true, M) /\
    rows M = 1 /\ cols M = 16.
Proof.
  intros svc patch.
  destruct (globalL2projection svc patch (mkMatrix 1 2 [5; 7]%Q)
              Biquadratic.integrand1 true) as [ok M] eqn:Hrun.
  assert (ok = true) as ->.
  { change ok with (ok, M).1. rewrite <- Hrun. vm_compute. reflexivity. }
  exists M. split; [reflexivity|].
  destruct (globalL2projection_success svc patch (mkMatrix 1 2 [5; 7]%Q) M
              Biquadratic.integrand1 true Hrun)
    as [[Hnull _]|(spl & xg & yg & A & B & X & _ & _ & _ & _ & _ & _ & ->)].
  - discriminate Hnull.
  - split; reflexivity.
Defined.

Lemma globalL2projection_failure_causes_witness :
  let svc := Biquadratic.services Biquadratic.noSolve Biquadratic.denseGJ in
  let patch := Biquadratic.patchOf (Some Biquadratic.mesh)
                 (fun _ => 1 # 4)%Q (fun _ _ => 3%Q) in
  exists spl, lrspline patch = Some spl.
Proof.
  intros svc patch.
  assert ((globalL2projection svc patch (mkMatrix 0 0 [])
             Biquadratic.integrand1 false).1 = false) as Hfail
    by (vm_compute; reflexivity).
  destruct (globalL2projection_failure_causes svc patch (mkMatrix 0 0 [])
              Biquadratic.integrand1 false Hfail) as (spl & Hspl & _).
  by exists spl.
Defined.

(** ** globalL2projection: discrete mode, and the shape of the system *)

Lemma forEachM_inv {E S A : Type} (P : S -> Prop) (body : A -> S -> E + S)
  (l : list A) (s s' : S) :
  P s ->
  (forall a s s', a ∈ l -> P s -> body a s = inr s' -> P s') ->
  forEachM body l s = inr s' -> P s'.
Proof.
  revert s. induction l as [|a l IH]; intros s Hs Hstep; simpl.
  - by intros [= <-].
  - destruct (body a s) as [e|s1] eqn:Hb; [done|].
    apply IH.
    + apply (Hstep a s); [apply list_elem_of_here|done|done].
    + intros a' t t' Ha'. apply Hstep. by apply list_elem_of_further.
Qed.

Section DiscreteMode.
Context {Real : Type} `{RealOps Real}.
Variable svc : Services Real.
Variable patch : ASMu2D Real.

(** In discrete mode the projection never consults the nodal coordinates,
    the parametric areas, [nGauss], the weight table, the basis derivatives
    or the Jacobian: replacing all of them changes nothing. *)
Theorem discrete_projection_ignores_geometry (nG : Z)
  (coords : Z -> option (Matrix Real)) (area : Z -> Real)
  (weights : Z -> option (list Real))
  (extract : BasisDerivsSf Real -> list Real * Matrix Real)
  (jac : Matrix Real -> Matrix Real -> Real)
  (sField : Matrix Real) (integrand : IntegrandBase) :
  globalL2projection (withContinuousServices weights extract jac svc)
                     (withGeometry nG coords area patch)
                     sField integrand false
  = globalL2projection svc patch sField integrand false.
Proof.
  unfold globalL2projection. simpl.
  destruct (lrspline patch) as [spl|]; [|done].
  destruct (getCoord svc (order spl 0 - 1)) as [xg|]; [|done].
  destruct (getCoord svc (order spl 1 - 1)) as [yg|]; [|done].
  simpl.
  assert (assembleSystem (withContinuousServices weights extract jac svc)
            (withGeometry nG coords area patch) spl integrand false
            (order spl 0 - 1) (order spl 1 - 1) xg yg [] sField
          = assembleSystem svc patch spl integrand false
            (order spl 0 - 1) (order spl 1 - 1) xg yg [] sField) as ->.
  { unfold assembleSystem. apply forEachM_ext.
    intros [iel el] _ [AB sF]. reflexivity. }
  reflexivity.
Qed.

End DiscreteMode.

Section SystemShape.
Context {Real : Type} `{RealOps Real}.
Variable svc : Services Real.
Variable patch : ASMu2D Real.

Lemma sparse_add_entries (A : SparseMatrix Real) i j x r c :
  is_Some (selem (sparse_add A i j x) !! (r, c)) ->
  (r, c) = (i, j) \/ is_Some (selem A !! (r, c)).
Proof.
  unfold sparse_add. simpl. rewrite lookup_insert_is_Some.
  intros [<-|[_ Hs]]; auto.
Qed.

Lemma nodeOf_elem (iel ii : nat) (row : list nat) :
  MNPC patch !! (iel - 1) = Some row -> ii < length row ->
  nodeOf patch iel ii ∈ row.
Proof.
  intros Hrow Hii. unfold nodeOf. rewrite Hrow. simpl.
  destruct (lookup_lt_is_Some_2 row ii Hii) as [n Hn].
  rewrite Hn. simpl. by apply (list_elem_of_lookup_2 _ ii).
Qed.

Lemma integratePoint_shape spl continuous iel nel dA wg Xnod nnod ncomp
  gpar0 gpar1 sField j i ip AB row :
  1 <= iel <= nel ->
  MNPC patch !! (iel - 1) = Some row ->
  length (basisAt svc spl continuous iel gpar0 gpar1 j i).1 <= length row ->
  system_inv patch nel nnod ncomp AB ->
  system_inv patch nel nnod ncomp
    (integratePoint svc patch spl continuous iel dA wg Xnod nnod ncomp
                    gpar0 gpar1 sField j i ip AB).
Proof.
  intros Hiel Hrow Hlen Hinv. unfold integratePoint.
  destruct (basisAt svc spl continuous iel gpar0 gpar1 j i) as [phi dNdu].
  cbn [fst] in Hlen.
  destruct (continuous && req _ r0); [done|].
  apply (forRange_inv (fun _ AB => system_inv patch nel nnod ncomp AB));
    [done|].
  intros ii [A B] Hii (Hr & Hc & HB & Hpat). simpl in *.
  unfold system_inv. cbn [fst snd].
  assert (forall n (A0 : SparseMatrix Real),
    n <= length phi ->
    srows A0 = nnod /\ scols A0 = nnod /\
    (forall r c, is_Some (selem A0 !! (r, c)) -> coupled patch nel r c) ->
    let A' := forRange n (fun jj A =>
                sparse_add A (nodeOf patch iel ii + 1) (nodeOf patch iel jj + 1)
                  (rmul (rmul (at_ phi ii) (at_ phi jj))
                        (jacobianWeight svc continuous dA wg Xnod dNdu j i)))
                A0 in
    srows A' = nnod /\ scols A' = nnod /\
    (forall r c, is_Some (selem A' !! (r, c)) -> coupled patch nel r c))
    as HloopA.
  { intros n A0 Hn HA0. cbn zeta.
    apply (forRange_inv (fun _ (A' : SparseMatrix Real) =>
      srows A' = nnod /\ scols A' = nnod /\
      (forall r c, is_Some (selem A' !! (r, c)) -> coupled patch nel r c)));
      [done|].
    intros jj A' Hjj (Hr' & Hc' & Hpat'). split; [done|]. split; [done|].
    intros r c Hs. apply sparse_add_entries in Hs as [[= -> ->]|Hs].
    - exists iel, row. split; [done|]. split; [done|].
      split; [lia|]. split; [lia|].
      replace (nodeOf patch iel ii + 1 - 1) with (nodeOf patch iel ii) by lia.
      replace (nodeOf patch iel jj + 1 - 1) with (nodeOf patch iel jj) by lia.
      split; apply nodeOf_elem; try done; lia.
    - by apply Hpat'. }
  destruct (HloopA (length phi) A ltac:(lia) (conj Hr (conj Hc Hpat)))
    as (Hr' & Hc' & Hpat').
  split; [exact Hr'|]. split; [exact Hc'|]. split; [|exact Hpat'].
  apply (forRange_inv (fun _ (B' : list Real) => length B' = nnod * ncomp));
    [done|].
  intros r B' _ HB'. unfold vset. by rewrite length_insert.
Qed.

Lemma integrateElement_shape spl continuous iel nel dA wg Xnod nnod ncomp
  ng1 ng2 gpar0 gpar1 sField AB row :
  1 <= iel <= nel ->
  MNPC patch !! (iel - 1) = Some row ->
  (forall j i,
     length (basisAt svc spl continuous iel gpar0 gpar1 j i).1 <= length row) ->
  system_inv patch nel nnod ncomp AB ->
  system_inv patch nel nnod ncomp
    (integrateElement svc patch spl continuous iel dA wg Xnod nnod ncomp
                      ng1 ng2 gpar0 gpar1 sField AB).
Proof.
  intros Hiel Hrow Hlen Hinv. unfold integrateElement.
  apply (forRange_inv (fun _ (st : SparseMatrix Real * list Real * nat) =>
           system_inv patch nel nnod ncomp st.1)); [done|].
  intros j st _ Hst.
  apply (forRange_inv (fun _ (st : SparseMatrix Real * list Real * nat) =>
           system_inv patch nel nnod ncomp st.1)); [done|].
  intros i [AB' ip] _ Hst'. simpl in *.
  by apply (integratePoint_shape _ _ _ _ _ _ _ _ _ _ _ _ _ _ _ _ row).
Qed.

(** The assembly never resizes the global system and, when the connectivity
    row of every element has a node for each of its basis functions, the
    matrix gets entries only at pairs (r,c) of nodes of a common element:
    r-1 and c-1 are both in the connectivity row of one element of the
    mesh. *)
Theorem assembleSystem_shape (spl : LRSplineSurface Real)
  (integrand : IntegrandBase) (continuous : bool) (ng1 ng2 : Z)
  (xg yg wg : list Real) (sField s : Matrix Real)
  (A : SparseMatrix Real) (B : list Real) :
  (forall iel gpar0 gpar1 j i,
     1 <= iel <= length (elements spl) ->
     exists row, MNPC patch !! (iel - 1) = Some row /\
       length (basisAt svc spl continuous iel gpar0 gpar1 j i).1
       <= length row) ->
  assembleSystem svc patch spl integrand continuous ng1 ng2 xg yg wg sField
    = inr (A, B, s) ->
  srows A = getNoNodes patch /\ scols A = getNoNodes patch /\
  length B = getNoNodes patch * getNoFields integrand /\
  forall r c, is_Some (selem A !! (r, c)) ->
    exists iel row,
      1 <= iel <= length (elements spl) /\
      MNPC patch !! (iel - 1) = Some row /\
      1 <= r /\ 1 <= c /\ r - 1 ∈ row /\ c - 1 ∈ row.
Proof.
  unfold assembleSystem. intros Hrows Hrun.
  apply (forEachM_inv
    (fun st : SparseMatrix Real * list Real * Matrix Real =>
       system_inv patch (length (elements spl)) (getNoNodes patch)
                  (getNoFields integrand) st.1)) in Hrun; [exact Hrun| |].
  - unfold system_inv. simpl. split; [done|]. split; [done|].
    split; [by rewrite length_replicate|].
    intros r c [x Hx]. by rewrite lookup_empty in Hx.
  - intros [iel el] [AB sF] st' Hin Hinv Hbody. simpl in Hinv.
    apply numbered_range in Hin.
    unfold assembleElement in Hbody.
    destruct (elementGeometry patch continuous iel) as [[Xnod dA]|]; [|done].
    unfold elementPoints in Hbody. cbn beta iota zeta in Hbody.
    destruct (evalSolution patch sF integrand _) as [[] sF']; [|done].
    injection Hbody as <-. simpl.
    destruct (Hrows iel [] [] 0 0 Hin) as (row & Hrow & _).
    apply (integrateElement_shape _ _ _ _ _ _ _ _ _ _ _ _ _ _ _ row);
      try done.
    intros j i.
    destruct (Hrows iel
                (getGaussPointParameters patch 0 ng1 (Z.of_nat iel) xg)
                (getGaussPointParameters patch 1 ng2 (Z.of_nat iel) yg)
                j i Hin) as (row' & Hrow' & Hlen).
    rewrite Hrow in Hrow'. by injection Hrow' as <-.
Qed.

End SystemShape.

Lemma assembleSystem_shape_witness :
  let svc := Biquadratic.services Biquadratic.sparseGJ Biquadratic.denseGJ in
  let patch := Biquadratic.patchOf (Some Biquadratic.mesh)
                 (fun _ => 1 # 4)%Q (fun _ _ => 3%Q) in
  let xg := [-(1 # 2); 1 # 2]%Q in
  exists A B s,
    assembleSystem svc patch Biquadratic.mesh Biquadratic.integrand1 false
                   2 2 xg xg [] (mkMatrix 0 0 []) = inr (A, B, s) /\
    srows A = 16 /\ length B = 16 /\
    forall r c, is_Some (selem A !! (r, c)) ->
      exists iel row,
        1 <= iel <= 4 /\ MNPC patch !! (iel - 1) = Some row /\
        1 <= r /\ 1 <= c /\ r - 1 ∈ row /\ c - 1 ∈ row.
Proof.
  intros svc patch xg.
  assert (match assembleSystem svc patch Biquadratic.mesh
                  Biquadratic.integrand1 false 2 2 xg xg [] (mkMatrix 0 0 [])
          with inr _ => true | inl _ => false end = true) as Hok
    by (vm_compute; reflexivity).
  destruct (assembleSystem svc patch Biquadratic.mesh Biquadratic.integrand1
              false 2 2 xg xg [] (mkMatrix 0 0 []))
    as [s|[[A B] s]] eqn:Hrun.
  - discriminate Hok.
  - exists A, B, s. split; [reflexivity|].
    destruct (assembleSystem_shape svc patch Biquadratic.mesh
                Biquadratic.integrand1 false 2 2 xg xg []
                (mkMatrix 0 0 []) s A B
                (Biquadratic_rows Biquadratic.sparseGJ Biquadratic.denseGJ
                   (fun _ => 1 # 4)%Q (fun _ _ => 3%Q))
                Hrun) as (Hr & _ & HB & Hpat).
    split; [exact Hr|]. split; [exact HB|exact Hpat].
Defined.

(** ** regularInterpolation and projectSolution *)

Section ProjectFacts.
Context {Real : Type} `{RealOps Real}.
Variable svc : Services Real.
Variable patch : ASMu2D Real.

Lemma regularInterpolation_fails_iff spl upar vpar points :
  lrspline patch = Some spl ->
  regularInterpolation svc patch upar vpar points = Ret None <->
  rational spl = true \/ length upar <> nBasisFunctions spl \/
  length vpar <> nBasisFunctions spl \/ cols points <> nBasisFunctions spl \/
  solveDense svc (interpolationMatrix spl upar vpar) (mat_transpose points)
    = None.
Proof.
  intros Hspl. unfold regularInterpolation. rewrite Hspl.
  destruct (rational spl); [by split; auto|].
  destruct (Nat.eqb_spec (length upar) (nBasisFunctions spl)); simpl;
    [|by split; auto].
  destruct (Nat.eqb_spec (length vpar) (nBasisFunctions spl)); simpl;
    [|by split; auto].
  destruct (Nat.eqb_spec (cols points) (nBasisFunctions spl)); simpl;
    [|split; auto 6].
  destruct (solveDense svc _ _); split; try done; auto 6.
  intros [?|[?|[?|[?|?]]]]; done.
Qed.

Lemma regularInterpolation_Some_inv spl upar vpar points ans :
  lrspline patch = Some spl ->
  regularInterpolation svc patch upar vpar points = Ret (Some ans) ->
  rational spl = false /\ length upar = nBasisFunctions spl /\
  length vpar = nBasisFunctions spl /\ cols points = nBasisFunctions spl /\
  exists X,
    solveDense svc (interpolationMatrix spl upar vpar) (mat_transpose points)
      = Some X /\
    rows X = nBasisFunctions spl /\ cols X = rows points /\
    ans = set_basis (cols X) (rebuildDimension (cols X) spl)
            (setControlPoints X
               (getAllBasisfunctions (rebuildDimension (cols X) spl))).
Proof.
  intros Hspl Hok. unfold regularInterpolation in Hok. rewrite Hspl in Hok.
  destruct (rational spl); [done|].
  destruct (Nat.eqb_spec (length upar) (nBasisFunctions spl)); [|done].
  destruct (Nat.eqb_spec (length vpar) (nBasisFunctions spl)); [|done].
  destruct (Nat.eqb_spec (cols points) (nBasisFunctions spl)) as [Hp|]; [|done].
  simpl in Hok.
  destruct (solveDense svc _ _) as [X|] eqn:HX; [|done].
  injection Hok as <-. repeat split; try done.
  exists X. split; [done|].
  unfold solveDense in HX. destruct (denseSolve svc _ _); [|done].
  injection HX as <-. simpl. by rewrite Hp.
Qed.

(** Reproduction of the sampled values, from the residual bound of the
    solver. *)
Lemma regularInterpolation_reproduces spl ans upar vpar points
  (tol : Real -> Real -> Prop) :
  lrspline patch = Some spl ->
  (forall u v, length (computeBasis spl u v (-1)) = nBasisFunctions spl) ->
  (forall X,
     solveDense svc (interpolationMatrix spl upar vpar) (mat_transpose points)
       = Some X ->
     solves_within tol (interpolationMatrix spl upar vpar)
                   (mat_transpose points) X) ->
  regularInterpolation svc patch upar vpar points = Ret (Some ans) ->
  forall k j, k < nBasisFunctions spl -> j < rows points ->
    tol (evalField ans (at_ upar k) (at_ vpar k) j)
        (mget points (j + 1) (k + 1)).
Proof.
  intros Hspl Hdense Hsolver Hok k j Hk Hj.
  destruct (regularInterpolation_Some_inv spl upar vpar points ans Hspl Hok)
    as (_ & _ & _ & Hp & X & HX & HrX & HcX & ->).
  destruct (interpolationMatrix_entries spl upar vpar) as (HrA & _ & _).
  specialize (Hsolver X HX k j ltac:(lia) ltac:(simpl; lia)).
  rewrite mget_transpose in Hsolver by lia.
  rewrite interpolationMatrix_row in Hsolver by done.
  unfold evalField. simpl. rewrite setControlPoints_column.
  - exact Hsolver.
  - apply Forall_fmap, Forall_forall. intros b _. simpl.
    by rewrite length_resize.
  - rewrite length_fmap. by rewrite HrX.
  - lia.
Qed.

(** The control values of basis function number i of the mesh returned by
    [regularInterpolation] are row i+1 of what the dense solver leaves in the
    right-hand side, the transposed matrix of points, when it is called on
    the interpolation matrix: one value per row of [points]. *)
Theorem regularInterpolation_result (spl ans : LRSplineSurface Real)
  (upar vpar : list Real) (points : Matrix Real) :
  lrspline patch = Some spl ->
  regularInterpolation svc patch upar vpar points = Ret (Some ans) ->
  exists x,
    denseSolve svc (interpolationMatrix spl upar vpar) (mat_transpose points)
      = Some x /\
    forall i b, getAllBasisfunctions spl !! i = Some b ->
      exists b', getAllBasisfunctions ans !! i = Some b' /\
        cp b' = mat_row (mkMatrix (nBasisFunctions spl) (rows points) x)
                        (i + 1).
Proof.
  intros Hspl Hok.
  destruct (regularInterpolation_Some_inv spl upar vpar points ans Hspl Hok)
    as (Hrat & _ & _ & Hp & X & HX & HrX & HcX & ->).
  unfold solveDense in HX.
  destruct (denseSolve svc _ _) as [x|] eqn:Hx; [|done].
  injection HX as HX. cbn [mat_transpose rows cols] in HX.
  rewrite Hp in HX.
  exists x. split; [done|]. rewrite HX. clear HX.
  cbn [getAllBasisfunctions set_basis rebuildDimension].
  set (bs0 := (fun b => set_cp b (resize (cols X) r0 (cp b)))
                <$> getAllBasisfunctions spl).
  assert (Forall (fun b => length (cp b) = cols X) bs0) as Hcp0.
  { apply Forall_fmap, Forall_forall. intros b _. simpl.
    by rewrite length_resize. }
  destruct (setControlPoints_shape X bs0) as [Hlen Hcp].
  specialize (Hcp (cols X) Hcp0).
  intros i b Hb.
  assert (i < length (setControlPoints X bs0)) as Hi.
  { rewrite Hlen. unfold bs0. rewrite length_fmap.
    by apply lookup_lt_Some in Hb. }
  destruct (lookup_lt_is_Some_2 _ _ Hi) as [b' Hb'].
  exists b'. split; [done|].
  pose proof (Forall_lookup_1 _ _ _ _ Hcp Hb') as Hlb. simpl in Hlb.
  apply list_eq. intros j. unfold mat_row. rewrite list_lookup_fmap.
  destruct (decide (j < cols X)) as [Hj|Hj].
  - rewrite lookup_seq_lt by done. simpl.
    pose proof (setControlPoints_entries X bs0 Hcp0 i b' Hb' j Hj) as He'.
    destruct (lookup_lt_is_Some_2 (cp b') j ltac:(lia)) as [y Hy].
    unfold at_ in He'. rewrite Hy in He'. simpl in He'.
    rewrite Hy, He'. by replace (Datatypes.S j) with (j + 1) by lia.
  - rewrite lookup_ge_None_2 by lia.
    by rewrite (lookup_ge_None_2 (seq _ _)) by (rewrite length_seq; lia).
Qed.

End ProjectFacts.

Section ProjectSolution.
Context {Real : Type} `{RealOps Real}.
Variable svc : Services Real.
Variable patch : ASMu2D Real.

Lemma projectSolution_present spl integrand :
  lrspline patch = Some spl ->
  projectSolution svc patch integrand
  = match evalSolution patch (mkMatrix 0 0 []) integrand
            (grevilleArray spl 0, grevilleArray spl 1) with
    | (false, _) => Ret None
    | (true, sValues) =>
        regularInterpolation svc patch (grevilleArray spl 0)
                             (grevilleArray spl 1) sValues
    end.
Proof.
  intros Hspl. unfold projectSolution.
  by rewrite !(getGrevilleParameters_present patch spl) by (done || lia).
Qed.

(** [projectSolution] (and the [evalSolution] overload that forwards to it)
    tests the mesh handle before anything else: it never ends in a null
    dereference and returns its failure value on an absent mesh.  With the
    mesh present it fails exactly when the field evaluator fails at the
    Greville points, the basis is rational, the evaluator returns a matrix
    whose column count is not the number of basis functions, or the
    interpolation system is not solved; the parameter arrays it passes on
    always have the right length. *)
Theorem projectSolution_outcome (integrand : IntegrandBase) :
  evalSolutionSpline svc patch integrand <> NullDeref /\
  (lrspline patch = None -> evalSolutionSpline svc patch integrand = Ret None) /\
  (forall spl, lrspline patch = Some spl ->
     let upar := grevilleArray spl 0 in
     let vpar := grevilleArray spl 1 in
     let ev := evalSolution patch (mkMatrix 0 0 []) integrand (upar, vpar) in
     length upar = nBasisFunctions spl /\ length vpar = nBasisFunctions spl /\
     (projectSolution svc patch integrand = Ret None <->
      ev.1 = false \/ rational spl = true \/
      cols ev.2 <> nBasisFunctions spl \/
      solveDense svc (interpolationMatrix spl upar vpar) (mat_transpose ev.2)
        = None)).
Proof.
  unfold evalSolutionSpline. split; [|split].
  - destruct (lrspline patch) as [spl|] eqn:Hspl.
    + rewrite (projectSolution_present spl) by done.
      destruct (evalSolution patch _ _ _) as [[] sV]; [|done].
      destruct (regularInterpolation_present svc patch spl
                  (grevilleArray spl 0) (grevilleArray spl 1) sV Hspl)
        as [r ->]. done.
    + unfold projectSolution, getGrevilleParameters. by rewrite Hspl.
  - intros Hnull. unfold projectSolution, getGrevilleParameters.
    by rewrite Hnull.
  - intros spl Hspl. cbv zeta.
    set (upar := grevilleArray spl 0).
    set (vpar := grevilleArray spl 1).
    set (ev := evalSolution patch (mkMatrix 0 0 []) integrand (upar, vpar)).
    assert (length upar = nBasisFunctions spl) as Hu
      by (unfold upar, grevilleArray; by rewrite length_fmap).
    assert (length vpar = nBasisFunctions spl) as Hv
      by (unfold vpar, grevilleArray; by rewrite length_fmap).
    split; [done|]. split; [done|].
    rewrite (projectSolution_present spl) by done.
    fold upar vpar ev. destruct ev as [[] sV]; simpl.
    + rewrite (regularInterpolation_fails_iff svc patch spl) by done.
      split.
      * intros [?|[?|[?|[?|?]]]]; auto; done.
      * intros [?|[?|[?|?]]]; auto 6; done.
    + split; auto.
Qed.

(** The field of the mesh that [projectSolution] returns takes, at the
    Greville point of basis function number k, the value the field evaluator
    gave there, for every component and up to the tolerance within which the
    dense solver satisfies the interpolation system. *)
Theorem projectSolution_interpolates (spl ans : LRSplineSurface Real)
  (integrand : IntegrandBase) (tol : Real -> Real -> Prop) :
  lrspline patch = Some spl ->
  let upar := grevilleArray spl 0 in
  let vpar := grevilleArray spl 1 in
  let sValues :=
    (evalSolution patch (mkMatrix 0 0 []) integrand (upar, vpar)).2 in
  (forall u v, length (computeBasis spl u v (-1)) = nBasisFunctions spl) ->
  (forall X,
     solveDense svc (interpolationMatrix spl upar vpar) (mat_transpose sValues)
       = Some X ->
     solves_within tol (interpolationMatrix spl upar vpar)
                   (mat_transpose sValues) X) ->
  projectSolution svc patch integrand = Ret (Some ans) ->
  forall k b j, getAllBasisfunctions spl !! k = Some b -> j < rows sValues ->
    tol (evalField ans (at_ (getGrevilleParameter b) 0)
                       (at_ (getGrevilleParameter b) 1) j)
        (mget sValues (j + 1) (k + 1)).
Proof.
  intros Hspl upar vpar sValues Hdense Hsolver Hok k b j Hb Hj.
  rewrite (projectSolution_present spl) in Hok by done.
  fold upar vpar in Hok. subst sValues.
  destruct (evalSolution patch _ integrand (upar, vpar)) as [[] sV]; [|done].
  simpl in *.
  pose proof (regularInterpolation_reproduces svc patch spl ans upar vpar sV
                tol Hspl Hdense Hsolver Hok k j) as Hrep.
  assert (at_ upar k = at_ (getGrevilleParameter b) 0) as Hu
    by (unfold upar, grevilleArray, at_ at 1; by rewrite list_lookup_fmap, Hb).
  assert (at_ vpar k = at_ (getGrevilleParameter b) 1) as Hv
    by (unfold vpar, grevilleArray, at_ at 1; by rewrite list_lookup_fmap, Hb).
  rewrite Hu, Hv in Hrep. apply Hrep; [|done].
  by apply lookup_lt_Some in Hb.
Qed.

End ProjectSolution.

Lemma regularInterpolation_result_witness :
  let svc := Biquadratic.services Biquadratic.sparseGJ Biquadratic.denseGJ in
  let f := (fun u v => u * u + 2 * v)%Q in
  let patch := Biquadratic.patchOf (Some Biquadratic.mesh)
                 (fun _ => 1 # 4)%Q f in
  let spl := Biquadratic.mesh in
  let upar := grevilleArray spl 0 in
  let vpar := grevilleArray spl 1 in
  let points := (Biquadratic.sample f (mkMatrix 0 0 []) Biquadratic.integrand1
                   (upar, vpar)).2 in
  exists ans x b',
    regularInterpolation svc patch upar vpar points = Ret (Some ans) /\
    denseSolve svc (interpolationMatrix spl upar vpar) (mat_transpose points)
      = Some x /\
    getAllBasisfunctions ans !! 5 = Some b' /\
    cp b' = mat_row (mkMatrix 16 1 x) 6.
Proof.
  intros svc f patch spl upar vpar points.
  destruct (succeeded_inv (regularInterpolation svc patch upar vpar points))
    as [ans Hok]; [vm_compute; reflexivity|].
  destruct (regularInterpolation_result svc patch spl ans upar vpar points
              eq_refl Hok) as (x & Hx & Hrows).
  assert (getAllBasisfunctions spl !! 5
          = Some (mkBasisfunction [1 # 4; 1 # 4]%Q Biquadratic.allElements
                    (Biquadratic.directSupport 1 1) [])) as Hb
    by (vm_compute; reflexivity).
  destruct (Hrows 5 _ Hb) as (b' & Hb' & Hcp).
  exists ans, x, b'. split; [exact Hok|]. split; [exact Hx|].
  split; [exact Hb'|exact Hcp].
Defined.

Lemma projectSolution_outcome_witness :
  let svc := Biquadratic.services Biquadratic.sparseGJ Biquadratic.denseGJ in
  let f := (fun u v => u * u + 2 * v)%Q in
  evalSolutionSpline svc (Biquadratic.patchOf None (fun _ => 1 # 4)%Q f)
                     Biquadratic.integrand1 = Ret None /\
  length (grevilleArray Biquadratic.mesh 0) = 16.
Proof.
  intros svc f. split.
  - exact (proj1 (proj2 (projectSolution_outcome svc
             (Biquadratic.patchOf None (fun _ => 1 # 4)%Q f)
             Biquadratic.integrand1)) eq_refl).
  - exact (proj1 (proj2 (proj2 (projectSolution_outcome svc
             (Biquadratic.patchOf (Some Biquadratic.mesh) (fun _ => 1 # 4)%Q f)
             Biquadratic.integrand1)) Biquadratic.mesh eq_refl)).
Defined.

Lemma projectSolution_interpolates_witness :
  let svc := Biquadratic.services Biquadratic.sparseGJ Biquadratic.denseGJ in
  let f := (fun u v => u * u + 2 * v)%Q in
  let patch := Biquadratic.patchOf (Some Biquadratic.mesh)
                 (fun _ => 1 # 4)%Q f in
  let spl := Biquadratic.mesh in
  let sValues := (evalSolution patch (mkMatrix 0 0 []) Biquadratic.integrand1
                    (grevilleArray spl 0, grevilleArray spl 1)).2 in
  let b := mkBasisfunction [1 # 4; 3 # 4]%Q Biquadratic.allElements
             Biquadratic.allElements [] in
  exists ans,
    projectSolution svc patch Biquadratic.integrand1 = Ret (Some ans) /\
    Qeq (evalField ans (at_ (getGrevilleParameter b) 0)
                       (at_ (getGrevilleParameter b) 1) 0)
        (mget sValues (0 + 1) (9 + 1)).
Proof.
  intros svc f patch spl sValues b.
  destruct (succeeded_inv (projectSolution svc patch Biquadratic.integrand1))
    as [ans Hok]; [vm_compute; reflexivity|].
  exists ans. split; [exact Hok|].
  assert (forall X,
    solveDense svc (interpolationMatrix spl (grevilleArray spl 0)
                      (grevilleArray spl 1)) (mat_transpose sValues) = Some X ->
    solves_within Qeq (interpolationMatrix spl (grevilleArray spl 0)
                         (grevilleArray spl 1)) (mat_transpose sValues) X)
    as Hsolver.
  { intros X HX. vm_compute in HX. injection HX as <-.
    intros k j Hk Hj.
    change (k < 16) in Hk. change (j < 1) in Hj.
    destruct j as [|j]; [|lia].
    do 16 (destruct k as [|k]; [vm_compute; reflexivity|]). lia. }
  apply (projectSolution_interpolates svc patch spl ans Biquadratic.integrand1
           Qeq eq_refl Biquadratic_dense Hsolver Hok 9 b 0).
  - reflexivity.
  - change (0 < 1). lia.
Defined.

(** ** scRecovery: every way it can fail *)

Section RecoveryFailure.
Context {Real : Type} `{RealOps Real}.
Variable svc : Services Real.
Variable patch : ASMu2D Real.

(** The local system of a basis function cannot be assembled exactly when
    the field evaluator fails on the quadrature points of one of the
    elements of its extended support; the local fit fails exactly then, or
    when the dense solver rejects the assembled system. *)
Theorem localSolution_fails_iff (spl : LRSplineSurface Real)
  (integrand : IntegrandBase) (ng1 ng2 : Z) (xg yg G : list Real)
  (b : Basisfunction Real) :
  (localSystem patch spl integrand ng1 ng2 xg yg G b = inl tt <->
   exists el, el ∈ getExtendedSupport b /\
     (evalSolution patch (mkMatrix 0 0 []) integrand
        (elementPoints patch ng1 ng2 (getId el + 1) xg yg).2).1 = false) /\
  (localSolution svc patch spl integrand ng1 ng2 xg yg G b = None <->
   localSystem patch spl integrand ng1 ng2 xg yg G b = inl tt \/
   exists A B, localSystem patch spl integrand ng1 ng2 xg yg G b = inr (A, B) /\
               solveDense svc A B = None).
Proof.
  split.
  - unfold localSystem, patchElements. split.
    + intros Hfail. apply forEachM_inl in Hfail
        as (pre & el & post & AB & Hsplit & _ & Hbody).
      exists el. split.
      * rewrite Hsplit. apply elem_of_app. right. apply list_elem_of_here.
      * unfold fitElement, elementPoints in *. cbn beta iota zeta in Hbody.
        cbn [snd]. by destruct (evalSolution patch _ integrand _) as [[] ?].
    + intros (el & Hel & Hev).
      edestruct (forEachM_stops
        (fitElement patch spl integrand ng1 ng2 xg yg
           (patchSize spl integrand 0) (patchSize spl integrand 1)
           (nPolOf spl integrand) (getNoFields integrand) G)
        (getExtendedSupport b) el Hel) as [[] ->]; [|done].
      intros AB. exists tt. unfold fitElement, elementPoints in *.
      cbn beta iota zeta. cbn [snd] in Hev.
      destruct (evalSolution patch _ integrand _) as [[] ?]; done.
  - unfold localSolution.
    destruct (localSystem patch spl integrand ng1 ng2 xg yg G b)
      as [[]|[A B]].
    + split; auto.
    + split.
      * intros Hs. right. by exists A, B.
      * intros [?|(A' & B' & [= <- <-] & Hs)]; done.
Qed.

(** The loop over the Greville points fails exactly when the local fit of
    one of the basis functions fails. *)
Lemma recoverAll_fails_iff spl integrand ng1 ng2 xg yg :
  recoverAll svc patch spl integrand ng1 ng2 xg yg
             (grevilleArray spl 0) (grevilleArray spl 1) = inl tt <->
  exists k b, getAllBasisfunctions spl !! k = Some b /\
    localSolution svc patch spl integrand ng1 ng2 xg yg
      (grevillePoint spl (grevilleArray spl 0) (grevilleArray spl 1) k) b
    = None.
Proof.
  unfold recoverAll.
  assert (length (grevilleArray spl 0) = length (getAllBasisfunctions spl))
    as Hlen by (unfold grevilleArray; by rewrite length_fmap).
  split.
  - intros Hfail. apply forEachM_inl in Hfail
      as (pre & b & post & [n sV] & Hsplit & Hpre & Hbody).
    apply recoverAll_values in Hpre as (-> & _);
      [|apply mat_wf_new|done|].
    + exists (length pre), b. split.
      * rewrite Hsplit. by rewrite list_lookup_middle.
      * unfold recoverAt in Hbody. simpl in *.
        by destruct (localSolution svc patch spl integrand ng1 ng2 xg yg _ b).
    + simpl. rewrite Hlen, Hsplit, length_app. lia.
  - intros (k & b & Hb & Hnone).
    destruct (forEachM _ _ _) as [[]|[n sV]] eqn:Hrun; [done|].
    apply recoverAll_values in Hrun as (_ & _ & _ & _ & _ & Hvals);
      [|apply mat_wf_new|done|simpl; lia].
    destruct (Hvals k b Hb) as (X & HX & _). simpl in HX. congruence.
Qed.

(** With the mesh present, [scRecovery] never succeeds on a rational basis
    (and finds out only after all the local fits), and it returns its
    failure value exactly when a quadrature table entry is missing, the
    local fit of some basis function fails, the basis is rational, or the
    final interpolation system is not solved; the Greville arrays and the
    matrix of recovered values it hands to [regularInterpolation] always
    have the right sizes. *)
Theorem scRecovery_fails_iff (spl : LRSplineSurface Real)
  (integrand : IntegrandBase) :
  lrspline patch = Some spl ->
  let ng1 := (order spl 0 - derivativeOrder integrand)%Z in
  let ng2 := (order spl 1 - derivativeOrder integrand)%Z in
  let upar := grevilleArray spl 0 in
  let vpar := grevilleArray spl 1 in
  (rational spl = true ->
   forall ans, scRecovery svc patch integrand <> Ret (Some ans)) /\
  (scRecovery svc patch integrand = Ret None <->
   getCoord svc ng1 = None \/ getCoord svc ng2 = None \/
   exists xg yg,
     getCoord svc ng1 = Some xg /\ getCoord svc ng2 = Some yg /\
     ((exists k b, getAllBasisfunctions spl !! k = Some b /\
         localSolution svc patch spl integrand ng1 ng2 xg yg
           (grevillePoint spl upar vpar k) b = None) \/
      (exists sValues,
         recoverAll svc patch spl integrand ng1 ng2 xg yg upar vpar
           = inr (nBasisFunctions spl, sValues) /\
         cols sValues = nBasisFunctions spl /\
         (rational spl = true \/
          solveDense svc (interpolationMatrix spl upar vpar)
                     (mat_transpose sValues) = None)))).
Proof.
  intros Hspl. cbv zeta.
  set (ng1 := (order spl 0 - derivativeOrder integrand)%Z).
  set (ng2 := (order spl 1 - derivativeOrder integrand)%Z).
  set (upar := grevilleArray spl 0).
  set (vpar := grevilleArray spl 1).
  assert (length upar = nBasisFunctions spl) as Hu
    by (unfold upar, grevilleArray; by rewrite length_fmap).
  assert (length vpar = nBasisFunctions spl) as Hv
    by (unfold vpar, grevilleArray; by rewrite length_fmap).
  assert (scRecovery svc patch integrand
          = match getCoord svc ng1, getCoord svc ng2 with
            | Some xg, Some yg =>
                match recoverAll svc patch spl integrand ng1 ng2 xg yg
                                 upar vpar with
                | inl _ => Ret None
                | inr (_, sValues) =>
                    regularInterpolation svc patch upar vpar sValues
                end
            | _, _ => Ret None
            end) as ->.
  { unfold scRecovery. cbv zeta. rewrite Hspl.
    by rewrite !(getGrevilleParameters_present patch spl) by (done || lia). }
  assert (forall xg yg n sV,
    recoverAll svc patch spl integrand ng1 ng2 xg yg upar vpar = inr (n, sV) ->
    n = nBasisFunctions spl /\ cols sV = nBasisFunctions spl) as Hsizes.
  { intros xg yg n sV Hrun. unfold recoverAll in Hrun.
    apply recoverAll_values in Hrun as (-> & _ & _ & -> & _);
      [|apply mat_wf_new|done|simpl; unfold nBasisFunctions in Hu; lia].
    simpl. split; [done|]. done. }
  split.
  - intros Hrat ans.
    destruct (getCoord svc ng1) as [xg|]; [|done].
    destruct (getCoord svc ng2) as [yg|]; [|done].
    destruct (recoverAll svc patch spl integrand ng1 ng2 xg yg upar vpar)
      as [|[n sV]]; [done|].
    unfold regularInterpolation. by rewrite Hspl, Hrat.
  - destruct (getCoord svc ng1) as [xg|]; [|by split; auto].
    destruct (getCoord svc ng2) as [yg|]; [|by split; auto].
    pose proof (recoverAll_fails_iff spl integrand ng1 ng2 xg yg) as Hloop.
    fold upar vpar in Hloop.
    destruct (recoverAll svc patch spl integrand ng1 ng2 xg yg upar vpar)
      as [[]|[n sV]] eqn:Hrun.
    + split; [|done]. intros _. right. right. exists xg, yg.
      split; [done|]. split; [done|]. left. by apply Hloop.
    + destruct (Hsizes xg yg n sV Hrun) as [-> HcV].
      rewrite (regularInterpolation_fails_iff svc patch spl) by done.
      split.
      * intros [Hr|[?|[?|[?|Hs]]]]; try done;
          right; right; exists xg, yg; (split; [done|]); (split; [done|]);
          right; exists sV; auto.
      * intros [?|[?|(xg' & yg' & [= <-] & [= <-] & Hcase)]]; try done.
        destruct Hcase as [Hfit|(sV' & Heq & _ & Hc)].
        -- apply Hloop in Hfit. done.
        -- rewrite Hrun in Heq. injection Heq as <-. destruct Hc; auto 6.
Qed.

End RecoveryFailure.

(** ** scRecovery: the local normal equations *)

Section LocalSystem.
Context {Real : Type} `{RealOps Real}.
Variable patch : ASMu2D Real.

(** One pass of the accumulation adds P(k)*P(l) to A(k,l) and
    P(k)*sField(l,ig) to B(k,l), each entry once, and leaves the dimensions
    of both matrices alone. *)
Theorem accumulate_entries (nPol nCmp : nat) (P : list Real)
  (sField : Matrix Real) (ig : nat) (A B : Matrix Real) :
  mat_wf A -> rows A = nPol -> cols A = nPol ->
  mat_wf B -> rows B = nPol -> cols B = nCmp ->
  let AB' := accumulate nPol nCmp P sField ig (A, B) in
  mat_wf AB'.1 /\ rows AB'.1 = nPol /\ cols AB'.1 = nPol /\
  mat_wf AB'.2 /\ rows AB'.2 = nPol /\ cols AB'.2 = nCmp /\
  (forall k l, 1 <= k <= nPol -> 1 <= l <= nPol ->
     mget AB'.1 k l = radd (mget A k l) (rmul (vget P k) (vget P l))) /\
  (forall k l, 1 <= k <= nPol -> 1 <= l <= nCmp ->
     mget AB'.2 k l = radd (mget B k l) (rmul (vget P k) (mget sField l ig))).
Proof.
  intros HwfA HrA HcA HwfB HrB HcB.
  destruct (accumulate_state nPol nCmp P sField ig A B
              HwfA HrA HcA HwfB HrB HcB)
    as (H1 & H2 & H3 & H4 & H5 & H6 & HA & HB).
  cbn zeta in *. repeat split; try done.
  - intros k l Hk Hl. rewrite HA by lia. case_decide; [done|lia].
  - intros k l Hk Hl. rewrite HB by lia. case_decide; [done|lia].
Qed.

(** With a commutative product, accumulation keeps the matrix symmetric. *)
Lemma accumulate_local_inv (nPol nCmp : nat) (P : list Real)
  (sField : Matrix Real) (ig : nat) (AB : Matrix Real * Matrix Real) :
  (forall a b : Real, rmul a b = rmul b a) ->
  local_inv nPol nCmp AB ->
  local_inv nPol nCmp (accumulate nPol nCmp P sField ig AB).
Proof.
  intros Hcomm. destruct AB as [A B].
  intros (H1 & H2 & H3 & H4 & H5 & H6 & Hsym). simpl in *.
  destruct (accumulate_state nPol nCmp P sField ig A B H1 H2 H3 H4 H5 H6)
    as (G1 & G2 & G3 & G4 & G5 & G6 & HA & _).
  cbn zeta in *. unfold local_inv.
  split; [done|]. split; [done|]. split; [done|].
  split; [done|]. split; [done|]. split; [done|].
  intros k l Hk Hl. rewrite !HA by lia.
  repeat case_decide; try lia.
  by rewrite (Hsym k l Hk Hl), (Hcomm (vget P k) (vget P l)).
Qed.

(** The local system that [scRecovery] hands to the dense solver has nPol
    rows and columns, a right-hand side of nPol rows and nCmp columns and,
    when the product of scalars is commutative, a symmetric matrix. *)
Theorem localSystem_symmetric (spl : LRSplineSurface Real)
  (integrand : IntegrandBase) (ng1 ng2 : Z) (xg yg G : list Real)
  (b : Basisfunction Real) (A B : Matrix Real) :
  (forall x y : Real, rmul x y = rmul y x) ->
  localSystem patch spl integrand ng1 ng2 xg yg G b = inr (A, B) ->
  let nPol := nPolOf spl integrand in
  mat_wf A /\ rows A = nPol /\ cols A = nPol /\
  mat_wf B /\ rows B = nPol /\ cols B = getNoFields integrand /\
  forall k l, 1 <= k <= nPol -> 1 <= l <= nPol -> mget A k l = mget A l k.
Proof.
  intros Hcomm Hrun. cbn zeta. unfold localSystem in Hrun.
  apply (forEachM_inv (local_inv (nPolOf spl integrand)
                         (getNoFields integrand))) in Hrun; [exact Hrun| |].
  - unfold local_inv. simpl.
    split; [apply mat_wf_new|]. split; [done|]. split; [done|].
    split; [apply mat_wf_new|]. split; [done|]. split; [done|].
    intros k l Hk Hl. unfold mget, mat_new, mat_idx, at_. simpl.
    assert (forall r c, 1 <= r <= nPolOf spl integrand ->
                        1 <= c <= nPolOf spl integrand ->
              r - 1 + nPolOf spl integrand * (c - 1)
              < nPolOf spl integrand * nPolOf spl integrand) as Hin.
    { intros r c Hr Hc.
      assert (nPolOf spl integrand * (c - 1) + nPolOf spl integrand
              <= nPolOf spl integrand * nPolOf spl integrand); [|lia].
      replace (nPolOf spl integrand * (c - 1) + nPolOf spl integrand)
        with (nPolOf spl integrand * c) by nia.
      apply Nat.mul_le_mono_l. lia. }
    by rewrite !lookup_replicate_2 by (apply Hin; lia).
  - intros el AB AB' _ Hinv Hbody. unfold fitElement in Hbody.
    unfold elementPoints in Hbody. cbn beta iota zeta in Hbody.
    destruct (evalSolution patch _ integrand _) as [[] sF]; [|done].
    injection Hbody as <-.
    apply (forRange_inv (fun _ (st : Matrix Real * Matrix Real * nat) =>
      local_inv (nPolOf spl integrand) (getNoFields integrand) st.1));
      [done|].
    intros j st _ Hst.
    apply (forRange_inv (fun _ (st : Matrix Real * Matrix Real * nat) =>
      local_inv (nPolOf spl integrand) (getNoFields integrand) st.1));
      [done|].
    intros i [AB1 ig] _ Hst1. simpl in *. by apply accumulate_local_inv.
Qed.

End LocalSystem.

(** ** Concrete instances *)

Lemma Q_rmul_comm (x y : Q) : rmul x y = rmul y x.
Proof.
  destruct x as [a b], y as [c d]. simpl. unfold Qmult. simpl.
  by rewrite Z.mul_comm, Pos.mul_comm.
Qed.

Lemma expandTensorGrid_grid_witness :
  expandTensorGrid ([] : list Q) [4; 5]%Q [1; 1; 1]%Q [2]%Q = ([], []).
Proof.
  pose proof (expandTensorGrid_grid ([] : list Q) [4; 5]%Q [1; 1; 1]%Q [2]%Q)
    as Hgrid.
  destruct (expandTensorGrid _ _ _ _) as [o0 o1].
  destruct Hgrid as [_ Hempty].
  destruct (Hempty (or_introl eq_refl)) as [-> ->]. reflexivity.
Defined.

Lemma localSolution_fails_iff_witness :
  let svc := Biquadratic.services Biquadratic.sparseGJ Biquadratic.denseGJ in
  let patch := withEvaluator (fun _ _ _ => (false, mkMatrix 0 0 []))
                 (Biquadratic.patchOf (Some Biquadratic.mesh)
                    (fun _ => 1 # 4)%Q (fun _ _ => 3%Q)) in
  let xg := [-(1 # 2); 1 # 2]%Q in
  let b := mkBasisfunction [0; 0]%Q Biquadratic.allElements
             [mkElement 0 9] [] in
  localSolution svc patch Biquadratic.mesh Biquadratic.integrand1 2 2 xg xg
                [0; 0]%Q b = None.
Proof.
  intros svc patch xg b.
  destruct (localSolution_fails_iff svc patch Biquadratic.mesh
              Biquadratic.integrand1 2 2 xg xg [0; 0]%Q b) as [Hsys Hsol].
  apply Hsol. left. apply Hsys.
  exists (mkElement 0 9). split; [|reflexivity].
  apply list_elem_of_here.
Defined.

Lemma scRecovery_fails_iff_witness :
  let svc := Biquadratic.services Biquadratic.sparseGJ Biquadratic.denseGJ in
  let patch := Biquadratic.patchOf (Some Biquadratic.mesh)
                 (fun _ => 1 # 4)%Q (fun _ _ => 3%Q) in
  scRecovery svc patch (mkIntegrand 1 0) = Ret None.
Proof.
  intros svc patch.
  destruct (scRecovery_fails_iff svc patch Biquadratic.mesh (mkIntegrand 1 0)
              eq_refl) as [_ Hiff].
  apply Hiff. left. reflexivity.
Defined.

Lemma accumulate_entries_witness :
  let P := [1; 2]%Q in
  let sField := mkMatrix 1 1 [3]%Q in
  let AB := accumulate 2 1 P sField 1 (mat_new 2 2, mat_new 2 1) in
  mget AB.1 2 1 = radd (mget (mat_new 2 2) 2 1) (rmul (vget P 2) (vget P 1)) /\
  mget AB.2 2 1 = radd (mget (mat_new 2 1) 2 1)
                       (rmul (vget P 2) (mget sField 1 1)).
Proof.
  intros P sField AB.
  destruct (accumulate_entries 2 1 P sField 1 (mat_new 2 2) (mat_new 2 1)
              (mat_wf_new 2 2) eq_refl eq_refl (mat_wf_new 2 1) eq_refl eq_refl)
    as (_ & _ & _ & _ & _ & _ & HA & HB).
  split; [apply HA; lia|apply HB; lia].
Defined.

Lemma localSystem_symmetric_witness :
  let patch := Biquadratic.patchOf (Some Biquadratic.mesh)
                 (fun _ => 1 # 4)%Q (fun u v => u * u + 2 * v)%Q in
  let xg := [-(1 # 2); 1 # 2]%Q in
  let b := mkBasisfunction [1 # 4; 1 # 4]%Q Biquadratic.allElements
             Biquadratic.allElements [] in
  exists A B,
    localSystem patch Biquadratic.mesh Biquadratic.integrand1 2 2 xg xg
                [1 # 4; 1 # 4]%Q b = inr (A, B) /\
    rows A = 9 /\ mget A 2 5 = mget A 5 2.
Proof.
  intros patch xg b.
  assert (match localSystem patch Biquadratic.mesh Biquadratic.integrand1
                  2 2 xg xg [1 # 4; 1 # 4]%Q b
          with inr _ => true | inl _ => false end = true) as Hok
    by (vm_compute; reflexivity).
  destruct (localSystem patch Biquadratic.mesh Biquadratic.integrand1
              2 2 xg xg [1 # 4; 1 # 4]%Q b) as [|[A B]] eqn:Hrun;
    [discriminate Hok|].
  exists A, B. split; [reflexivity|].
  destruct (localSystem_symmetric patch Biquadratic.mesh
              Biquadratic.integrand1 2 2 xg xg [1 # 4; 1 # 4]%Q b A B
              Q_rmul_comm Hrun) as (_ & Hr & _ & _ & _ & _ & Hsym).
  split; [exact Hr|].
  apply Hsym; change (nPolOf Biquadratic.mesh Biquadratic.integrand1) with 9;
    lia.
Defined.

(** ** globalL2projection: the assembled matrix is symmetric *)

Section GlobalSymmetry.
Context {Real : Type} `{RealOps Real}.
Variable svc : Services Real.
Variable patch : ASMu2D Real.

Lemma sparse_get_add (A : SparseMatrix Real) i j x r c :
  sparse_get (sparse_add A i j x) r c
  = if decide ((i, j) = (r, c)) then radd (sparse_get A i j) x
    else sparse_get A r c.
Proof.
  unfold sparse_get, sparse_add. simpl. rewrite lookup_insert.
  by case_decide.
Qed.

(** Adding a block v(ii,jj) at the index pairs of L distinct nodes updates
    each of these entries once and nothing else. *)
Lemma sparse_block_add (L : nat) (nd : nat -> nat)
  (v : nat -> nat -> Real) (A : SparseMatrix Real) :
  (forall a b, a < L -> b < L -> nd a = nd b -> a = b) ->
  let A' := forRange L (fun ii A =>
              forRange L (fun jj A =>
                sparse_add A (nd ii + 1) (nd jj + 1) (v ii jj)) A) A in
  (forall ii jj, ii < L -> jj < L ->
     sparse_get A' (nd ii + 1) (nd jj + 1)
     = radd (sparse_get A (nd ii + 1) (nd jj + 1)) (v ii jj)) /\
  (forall r c, (forall ii jj, ii < L -> jj < L ->
                  (r, c) <> (nd ii + 1, nd jj + 1)) ->
     sparse_get A' r c = sparse_get A r c).
Proof.
  intros Hinj. cbn zeta.
  set (Pin := fun (ii' jj' : nat) (A' : SparseMatrix Real) =>
    (forall ii jj, ii < L -> jj < L ->
       sparse_get A' (nd ii + 1) (nd jj + 1)
       = if decide (ii < ii' \/ (ii = ii' /\ jj < jj'))
         then radd (sparse_get A (nd ii + 1) (nd jj + 1)) (v ii jj)
         else sparse_get A (nd ii + 1) (nd jj + 1)) /\
    (forall r c, (forall ii jj, ii < L -> jj < L ->
                    (r, c) <> (nd ii + 1, nd jj + 1)) ->
       sparse_get A' r c = sparse_get A r c)).
  assert (Pin L 0 (forRange L (fun ii A =>
              forRange L (fun jj A =>
                sparse_add A (nd ii + 1) (nd jj + 1) (v ii jj)) A) A))
    as [Hin Hout].
  { apply (forRange_inv (fun ii' A' => Pin ii' 0 A')).
    - split; [|done]. intros ii jj Hii Hjj. case_decide; [lia|done].
    - intros ii' A' Hii' HA'.
      assert (Pin ii' L (forRange L (fun jj A =>
                sparse_add A (nd ii' + 1) (nd jj + 1) (v ii' jj)) A'))
        as [Hin' Hout'].
      { apply (forRange_inv (fun jj' A'' => Pin ii' jj' A'')); [done|].
        intros jj' A'' Hjj' [Hin'' Hout'']. split.
        - intros ii jj Hii Hjj. rewrite sparse_get_add.
          destruct (decide ((nd ii' + 1, nd jj' + 1) = (nd ii + 1, nd jj + 1)))
            as [Heq|Hne].
          + injection Heq as Hi Hj.
            assert (ii' = ii) as <- by (apply Hinj; lia).
            assert (jj' = jj) as <- by (apply Hinj; lia).
            rewrite Hin'' by done.
            repeat case_decide; try lia; done.
          + rewrite Hin'' by done.
            assert (~ (ii = ii' /\ jj = jj')) by (intros [-> ->]; done).
            repeat case_decide; try lia; done.
        - intros r c Hrc. rewrite sparse_get_add.
          case_decide as Heq; [|by apply Hout''].
          exfalso. by apply (Hrc ii' jj' Hii' Hjj'). }
      split; [|done].
      intros ii jj Hii Hjj. rewrite Hin' by done.
      repeat case_decide; try lia; done. }
  split; [|done].
  intros ii jj Hii Hjj. rewrite Hin by done. case_decide; [done|lia].
Qed.

Lemma sparse_block_symmetric (L : nat) (nd : nat -> nat)
  (v : nat -> nat -> Real) (A : SparseMatrix Real) :
  (forall a b, a < L -> b < L -> nd a = nd b -> a = b) ->
  (forall ii jj, v ii jj = v jj ii) ->
  sparse_symmetric A ->
  sparse_symmetric
    (forRange L (fun ii A =>
       forRange L (fun jj A =>
         sparse_add A (nd ii + 1) (nd jj + 1) (v ii jj)) A) A).
Proof.
  intros Hinj Hv Hsym.
  destruct (sparse_block_add L nd v A Hinj) as [Hin Hout].
  cbn zeta in Hin, Hout. intros r c.
  destruct (decide (Exists (fun ii => Exists (fun jj =>
                      (r, c) = (nd ii + 1, nd jj + 1)) (seq 0 L)) (seq 0 L)))
    as [Hyes|Hno'].
  - apply List.Exists_exists in Hyes as (ii & Hii & Hyes).
    apply List.Exists_exists in Hyes as (jj & Hjj & [= -> ->]).
    apply in_seq in Hii, Hjj.
    rewrite !Hin by lia. by rewrite Hsym, Hv.
  - assert (~ exists ii jj, ii < L /\ jj < L /\
                (r, c) = (nd ii + 1, nd jj + 1)) as Hno.
    { intros (ii & jj & Hii & Hjj & Heq). apply Hno'.
      apply List.Exists_exists. exists ii. split; [apply in_seq; lia|].
      apply List.Exists_exists. exists jj. split; [apply in_seq; lia|done]. }
    rewrite !Hout; [apply Hsym| |].
    + intros ii jj Hii Hjj [= -> ->]. apply Hno. by exists jj, ii.
    + intros ii jj Hii Hjj Heq. apply Hno. by exists ii, jj.
Qed.

Lemma integratePoint_symmetric spl continuous iel dA wg Xnod nnod ncomp
  gpar0 gpar1 sField j i ip (AB : SparseMatrix Real * list Real) :
  (forall x y : Real, rmul x y = rmul y x) ->
  (forall ii jj,
     ii < length (basisAt svc spl continuous iel gpar0 gpar1 j i).1 ->
     jj < length (basisAt svc spl continuous iel gpar0 gpar1 j i).1 ->
     nodeOf patch iel ii = nodeOf patch iel jj -> ii = jj) ->
  sparse_symmetric AB.1 ->
  sparse_symmetric
    (integratePoint svc patch spl continuous iel dA wg Xnod nnod ncomp
                    gpar0 gpar1 sField j i ip AB).1.
Proof.
  intros Hcomm Hinj Hsym. unfold integratePoint.
  destruct (basisAt svc spl continuous iel gpar0 gpar1 j i) as [phi dNdu].
  cbn [fst] in Hinj.
  destruct (continuous && req _ r0); [done|].
  destruct AB as [A B]. cbn [fst] in Hsym.
  set (dJw := jacobianWeight svc continuous dA wg Xnod dNdu j i).
  set (fA := fun ii (A : SparseMatrix Real) =>
    forRange (length phi) (fun jj A =>
      sparse_add A (nodeOf patch iel ii + 1) (nodeOf patch iel jj + 1)
        (rmul (rmul (at_ phi ii) (at_ phi jj)) dJw)) A).
  set (fB := fun ii (B : list Real) =>
    forRange ncomp (fun r B =>
      vset B (nodeOf patch iel ii + 1 + r * nnod)
        (radd (vget B (nodeOf patch iel ii + 1 + r * nnod))
           (rmul (rmul (at_ phi ii) (mget sField (r + 1) (ip + 1))) dJw)))
      B).
  change (sparse_symmetric
    (forRange (length phi) (fun ii '(A, B) => (fA ii A, fB ii B)) (A, B)).1).
  rewrite forRange_pair. cbn [fst]. unfold fA.
  apply (sparse_block_symmetric (length phi) (nodeOf patch iel)
           (fun ii jj => rmul (rmul (at_ phi ii) (at_ phi jj)) dJw));
    [exact Hinj| |exact Hsym].
  intros ii jj. cbn beta. by rewrite (Hcomm (at_ phi ii)).
Qed.

(** The mass matrix of the global projection is symmetric when the scalar
    product commutes and the functions of each element are numbered with
    distinct nodes: every Gauss point adds phi_i phi_j dJw at (i,j) and at
    (j,i). *)
Theorem assembleSystem_symmetric (spl : LRSplineSurface Real)
  (integrand : IntegrandBase) (continuous : bool) (ng1 ng2 : Z)
  (xg yg wg : list Real) (sField s : Matrix Real)
  (A : SparseMatrix Real) (B : list Real) :
  (forall x y : Real, rmul x y = rmul y x) ->
  (forall iel gpar0 gpar1 j i ii jj,
     1 <= iel <= length (elements spl) ->
     ii < length (basisAt svc spl continuous iel gpar0 gpar1 j i).1 ->
     jj < length (basisAt svc spl continuous iel gpar0 gpar1 j i).1 ->
     nodeOf patch iel ii = nodeOf patch iel jj -> ii = jj) ->
  assembleSystem svc patch spl integrand continuous ng1 ng2 xg yg wg sField
    = inr (A, B, s) ->
  forall r c, sparse_get A r c = sparse_get A c r.
Proof.
  unfold assembleSystem. intros Hcomm Hinj Hrun.
  apply (forEachM_inv
    (fun st : SparseMatrix Real * list Real * Matrix Real =>
       sparse_symmetric st.1.1)) in Hrun; [exact Hrun|done|].
  intros [iel el] [AB sF] st' Hin Hinv Hbody. cbn [fst] in Hinv.
  apply numbered_range in Hin.
  unfold assembleElement in Hbody.
  destruct (elementGeometry patch continuous iel) as [[Xnod dA]|]; [|done].
  unfold elementPoints in Hbody. cbn beta iota zeta in Hbody.
  destruct (evalSolution patch sF integrand _) as [[] sF']; [|done].
  injection Hbody as <-. cbn [fst]. unfold integrateElement.
  apply (forRange_inv (fun _ (st : SparseMatrix Real * list Real * nat) =>
           sparse_symmetric st.1.1)); [done|].
  intros j st _ Hst.
  apply (forRange_inv (fun _ (st : SparseMatrix Real * list Real * nat) =>
           sparse_symmetric st.1.1)); [done|].
  intros i [AB' ip] _ Hst'. cbn [fst] in *.
  apply integratePoint_symmetric; [exact Hcomm| |exact Hst'].
  intros ii jj. by apply Hinj.
Qed.

End GlobalSymmetry.

Lemma assembleSystem_symmetric_witness :
  let svc := Biquadratic.services Biquadratic.sparseGJ Biquadratic.denseGJ in
  let patch := Biquadratic.patchOf (Some Biquadratic.mesh)
                 (fun _ => 1 # 4)%Q (fun _ _ => 3%Q) in
  let xg := [-(1 # 2); 1 # 2]%Q in
  exists A B s,
    assembleSystem svc patch Biquadratic.mesh Biquadratic.integrand1 false
                   2 2 xg xg [] (mkMatrix 0 0 []) = inr (A, B, s) /\
    forall r c, sparse_get A r c = sparse_get A c r.
Proof.
  intros svc patch xg.
  assert (match assembleSystem svc patch Biquadratic.mesh
                  Biquadratic.integrand1 false 2 2 xg xg [] (mkMatrix 0 0 [])
          with inr _ => true | inl _ => false end = true) as Hok
    by (vm_compute; reflexivity).
  assert (forall iel, 1 <= iel <= 4 ->
            NoDup (nodeOf patch iel <$> seq 0 9)) as Hnodes.
  { intros iel Hiel.
    assert (iel = 1 \/ iel = 2 \/ iel = 3 \/ iel = 4)
      as [->|[->|[->| ->]]] by lia;
      apply (bool_decide_unpack _); vm_compute; exact I. }
  assert (forall iel gpar0 gpar1 j i ii jj,
     1 <= iel <= length (elements Biquadratic.mesh) ->
     ii < length (basisAt svc Biquadratic.mesh false iel gpar0 gpar1 j i).1 ->
     jj < length (basisAt svc Biquadratic.mesh false iel gpar0 gpar1 j i).1 ->
     nodeOf patch iel ii = nodeOf patch iel jj -> ii = jj) as Hinj.
  { intros iel gpar0 gpar1 j i ii jj Hiel.
    change (length (elements Biquadratic.mesh)) with 4 in Hiel.
    unfold basisAt. cbn [fst computeBasis Biquadratic.mesh].
    rewrite Biquadratic_basisQ_length by lia.
    intros Hii Hjj Heq.
    apply (NoDup_lookup (nodeOf patch iel <$> seq 0 9) ii jj
             (nodeOf patch iel ii) (Hnodes iel Hiel)).
    - by rewrite list_lookup_fmap, lookup_seq_lt.
    - by rewrite list_lookup_fmap, lookup_seq_lt, Heq. }
  destruct (assembleSystem svc patch Biquadratic.mesh Biquadratic.integrand1
              false 2 2 xg xg [] (mkMatrix 0 0 []))
    as [s|[[A B] s]] eqn:Hrun.
  - discriminate Hok.
  - exists A, B, s. split; [reflexivity|].
    exact (assembleSystem_symmetric svc patch Biquadratic.mesh
             Biquadratic.integrand1 false 2 2 xg xg []
             (mkMatrix 0 0 []) s A B Q_rmul_comm Hinj Hrun).
Defined.
